(** * The typed handler adapter of [lambda/handler.go] and the startup
      dispatcher of [lambda/entry.go]

    The development embeds the two Go files of the package [lambda]:

    - [handler.go]: the options ([WithContext], [WithSetEscapeHTML],
      [WithSetIndent], [WithEnableSIGTERM]), [newHandler], the byte-level
      [handlerFunc.Invoke], [errorHandler] and the generic [reflectHandler];
    - [entry.go]: [startFunctions] and [start].

    [reflectHandler] drives Go's [encoding/json] ([json.NewDecoder(in).Decode],
    [json.NewEncoder(out).Encode]) and a [bytes.Buffer].  What the handler
    observes of these library calls is modelled in the modules [json] and
    [Buffer] below, following the Go standard library: the byte scanner that
    delimits a JSON value, [Decoder.readValue], [Encoder.Encode] with its
    trailing newline and optional indentation, and the string encoder.  The
    type directed halves of the codec (from the bytes of one JSON value to a
    [TIn], from a [TOut] to bytes) are parameters of the adapter, since the
    handler is generic in [TIn] and [TOut].

    Bytes are integers in [0, 256); Go strings are Rocq strings. *)

From Stdlib Require Import ZArith List Bool String Ascii Lia.
Import ListNotations.
Open Scope string_scope.
Open Scope list_scope.
Open Scope Z_scope.

(* ================================================================== *)
(** * Bytes and Go error values *)

Definition byte := Z.

(** The byte of an ASCII character, so that the scanner below reads like
    its Go source ([ch "{"] for the brace). *)
Definition ch (a : ascii) : byte := Z.of_N (N_of_ascii a).

(** The double quote, the backslash and the control characters have no
    convenient character literal. *)
Definition dquote : byte := 34.
Definition backslash : byte := 92.
Definition newline : byte := 10.

Fixpoint bytes_of_string (s : string) : list byte :=
  match s with
  | EmptyString => []
  | String a s' => ch a :: bytes_of_string s'
  end.

(** JSON texts are written with single quotes in this file and converted:
    [js "{'a':1}"] is the byte sequence of the JSON text with double quotes. *)
Definition js (s : string) : list byte :=
  map (fun b => if b =? 39 then dquote else b) (bytes_of_string s).

(** Go [error] values the two files can produce or pass on.  A nil [error]
    is [None : option error]. *)
Inductive error : Type :=
| errorString (s : string)
    (* errors.New(s) *)
| SyntaxError (c : byte) (context : string) (offset : Z)
    (* json.SyntaxError: invalid character c, then the context, at offset *)
| SyntaxErrorMsg (msg : string) (offset : Z)
    (* json.SyntaxError with a fixed message *)
| EOF
    (* io.EOF *)
| ErrUnexpectedEOF
    (* io.ErrUnexpectedEOF *)
| UnmarshalTypeError (what : string)
    (* json.UnmarshalTypeError *)
| MarshalError (what : string)
    (* json.UnsupportedTypeError, json.UnsupportedValueError, json.MarshalerError *)
| UserError (code : Z) (msg : string).
    (* any error value made by user code *)

(** [err.Error()], for the errors whose text is a fixed string.  The text
    of the other [encoding/json] errors is formatted from their fields
    (quoted characters, Go type names) and is not needed here. *)
Definition Error (e : error) : option string :=
  match e with
  | errorString s => Some s
  | SyntaxErrorMsg msg _ => Some msg
  | EOF => Some "EOF"
  | ErrUnexpectedEOF => Some "unexpected EOF"
  | UserError _ msg => Some msg
  | SyntaxError _ _ _ | UnmarshalTypeError _ | MarshalError _ => None
  end.

Definition errors_New (text : string) : error := errorString text.

(* ================================================================== *)
(** * [bytes.Buffer], as far as the adapter uses it *)

Module Buffer.

(** The unread bytes of the buffer.  Nothing in [handler.go] reads from
    the output buffer through [Read], so the read offset stays zero. *)
Definition t := list byte.

Definition Reset (b : t) : t := [].

Definition Len (b : t) : Z := Z.of_nat (List.length b).

Definition Write (b : t) (p : list byte) : t := b ++ p.

Definition Bytes (b : t) : list byte := b.

(** [Truncate(n)] keeps the first [n] unread bytes; it panics when [n] is
    negative or larger than the length ([None]). *)
Definition Truncate (b : t) (n : Z) : option t :=
  if n =? 0 then Some (Reset b)
  else if (n <? 0) || (Len b <? n) then None
  else Some (firstn (Z.to_nat n) b).

End Buffer.

(* ================================================================== *)
(** * [encoding/json]: the scanner ([scanner.go]) *)

Module json.

(** What a call of [scanner.step] returns. *)
Inductive scan_code : Type :=
| scanContinue | scanBeginLiteral | scanBeginObject | scanObjectKey
| scanObjectValue | scanEndObject | scanBeginArray | scanArrayValue
| scanEndArray | scanSkipSpace
| scanEnd | scanError.

Inductive parse_state : Type :=
| parseObjectKey | parseObjectValue | parseArrayValue.

Definition maxNestingDepth : Z := 10000.

(** The state functions a scanner's [step] field can point to. *)
Inductive stepFn : Type :=
| S_BeginValueOrEmpty | S_BeginValue | S_BeginStringOrEmpty | S_BeginString
| S_EndValue | S_EndTop
| S_InString | S_InStringEsc | S_InStringEscU | S_InStringEscU1
| S_InStringEscU12 | S_InStringEscU123
| S_Neg | S_1 | S_0 | S_Dot | S_Dot0 | S_E | S_ESign | S_E0
| S_T | S_Tr | S_Tru | S_F | S_Fa | S_Fal | S_Fals | S_N | S_Nu | S_Nul
| S_Error.

(** The scanner.  [parseState] is Go's stack of open composite values; its
    last pushed element is the head of the list here. *)
Record scanner : Type := mkScanner {
  step : stepFn;
  endTop : bool;
  parseState : list parse_state;
  err : option error;
  bytes : Z
}.

Definition set_step (f : stepFn) (s : scanner) : scanner :=
  mkScanner f (endTop s) (parseState s) (err s) (bytes s).

Definition set_parseState (ps : list parse_state) (s : scanner) : scanner :=
  mkScanner (step s) (endTop s) ps (err s) (bytes s).

Definition set_endTop (b : bool) (s : scanner) : scanner :=
  mkScanner (step s) b (parseState s) (err s) (bytes s).

(** [newScanner] and [reset]: [bytes] is not touched by [reset]. *)
Definition reset (s : scanner) : scanner :=
  mkScanner S_BeginValue false [] None (bytes s).

Definition newScanner : scanner := mkScanner S_BeginValue false [] None 0.

(** [s.error(c, context)] *)
Definition scan_error (s : scanner) (c : byte) (context : string)
  : scan_code * scanner :=
  (scanError,
   mkScanner S_Error (endTop s) (parseState s)
             (Some (SyntaxError c context (bytes s))) (bytes s)).

Definition pushParseState (s : scanner) (c : byte) (newParseState : parse_state)
                          (successState : scan_code) : scan_code * scanner :=
  let s := set_parseState (newParseState :: parseState s) s in
  if Z.of_nat (List.length (parseState s)) <=? maxNestingDepth
  then (successState, s)
  else scan_error s c "exceeded max depth".

Definition popParseState (s : scanner) : scanner :=
  let ps := tl (parseState s) in
  let s := set_parseState ps s in
  match ps with
  | [] => set_endTop true (set_step S_EndTop s)
  | _ :: _ => set_step S_EndValue s
  end.

Definition isSpace (c : byte) : bool :=
  (c <=? ch " ") &&
  ((c =? ch " ") || (c =? 9) || (c =? 13) || (c =? 10)).

Definition isDigit (c : byte) : bool := (ch "0" <=? c) && (c <=? ch "9").
Definition isDigit19 (c : byte) : bool := (ch "1" <=? c) && (c <=? ch "9").
Definition isHex (c : byte) : bool :=
  isDigit c || ((ch "a" <=? c) && (c <=? ch "f"))
            || ((ch "A" <=? c) && (c <=? ch "F")).

Definition stateEndTop (s : scanner) (c : byte) : scan_code * scanner :=
  if negb (isSpace c)
  then (scanEnd, snd (scan_error s c "after top-level value"))
  else (scanEnd, s).

Definition stateEndValue (s : scanner) (c : byte) : scan_code * scanner :=
  match parseState s with
  | [] =>
      stateEndTop (set_endTop true (set_step S_EndTop s)) c
  | ps :: rest =>
      if isSpace c then (scanSkipSpace, set_step S_EndValue s)
      else
        match ps with
        | parseObjectKey =>
            if c =? ch ":" then
              (scanObjectKey,
               set_step S_BeginValue (set_parseState (parseObjectValue :: rest) s))
            else scan_error s c "after object key"
        | parseObjectValue =>
            if c =? ch "," then
              (scanObjectValue,
               set_step S_BeginString (set_parseState (parseObjectKey :: rest) s))
            else if c =? ch "}" then (scanEndObject, popParseState s)
            else scan_error s c "after object key:value pair"
        | parseArrayValue =>
            if c =? ch "," then (scanArrayValue, set_step S_BeginValue s)
            else if c =? ch "]" then (scanEndArray, popParseState s)
            else scan_error s c "after array element"
        end
  end.

Definition stateBeginValue (s : scanner) (c : byte) : scan_code * scanner :=
  if isSpace c then (scanSkipSpace, s)
  else if c =? ch "{" then
    pushParseState (set_step S_BeginStringOrEmpty s) c parseObjectKey scanBeginObject
  else if c =? ch "[" then
    pushParseState (set_step S_BeginValueOrEmpty s) c parseArrayValue scanBeginArray
  else if c =? dquote then (scanBeginLiteral, set_step S_InString s)
  else if c =? ch "-" then (scanBeginLiteral, set_step S_Neg s)
  else if c =? ch "0" then (scanBeginLiteral, set_step S_0 s)
  else if c =? ch "t" then (scanBeginLiteral, set_step S_T s)
  else if c =? ch "f" then (scanBeginLiteral, set_step S_F s)
  else if c =? ch "n" then (scanBeginLiteral, set_step S_N s)
  else if isDigit19 c then (scanBeginLiteral, set_step S_1 s)
  else scan_error s c "looking for beginning of value".

Definition stateBeginValueOrEmpty (s : scanner) (c : byte) : scan_code * scanner :=
  if isSpace c then (scanSkipSpace, s)
  else if c =? ch "]" then stateEndValue s c
  else stateBeginValue s c.

Definition stateBeginString (s : scanner) (c : byte) : scan_code * scanner :=
  if isSpace c then (scanSkipSpace, s)
  else if c =? dquote then (scanBeginLiteral, set_step S_InString s)
  else scan_error s c "looking for beginning of object key string".

Definition stateBeginStringOrEmpty (s : scanner) (c : byte) : scan_code * scanner :=
  if isSpace c then (scanSkipSpace, s)
  else if c =? ch "}" then
    stateEndValue (set_parseState (parseObjectValue :: tl (parseState s)) s) c
  else stateBeginString s c.

Definition stateInString (s : scanner) (c : byte) : scan_code * scanner :=
  if c =? dquote then (scanContinue, set_step S_EndValue s)
  else if c =? backslash then (scanContinue, set_step S_InStringEsc s)
  else if c <? 32 then scan_error s c "in string literal"
  else (scanContinue, s).

Definition stateInStringEsc (s : scanner) (c : byte) : scan_code * scanner :=
  if (c =? ch "b") || (c =? ch "f") || (c =? ch "n") || (c =? ch "r")
     || (c =? ch "t") || (c =? backslash) || (c =? ch "/") || (c =? dquote)
  then (scanContinue, set_step S_InString s)
  else if c =? ch "u" then (scanContinue, set_step S_InStringEscU s)
  else scan_error s c "in string escape code".

(** [stateInStringEscU], [..U1], [..U12], [..U123]: one hexadecimal digit
    each, [next] being the state after it. *)
Definition stateInStringEscHex (next : stepFn) (s : scanner) (c : byte)
  : scan_code * scanner :=
  if isHex c then (scanContinue, set_step next s)
  else scan_error s c "in \u hexadecimal character escape".

Definition stateNeg (s : scanner) (c : byte) : scan_code * scanner :=
  if c =? ch "0" then (scanContinue, set_step S_0 s)
  else if isDigit19 c then (scanContinue, set_step S_1 s)
  else scan_error s c "in numeric literal".

Definition state0 (s : scanner) (c : byte) : scan_code * scanner :=
  if c =? ch "." then (scanContinue, set_step S_Dot s)
  else if (c =? ch "e") || (c =? ch "E") then (scanContinue, set_step S_E s)
  else stateEndValue s c.

Definition state1 (s : scanner) (c : byte) : scan_code * scanner :=
  if isDigit c then (scanContinue, set_step S_1 s)
  else state0 s c.

Definition stateDot (s : scanner) (c : byte) : scan_code * scanner :=
  if isDigit c then (scanContinue, set_step S_Dot0 s)
  else scan_error s c "after decimal point in numeric literal".

Definition stateDot0 (s : scanner) (c : byte) : scan_code * scanner :=
  if isDigit c then (scanContinue, s)
  else if (c =? ch "e") || (c =? ch "E") then (scanContinue, set_step S_E s)
  else stateEndValue s c.

Definition stateESign (s : scanner) (c : byte) : scan_code * scanner :=
  if isDigit c then (scanContinue, set_step S_E0 s)
  else scan_error s c "in exponent of numeric literal".

Definition stateE (s : scanner) (c : byte) : scan_code * scanner :=
  if (c =? ch "+") || (c =? ch "-") then (scanContinue, set_step S_ESign s)
  else stateESign s c.

Definition stateE0 (s : scanner) (c : byte) : scan_code * scanner :=
  if isDigit c then (scanContinue, s)
  else stateEndValue s c.

(** [stateT], [stateTr], ... [stateNul]: one letter of [true], [false] or
    [null] each. *)
Definition stateLetter (expect : byte) (next : stepFn) (context : string)
                       (s : scanner) (c : byte) : scan_code * scanner :=
  if c =? expect then (scanContinue, set_step next s)
  else scan_error s c context.

Definition stateError (s : scanner) (c : byte) : scan_code * scanner :=
  (scanError, s).

(** [s.step(s, c)]: the call through the function pointer. *)
Definition scan_step (s : scanner) (c : byte) : scan_code * scanner :=
  match step s with
  | S_BeginValueOrEmpty => stateBeginValueOrEmpty s c
  | S_BeginValue => stateBeginValue s c
  | S_BeginStringOrEmpty => stateBeginStringOrEmpty s c
  | S_BeginString => stateBeginString s c
  | S_EndValue => stateEndValue s c
  | S_EndTop => stateEndTop s c
  | S_InString => stateInString s c
  | S_InStringEsc => stateInStringEsc s c
  | S_InStringEscU => stateInStringEscHex S_InStringEscU1 s c
  | S_InStringEscU1 => stateInStringEscHex S_InStringEscU12 s c
  | S_InStringEscU12 => stateInStringEscHex S_InStringEscU123 s c
  | S_InStringEscU123 => stateInStringEscHex S_InString s c
  | S_Neg => stateNeg s c
  | S_1 => state1 s c
  | S_0 => state0 s c
  | S_Dot => stateDot s c
  | S_Dot0 => stateDot0 s c
  | S_E => stateE s c
  | S_ESign => stateESign s c
  | S_E0 => stateE0 s c
  | S_T => stateLetter (ch "r") S_Tr "in literal true (expecting 'r')" s c
  | S_Tr => stateLetter (ch "u") S_Tru "in literal true (expecting 'u')" s c
  | S_Tru => stateLetter (ch "e") S_EndValue "in literal true (expecting 'e')" s c
  | S_F => stateLetter (ch "a") S_Fa "in literal false (expecting 'a')" s c
  | S_Fa => stateLetter (ch "l") S_Fal "in literal false (expecting 'l')" s c
  | S_Fal => stateLetter (ch "s") S_Fals "in literal false (expecting 's')" s c
  | S_Fals => stateLetter (ch "e") S_EndValue "in literal false (expecting 'e')" s c
  | S_N => stateLetter (ch "u") S_Nu "in literal null (expecting 'u')" s c
  | S_Nu => stateLetter (ch "l") S_Nul "in literal null (expecting 'l')" s c
  | S_Nul => stateLetter (ch "l") S_EndValue "in literal null (expecting 'l')" s c
  | S_Error => stateError s c
  end.

(** [s.eof()] *)
Definition eof (s : scanner) : scan_code * scanner :=
  match err s with
  | Some _ => (scanError, s)
  | None =>
      if endTop s then (scanEnd, s)
      else
        let s := snd (scan_step s (ch " ")) in
        if endTop s then (scanEnd, s)
        else
          match err s with
          | None =>
              (scanError,
               mkScanner (step s) (endTop s) (parseState s)
                 (Some (SyntaxErrorMsg "unexpected end of JSON input" (bytes s)))
                 (bytes s))
          | Some _ => (scanError, s)
          end
  end.

(** What holds of every scanner reached from [newScanner]: once the
    top-level value has ended the scanner is in [stateEndTop] or, after a
    complaint, in [stateError]; in [stateError] the error is set. *)
Definition scanner_ok (s : scanner) : Prop :=
  (endTop s = true -> step s = S_EndTop \/ step s = S_Error)
  /\ (step s = S_Error -> err s <> None)
  /\ (err s <> None -> step s = S_Error).

(* ------------------------------------------------------------------ *)
(** ** The decoder ([stream.go]) *)

Definition nonSpace (b : list byte) : bool := existsb (fun c => negb (isSpace c)) b.

Definition bump (s : scanner) : scanner :=
  mkScanner (step s) (endTop s) (parseState s) (err s) (bytes s + 1).

(** The scan loop of [Decoder.readValue] over the bytes [rest] that follow
    the [scanp] bytes already scanned; [buf] is the whole buffer.  The
    reader is a [bytes.Buffer] holding the payload, so [refill] hands over
    the payload and then reports [io.EOF]; the scan does not depend on how
    the payload is cut into reads.  The result is Go's pair [(n, err)]. *)
Fixpoint readValue_scan (buf : list byte) (s : scanner) (rest : list byte)
                        (scanp : nat) : nat * option error :=
  match rest with
  | [] =>
      (* err == io.EOF *)
      match fst (scan_step s (ch " ")) with
      | scanEnd => (scanp, None)
      | _ => if nonSpace buf then (O, Some ErrUnexpectedEOF) else (O, Some EOF)
      end
  | c :: rest' =>
      let (code, s1) := scan_step (bump s) c in
      match code with
      | scanEnd => (scanp, None)
      | scanEndObject | scanEndArray =>
          (* scanEnd is delayed one byte: invent a space byte *)
          let (code2, s2) := stateEndValue s1 (ch " ") in
          match code2 with
          | scanEnd => (S scanp, None)
          | _ => readValue_scan buf s2 rest' (S scanp)
          end
      | scanError => (O, err s1)
      | _ => readValue_scan buf s1 rest' (S scanp)
      end
  end.

(** [dec.readValue()] on a fresh decoder over [payload]. *)
Definition readValue (payload : list byte) : nat * option error :=
  readValue_scan payload (reset newScanner) payload O.

(** [json.NewDecoder(bytes.NewBuffer(payload)).Decode(event)] with [event]
    a pointer to a fresh zero value: the scanner delimits the first value
    and [unmarshal] (Go's [d.unmarshal] at the type of [event]) reads those
    bytes.  [inl] is the returned error, [inr] the value [event] ends with. *)
Definition Decode {T : Type} (unmarshal : list byte -> error + T)
                  (payload : list byte) : error + T :=
  match readValue payload with
  | (_, Some e) => inl e
  | (n, None) => unmarshal (firstn n payload)
  end.

(* ------------------------------------------------------------------ *)
(** ** Indentation ([indent.go]) *)

Fixpoint repeat_bytes (n : nat) (unit : list byte) : list byte :=
  match n with
  | O => []
  | S k => unit ++ repeat_bytes k unit
  end.

Definition appendNewline (dst : list byte) (prefix indent : string) (depth : Z)
  : list byte :=
  dst ++ [newline] ++ bytes_of_string prefix
      ++ repeat_bytes (Z.to_nat depth) (bytes_of_string indent).

Definition is_end_code (v : scan_code) : bool :=
  match v with scanEndObject | scanEndArray => true | _ => false end.

(** The loop of [appendIndent]; it returns the scanner too, for the final
    [scan.eof()]. *)
Fixpoint appendIndent_loop (prefix indent : string) (src : list byte)
    (scan : scanner) (needIndent : bool) (depth : Z) (dst : list byte)
  : list byte * scanner :=
  match src with
  | [] => (dst, scan)
  | c :: src' =>
      let (v, scan) := scan_step (bump scan) c in
      match v with
      | scanSkipSpace => appendIndent_loop prefix indent src' scan needIndent depth dst
      | scanError => (dst, scan)
      | _ =>
          let '(needIndent, depth, dst) :=
            if needIndent && negb (is_end_code v)
            then (false, depth + 1, appendNewline dst prefix indent (depth + 1))
            else (needIndent, depth, dst) in
          match v with
          | scanContinue =>
              appendIndent_loop prefix indent src' scan needIndent depth (dst ++ [c])
          | _ =>
              if (c =? ch "{") || (c =? ch "[") then
                appendIndent_loop prefix indent src' scan true depth (dst ++ [c])
              else if c =? ch "," then
                appendIndent_loop prefix indent src' scan needIndent depth
                  (appendNewline (dst ++ [c]) prefix indent depth)
              else if c =? ch ":" then
                appendIndent_loop prefix indent src' scan needIndent depth
                  (dst ++ [c; ch " "])
              else if (c =? ch "}") || (c =? ch "]") then
                if needIndent then
                  appendIndent_loop prefix indent src' scan false depth (dst ++ [c])
                else
                  appendIndent_loop prefix indent src' scan needIndent (depth - 1)
                    (appendNewline dst prefix indent (depth - 1) ++ [c])
              else
                appendIndent_loop prefix indent src' scan needIndent depth (dst ++ [c])
          end
      end
  end.

(** [appendIndent(dst[:0], src, prefix, indent)] *)
Definition appendIndent (src : list byte) (prefix indent : string)
  : list byte * option error :=
  let (dst, scan) := appendIndent_loop prefix indent src newScanner false 0 [] in
  let (code, scan) := eof scan in
  match code with
  | scanError => ([], err scan)
  | _ => (dst, None)
  end.

(* ------------------------------------------------------------------ *)
(** ** The encoder ([stream.go]) *)

Record Encoder : Type := mkEncoder {
  escapeHTML : bool;
  indentPrefix : string;
  indentValue : string
}.

(** [json.NewEncoder(w)]: HTML escaping is on until [SetEscapeHTML] says
    otherwise. *)
Definition NewEncoder : Encoder := mkEncoder true "" "".

Definition SetEscapeHTML (on : bool) (enc : Encoder) : Encoder :=
  mkEncoder on (indentPrefix enc) (indentValue enc).

Definition SetIndent (prefix indent : string) (enc : Encoder) : Encoder :=
  mkEncoder (escapeHTML enc) prefix indent.

Definition is_empty (s : string) : bool :=
  match s with EmptyString => true | String _ _ => false end.

(** [enc.Encode(v)] writing to the buffer [w].  [marshal v escapeHTML] is
    Go's [e.marshal(v, encOpts{escapeHTML})] at the type of [v]; the encoder
    terminates the value with a newline, indents the text when either indent
    string is set, and writes the result to [w] in one [Write]. *)
Definition Encode {T : Type} (marshal : T -> bool -> error + list byte)
                  (enc : Encoder) (v : T) (w : Buffer.t)
  : option error * Buffer.t :=
  match marshal v (escapeHTML enc) with
  | inl e => (Some e, w)
  | inr text =>
      let b := text ++ [newline] in
      if negb (is_empty (indentPrefix enc)) || negb (is_empty (indentValue enc))
      then
        match appendIndent b (indentPrefix enc) (indentValue enc) with
        | (_, Some e) => (Some e, w)
        | (b', None) => (None, Buffer.Write w b')
        end
      else (None, Buffer.Write w b)
  end.

(* ------------------------------------------------------------------ *)
(** ** Strings ([encode.go], [unicode/utf8]) *)

Definition RuneError : Z := 65533.

(** [utf8.DecodeRune(p)]: the rune at the start of [p] and its width in
    bytes; [(RuneError, 1)] for a byte sequence that is not UTF-8. *)
Definition DecodeRune (p : list byte) : Z * nat :=
  let cont (b : byte) := (128 <=? b) && (b <=? 191) in
  match p with
  | [] => (RuneError, O)
  | p0 :: t =>
      if p0 <? 128 then (p0, 1%nat)
      else if (p0 <? 194) || (244 <? p0) then (RuneError, 1%nat)
      else if p0 <? 224 then
        match t with
        | b1 :: _ =>
            if cont b1 then (Z.lor (Z.shiftl (Z.land p0 31) 6) (Z.land b1 63), 2%nat)
            else (RuneError, 1%nat)
        | _ => (RuneError, 1%nat)
        end
      else if p0 <? 240 then
        match t with
        | b1 :: b2 :: _ =>
            let lo := if p0 =? 224 then 160 else 128 in
            let hi := if p0 =? 237 then 159 else 191 in
            if (b1 <? lo) || (hi <? b1) then (RuneError, 1%nat)
            else if negb (cont b2) then (RuneError, 1%nat)
            else (Z.lor (Z.lor (Z.shiftl (Z.land p0 15) 12)
                               (Z.shiftl (Z.land b1 63) 6))
                        (Z.land b2 63), 3%nat)
        | _ => (RuneError, 1%nat)
        end
      else
        match t with
        | b1 :: b2 :: b3 :: _ =>
            let lo := if p0 =? 240 then 144 else 128 in
            let hi := if p0 =? 244 then 143 else 191 in
            if (b1 <? lo) || (hi <? b1) then (RuneError, 1%nat)
            else if negb (cont b2) then (RuneError, 1%nat)
            else if negb (cont b3) then (RuneError, 1%nat)
            else (Z.lor (Z.lor (Z.lor (Z.shiftl (Z.land p0 7) 18)
                                      (Z.shiftl (Z.land b1 63) 12))
                               (Z.shiftl (Z.land b2 63) 6))
                        (Z.land b3 63), 4%nat)
        | _ => (RuneError, 1%nat)
        end
  end.

(** [safeSet[b]] and [htmlSafeSet[b]] for an ASCII byte [b] ([tables.go]):
    the bytes that a JSON string holds without escaping. *)
Definition safeSet (b : byte) : bool :=
  (32 <=? b) && (b <? 128) && negb (b =? dquote) && negb (b =? backslash).

Definition htmlSafeSet (b : byte) : bool :=
  safeSet b && negb (b =? ch "<") && negb (b =? ch ">") && negb (b =? ch "&").

(** [hex[i]], for [hex = "0123456789abcdef"]. *)
Definition hex (i : Z) : byte := if i <? 10 then ch "0" + i else ch "a" + (i - 10).

(** The escape [appendString] writes for an ASCII byte outside the safe
    set. *)
Definition escapeByte (b : byte) : list byte :=
  if (b =? backslash) || (b =? dquote) then [backslash; b]
  else if b =? 8 then [backslash; ch "b"]
  else if b =? 12 then [backslash; ch "f"]
  else if b =? 10 then [backslash; ch "n"]
  else if b =? 13 then [backslash; ch "r"]
  else if b =? 9 then [backslash; ch "t"]
  else [backslash; ch "u"; ch "0"; ch "0"; hex (Z.shiftr b 4); hex (Z.land b 15)].

(** The loop of [appendString] from the current position: [skip] bytes
    still belong to the rune met last, copied as they are when [copy] is
    set and dropped when the rune was written as an escape. *)
Fixpoint appendString_loop (escapeHTML : bool) (src : list byte)
                           (skip : nat) (copy : bool) : list byte :=
  match src with
  | [] => []
  | b :: rest =>
      match skip with
      | S k =>
          (if copy then [b] else []) ++ appendString_loop escapeHTML rest k copy
      | O =>
          if b <? 128 then
            (if htmlSafeSet b || (negb escapeHTML && safeSet b) then [b]
             else escapeByte b)
            ++ appendString_loop escapeHTML rest O true
          else
            let (c, size) := DecodeRune src in
            if (c =? RuneError) && Nat.eqb size 1 then
              [backslash; ch "u"; ch "f"; ch "f"; ch "f"; ch "d"]
              ++ appendString_loop escapeHTML rest O true
            else if (c =? 8232) || (c =? 8233) then
              [backslash; ch "u"; ch "2"; ch "0"; ch "2"; hex (Z.land c 15)]
              ++ appendString_loop escapeHTML rest (size - 1) false
            else
              [b] ++ appendString_loop escapeHTML rest (size - 1) true
      end
  end.

(** [appendString(nil, src, escapeHTML)]: the JSON string literal of the Go
    string [src]. *)
Definition appendString (src : list byte) (escapeHTML : bool) : list byte :=
  [dquote] ++ appendString_loop escapeHTML src O true ++ [dquote].

(** [e.marshal] at the Go type [string]; it cannot fail. *)
Definition marshal_string (v : list byte) (escapeHTML : bool) : error + list byte :=
  inr (appendString v escapeHTML).

(** [d.unmarshal] at the Go type [json.RawMessage]: [UnmarshalJSON] copies
    the bytes of the value, which start after the leading white space. *)
Fixpoint skipSpace (data : list byte) : list byte :=
  match data with
  | c :: rest => if isSpace c then skipSpace rest else data
  | [] => []
  end.

Definition unmarshal_RawMessage (data : list byte) : error + list byte :=
  inr (skipSpace data).

(** [utf8.EncodeRune]: the UTF-8 bytes of a rune; a surrogate or a value
    out of range is written as [RuneError]. *)
Definition EncodeRune (r : Z) : list byte :=
  if (0 <=? r) && (r <=? 127) then [r]
  else if (0 <=? r) && (r <=? 2047) then
    [Z.lor 192 (Z.shiftr r 6); Z.lor 128 (Z.land r 63)]
  else if (r <? 0) || (1114111 <? r) || ((55296 <=? r) && (r <=? 57343)) then
    [239; 191; 189]
  else if r <=? 65535 then
    [Z.lor 224 (Z.shiftr r 12); Z.lor 128 (Z.land (Z.shiftr r 6) 63);
     Z.lor 128 (Z.land r 63)]
  else
    [Z.lor 240 (Z.shiftr r 18); Z.lor 128 (Z.land (Z.shiftr r 12) 63);
     Z.lor 128 (Z.land (Z.shiftr r 6) 63); Z.lor 128 (Z.land r 63)].

Definition hexValue (c : byte) : option Z :=
  if isDigit c then Some (c - ch "0")
  else if (ch "a" <=? c) && (c <=? ch "f") then Some (c - ch "a" + 10)
  else if (ch "A" <=? c) && (c <=? ch "F") then Some (c - ch "A" + 10)
  else None.

(** [getu4(s)]: the number of the escape [\uXXXX] that [s] starts with,
    or [-1]. *)
Definition getu4 (s : list byte) : Z :=
  match s with
  | b0 :: b1 :: c0 :: c1 :: c2 :: c3 :: _ =>
      if (b0 =? backslash) && (b1 =? ch "u") then
        match hexValue c0, hexValue c1, hexValue c2, hexValue c3 with
        | Some h0, Some h1, Some h2, Some h3 => ((h0 * 16 + h1) * 16 + h2) * 16 + h3
        | _, _, _, _ => -1
        end
      else -1
  | _ => -1
  end.

(** [utf16.DecodeRune(r1, r2)] *)
Definition utf16_DecodeRune (r1 r2 : Z) : Z :=
  if (55296 <=? r1) && (r1 <? 56320) && (56320 <=? r2) && (r2 <? 57344)
  then Z.lor (Z.shiftl (r1 - 55296) 10) (r2 - 56320) + 65536
  else RuneError.

(** The loop of [unquoteBytes] over the inside of a string literal, from
    the current position; [skip] bytes still belong to the escape or the
    rune met last.  [None] is Go's [ok == false].  (Go first copies the
    longest prefix without a backslash, a quote, a control character or
    invalid UTF-8 as it is; the loop leaves such a prefix as it is, too.) *)
Fixpoint unquote_loop (s : list byte) (skip : nat) : option (list byte) :=
  match s with
  | [] => match skip with O => Some [] | S _ => None end
  | c :: rest =>
      match skip with
      | S k => unquote_loop rest k
      | O =>
          if c =? backslash then
            match rest with
            | [] => None
            | e :: _ =>
                if (e =? dquote) || (e =? backslash) || (e =? ch "/") || (e =? 39)
                then option_map (cons e) (unquote_loop rest 1)
                else if e =? ch "b" then option_map (cons 8) (unquote_loop rest 1)
                else if e =? ch "f" then option_map (cons 12) (unquote_loop rest 1)
                else if e =? ch "n" then option_map (cons 10) (unquote_loop rest 1)
                else if e =? ch "r" then option_map (cons 13) (unquote_loop rest 1)
                else if e =? ch "t" then option_map (cons 9) (unquote_loop rest 1)
                else if e =? ch "u" then
                  let rr := getu4 s in
                  if rr <? 0 then None
                  else if (55296 <=? rr) && (rr <? 57344) then
                    let dec := utf16_DecodeRune rr (getu4 (skipn 6 s)) in
                    if negb (dec =? RuneError) then
                      option_map (app (EncodeRune dec)) (unquote_loop rest 11)
                    else
                      option_map (app (EncodeRune RuneError)) (unquote_loop rest 5)
                  else option_map (app (EncodeRune rr)) (unquote_loop rest 5)
                else None
            end
          else if (c =? dquote) || (c <? 32) then None
          else if c <? 128 then option_map (cons c) (unquote_loop rest O)
          else
            let (rr, size) := DecodeRune s in
            option_map (app (EncodeRune rr)) (unquote_loop rest (size - 1))
      end
  end.

(** [unquoteBytes(s)] for a literal [s] with its quotes. *)
Definition unquoteBytes (s : list byte) : option (list byte) :=
  match s with
  | q :: inner =>
      if (q =? dquote) && (2 <=? Z.of_nat (List.length s))
         && (last s 0 =? dquote)
      then unquote_loop (removelast inner) O
      else None
  | [] => None
  end.

(** [d.unmarshal] at the Go type [string], on the bytes of one value that
    the scanner has delimited: a string literal is unquoted, [null] leaves
    the zero value, anything else is a type error. *)
Definition unmarshal_string (data : list byte) : error + list byte :=
  match skipSpace data with
  | [] => inl (SyntaxErrorMsg "unexpected end of JSON input" 0)
  | (c :: _) as item =>
      if c =? dquote then
        match unquoteBytes item with
        | Some t => inr t
        | None => inl (SyntaxErrorMsg "JSON decoder out of sync - data changing underfoot?" 0)
        end
      else if c =? ch "n" then inr []
      else if (c =? ch "t") || (c =? ch "f") then
        inl (UnmarshalTypeError "bool into Go value of type string")
      else if c =? ch "{" then
        inl (UnmarshalTypeError "object into Go value of type string")
      else if c =? ch "[" then
        inl (UnmarshalTypeError "array into Go value of type string")
      else inl (UnmarshalTypeError "number into Go value of type string")
  end.

(* ------------------------------------------------------------------ *)
(** ** Where a value ends *)

(** The states in which the scanner stands after the last digit of what
    may be a complete number. *)
Definition number_state (f : stepFn) : bool :=
  match f with
  | S_1 | S_0 | S_Dot0 | S_E0 => true
  | _ => false
  end.

(** What holds of the scanner whenever the loop of [readValue] is about
    to take a step: the top-level value has not ended and no error has
    been met. *)
Definition scanner_quiet (s : scanner) : Prop :=
  endTop s = false /\ err s = None /\ step s <> S_Error /\ step s <> S_EndTop.

(** What a step from a quiet scanner leads to, by the code it returns:
    a failed step has set a syntax error; the end of an object or an array
    either closes the top-level value or leaves the scanner quiet inside
    the enclosing value; any other step that does not end the value leaves
    the scanner quiet. *)
Definition step_outcome (code : scan_code) (s1 : scanner) : Prop :=
  match code with
  | scanEnd => True
  | scanError => exists c context offset, err s1 = Some (SyntaxError c context offset)
  | scanEndObject | scanEndArray =>
      parseState s1 = []
      \/ (parseState s1 <> [] /\ scanner_quiet s1 /\ step s1 = S_EndValue)
  | _ => scanner_quiet s1
  end.

(** The bytes that can continue a number literal. *)
Definition continues_number (c : byte) : bool :=
  isDigit c || (c =? ch ".") || (c =? ch "e") || (c =? ch "E").

Definition ends_with_digit (v : list byte) : bool :=
  match v with
  | [] => false
  | _ :: _ => isDigit (last v 0)
  end.

(** [rest] does not continue the value [v]: [v] does not end with a digit
    (only a number does), or [rest] is empty or starts with a byte that
    cannot continue a number. *)
Definition delimited (v rest : list byte) : bool :=
  match rest with
  | [] => true
  | c :: _ => negb (ends_with_digit v && continues_number c)
  end.

(* ------------------------------------------------------------------ *)
(** ** The JSON grammar

    The texts of RFC 8259, as sets of byte sequences, to say what the
    scanner accepts without reference to the scanner.  A string may hold
    any byte from the space on, so also bytes that are not UTF-8: the
    scanner does not look at the encoding. *)

Definition all_space (ws : list byte) : Prop := nonSpace ws = false.

Definition all_digits (ds : list byte) : Prop :=
  Forall (fun c => isDigit c = true) ds.

Definition simple_escape (e : byte) : bool :=
  (e =? ch "b") || (e =? ch "f") || (e =? ch "n") || (e =? ch "r")
  || (e =? ch "t") || (e =? backslash) || (e =? ch "/") || (e =? dquote).

(** The inside of a string literal. *)
Inductive string_chars : list byte -> Prop :=
| chars_nil : string_chars []
| chars_plain (c : byte) (s : list byte) :
    32 <= c -> c <> dquote -> c <> backslash ->
    string_chars s -> string_chars (c :: s)
| chars_escape (e : byte) (s : list byte) :
    simple_escape e = true ->
    string_chars s -> string_chars (backslash :: e :: s)
| chars_unicode (h1 h2 h3 h4 : byte) (s : list byte) :
    isHex h1 = true -> isHex h2 = true -> isHex h3 = true -> isHex h4 = true ->
    string_chars s ->
    string_chars (backslash :: ch "u" :: h1 :: h2 :: h3 :: h4 :: s).

(** The parts of a number: an optional minus, the integer, an optional
    fraction, an optional exponent. *)
Definition sign_part (l : list byte) : Prop := l = [] \/ l = [ch "-"].

Definition int_part (l : list byte) : Prop :=
  l = [ch "0"]
  \/ exists d ds, l = d :: ds /\ isDigit19 d = true /\ all_digits ds.

Definition frac_part (l : list byte) : Prop :=
  l = [] \/ exists d ds, l = ch "." :: d :: ds /\ all_digits (d :: ds).

Definition exp_part (l : list byte) : Prop :=
  l = []
  \/ exists m sg d ds,
       l = m :: sg ++ d :: ds
       /\ (m = ch "e" \/ m = ch "E")
       /\ (sg = [] \/ sg = [ch "+"] \/ sg = [ch "-"])
       /\ all_digits (d :: ds).

Inductive number_text : list byte -> Prop :=
| number_parts (sign int frac exp : list byte) :
    sign_part sign -> int_part int -> frac_part frac -> exp_part exp ->
    number_text (sign ++ int ++ frac ++ exp).

(** [value d v]: [v] is a JSON value whose arrays and objects nest at most
    [d] deep.  [elements d l] and [members d l] are what stands between the
    brackets of a non-empty array and of a non-empty object. *)
Inductive value : nat -> list byte -> Prop :=
| value_null (d : nat) : value d (bytes_of_string "null")
| value_true (d : nat) : value d (bytes_of_string "true")
| value_false (d : nat) : value d (bytes_of_string "false")
| value_number (d : nat) (n : list byte) : number_text n -> value d n
| value_string (d : nat) (s : list byte) :
    string_chars s -> value d (dquote :: s ++ [dquote])
| value_empty_array (d : nat) (ws : list byte) :
    all_space ws -> value (S d) (ch "[" :: ws ++ [ch "]"])
| value_array (d : nat) (l : list byte) :
    elements d l -> value (S d) (ch "[" :: l ++ [ch "]"])
| value_empty_object (d : nat) (ws : list byte) :
    all_space ws -> value (S d) (ch "{" :: ws ++ [ch "}"])
| value_object (d : nat) (l : list byte) :
    members d l -> value (S d) (ch "{" :: l ++ [ch "}"])
with elements : nat -> list byte -> Prop :=
| elements_last (d : nat) (ws1 v ws2 : list byte) :
    all_space ws1 -> value d v -> all_space ws2 ->
    elements d (ws1 ++ v ++ ws2)
| elements_more (d : nat) (ws1 v ws2 l : list byte) :
    all_space ws1 -> value d v -> all_space ws2 -> elements d l ->
    elements d (ws1 ++ v ++ ws2 ++ ch "," :: l)
with members : nat -> list byte -> Prop :=
| members_last (d : nat) (ws1 k ws2 ws3 v ws4 : list byte) :
    all_space ws1 -> string_chars k -> all_space ws2 ->
    all_space ws3 -> value d v -> all_space ws4 ->
    members d (ws1 ++ (dquote :: k ++ [dquote]) ++ ws2 ++ ch ":" :: ws3 ++ v ++ ws4)
| members_more (d : nat) (ws1 k ws2 ws3 v ws4 l : list byte) :
    all_space ws1 -> string_chars k -> all_space ws2 ->
    all_space ws3 -> value d v -> all_space ws4 -> members d l ->
    members d (ws1 ++ (dquote :: k ++ [dquote]) ++ ws2 ++ ch ":" :: ws3 ++ v ++ ws4
                 ++ ch "," :: l).

Scheme value_mut := Minimality for value Sort Prop
  with elements_mut := Minimality for elements Sort Prop
  with members_mut := Minimality for members Sort Prop.

Combined Scheme value_elements_members_ind
  from value_mut, elements_mut, members_mut.

(* ------------------------------------------------------------------ *)
(** ** The scan loop, one byte at a time *)

(** The scanner with which the loop of [readValue] goes on after the byte
    [c], or [None] when the loop stops at [c]. *)
Definition advance (s : scanner) (c : byte) : option scanner :=
  let (code, s1) := scan_step (bump s) c in
  match code with
  | scanEnd | scanError => None
  | scanEndObject | scanEndArray =>
      let (code2, s2) := stateEndValue s1 (ch " ") in
      match code2 with
      | scanEnd => None
      | _ => Some s2
      end
  | _ => Some s1
  end.

(** The scanner after the loop has gone through all of [l]. *)
Fixpoint run (s : scanner) (l : list byte) : option scanner :=
  match l with
  | [] => Some s
  | c :: l' =>
      match advance s c with
      | Some s' => run s' l'
      | None => None
      end
  end.

(** [s'] differs from [s] at most in the state function and the count of
    bytes: the same open values, the same flags. *)
Definition keeps (s s' : scanner) : Prop :=
  parseState s' = parseState s /\ endTop s' = endTop s /\ err s' = err s.

(** The scanner is about to read a value. *)
Definition begins_value (s : scanner) : Prop :=
  step s = S_BeginValue \/ step s = S_BeginValueOrEmpty.

(** The scanner has read a value, inside the open values [ps]: it stands
    after a string, a literal, an array or an object, or after the last
    digit of a number. *)
Definition value_ended (ps : list parse_state) (s : scanner) : Prop :=
  scanner_quiet s /\ parseState s = ps
  /\ (step s = S_EndValue \/ number_state (step s) = true).

(** The byte [c] closes the array or the object the scanner is in, [q]
    being the values open around it: a bracket after an element or right
    after the opening bracket, a brace after a member or right after the
    opening brace. *)
Definition closable (s : scanner) (c : byte) (q : list parse_state) : Prop :=
  (value_ended (parseArrayValue :: q) s /\ c = ch "]")
  \/ (value_ended (parseObjectValue :: q) s /\ c = ch "}")
  \/ (scanner_quiet s /\ step s = S_BeginValueOrEmpty
      /\ parseState s = parseArrayValue :: q /\ c = ch "]")
  \/ (scanner_quiet s /\ step s = S_BeginStringOrEmpty
      /\ parseState s = parseObjectKey :: q /\ c = ch "}").

(** The nesting depth [d] fits under the values [q] already open. *)
Definition fits (q : list parse_state) (d : nat) : Prop :=
  Z.of_nat (List.length q + d) <= maxNestingDepth.

End json.

(* ================================================================== *)
(** * [lambda/handler.go] *)

Module lambda.

(** A Go call either returns or panics. *)
Inductive result (A : Type) : Type :=
| Returned (a : A)
| Panicked (why : string).
Arguments Returned {A} a.
Arguments Panicked {A} why.

Section Adapter.

(** [context.Context] and [context.Background()]. *)
Variable Context : Type.
Variable Background : Context.

(** The rest of the program's state: what the user function, the trace
    callbacks and the shutdown callbacks can read and change. *)
Variable World : Type.

(** The type parameters [TIn] and [TOut] of [newHandler] and
    [reflectHandler], with [encoding/json]'s behaviour at these types:
    [unmarshal] reads the bytes of one JSON value into a fresh [TIn],
    [marshal v escapeHTML] is the compact JSON text of [v]. *)
Variables TIn TOut : Type.
Variable unmarshal : list byte -> error + TIn.
Variable marshal : TOut -> bool -> error + list byte.

(** The user function.  [reflectHandler] calls it as
    [response, err := f(ctx, *event)] (line 183): two arguments, two
    results.  [None] is the nil function. *)
Definition HandlerFunc : Type :=
  Context -> TIn -> World -> (TOut * option error) * World.

(** [handlertrace.HandlerTrace]: two callbacks, each of which may be nil.
    The package [handlertrace] is not among the sources; [FromContext] is
    taken as given. *)
Record HandlerTrace : Type := mkTrace {
  RequestEvent : option (Context -> TIn -> World -> World);
  ResponseEvent : option (Context -> TOut -> World -> World)
}.
Variable FromContext : Context -> HandlerTrace.

(** The calls an invocation makes into code outside the adapter, in order
    (the latest first).  This records what ran; nothing reads it. *)
Inductive call : Type :=
| CallRequestEvent (ctx : Context) (event : TIn)
| CallUserFunction (ctx : Context) (event : TIn)
| CallResponseEvent (ctx : Context) (response : TOut)
| CallEncode (response : TOut)
| CallClose.

(** What an adapter's invocations act on: its own output buffer (the
    [out] captured by the closure of [reflectHandler]), the world, and the
    record of calls. *)
Record State : Type := mkState {
  out : Buffer.t;
  world : World;
  calls : list call
}.

Definition set_out (b : Buffer.t) (st : State) : State :=
  mkState b (world st) (calls st).
Definition set_world (w : World) (st : State) : State :=
  mkState (out st) w (calls st).
Definition record_call (c : call) (st : State) : State :=
  mkState (out st) (world st) (c :: calls st).

(** The [io.Reader] a [handlerFunc] returns: the adapter's own
    [*jsonOutBuffer], a [*bytes.Buffer], or any other reader, given by what
    [ioutil.ReadAll] gets from it and whether it is an [io.Closer]. *)
Inductive Reader : Type :=
| TheJsonOutBuffer
| BytesBuffer (b : Buffer.t)
| OtherReader (all : error + list byte) (closer : bool).

Definition is_closer (r : Reader) : bool :=
  match r with OtherReader _ closer => closer | _ => false end.

(** [type handlerFunc func(context.Context, []byte) (io.Reader, error)] *)
Definition handlerFunc : Type :=
  Context -> list byte -> State -> result (option Reader * option error) * State.

Record handlerOptions : Type := mkOptions {
  handlerFunc_ : option handlerFunc;
  baseContext : Context;
  jsonResponseEscapeHTML : bool;
  jsonResponseIndentPrefix : string;
  jsonResponseIndentValue : string;
  enableSIGTERM : bool;
  sigtermCallbacks : list (World -> World)
}.

(** [type Option func(h)], with [h] a pointer to the [handlerOptions]: an
    option is run for its effect on [h], here the updated record. *)
Definition Option : Type := handlerOptions -> handlerOptions.

Definition WithContext (ctx : Context) : Option :=
  fun h => mkOptions (handlerFunc_ h) ctx (jsonResponseEscapeHTML h)
             (jsonResponseIndentPrefix h) (jsonResponseIndentValue h)
             (enableSIGTERM h) (sigtermCallbacks h).

Definition WithSetEscapeHTML (escapeHTML : bool) : Option :=
  fun h => mkOptions (handlerFunc_ h) (baseContext h) escapeHTML
             (jsonResponseIndentPrefix h) (jsonResponseIndentValue h)
             (enableSIGTERM h) (sigtermCallbacks h).

Definition WithSetIndent (prefix indent : string) : Option :=
  fun h => mkOptions (handlerFunc_ h) (baseContext h) (jsonResponseEscapeHTML h)
             prefix indent (enableSIGTERM h) (sigtermCallbacks h).

Definition WithEnableSIGTERM (callbacks : list (World -> World)) : Option :=
  fun h => mkOptions (handlerFunc_ h) (baseContext h) (jsonResponseEscapeHTML h)
             (jsonResponseIndentPrefix h) (jsonResponseIndentValue h)
             true (sigtermCallbacks h ++ callbacks).

(** [func (h handlerFunc) Invoke(ctx, payload) ([]byte, error)].  A nil
    [[]byte] is [None]. *)
Definition Invoke (h : handlerFunc) (ctx : Context) (payload : list byte)
                  (st : State)
  : result (option (list byte) * option error) * State :=
  match h ctx payload st with
  | (Panicked why, st) => (Panicked why, st)
  | (Returned (_, Some err), st) => (Returned (None, Some err), st)
  | (Returned (None, None), st) =>
      (* ioutil.ReadAll on a nil reader *)
      (Panicked "nil pointer dereference", st)
  | (Returned (Some response, None), st) =>
      (* the deferred Close runs when Invoke returns *)
      let st' := if is_closer response then record_call CallClose st else st in
      match response with
      | TheJsonOutBuffer => (Returned (Some (Buffer.Bytes (out st)), None), st')
      | BytesBuffer b => (Returned (Some (Buffer.Bytes b), None), st')
      | OtherReader all _ =>
          match all with
          | inl err => (Returned (None, Some err), st')
          | inr b => (Returned (Some b, None), st')
          end
      end
  end.

Definition errorHandler (err : error) : handlerFunc :=
  fun _ _ st => (Returned (None, Some err), st).

Definition run_trace {A : Type} (cb : option (Context -> A -> World -> World))
                     (c : call) (ctx : Context) (a : A) (st : State) : State :=
  match cb with
  | Some callback => record_call c (set_world (callback ctx a (world st)) st)
  | None => st
  end.

(** [reflectHandler(f, h)].  The closure owns one [jsonOutBuffer], the
    [out] of the state, for all its invocations. *)
Definition reflectHandler (f : option HandlerFunc) (h : handlerOptions)
  : handlerFunc :=
  match f with
  | None => errorHandler (errors_New "handler is nil")
  | Some f =>
      fun ctx payload st =>
        let st := set_out (Buffer.Reset (out st)) st in
        let encoder :=
          json.SetIndent (jsonResponseIndentPrefix h) (jsonResponseIndentValue h)
            (json.SetEscapeHTML (jsonResponseEscapeHTML h) json.NewEncoder) in
        let trace := FromContext ctx in
        match json.Decode unmarshal payload with
        | inl err => (Returned (None, Some err), st)
        | inr event =>
            let st := run_trace (RequestEvent trace) (CallRequestEvent ctx event)
                                ctx event st in
            let '(response, err, w) := f ctx event (world st) in
            let st := record_call (CallUserFunction ctx event) (set_world w st) in
            match err with
            | Some err => (Returned (None, Some err), st)
            | None =>
                let st := run_trace (ResponseEvent trace)
                                    (CallResponseEvent ctx response)
                                    ctx response st in
                (* encode to JSON *)
                let st := record_call (CallEncode response) st in
                match json.Encode marshal encoder response (out st) with
                | (Some err, b) => (Returned (None, Some err), set_out b st)
                | (None, b) =>
                    let st := set_out b st in
                    (* back-compat, strip the encoder's trailing newline
                       unless WithSetIndent was used *)
                    if json.is_empty (jsonResponseIndentValue h)
                       && json.is_empty (jsonResponseIndentPrefix h)
                    then
                      match Buffer.Truncate (out st) (Buffer.Len (out st) - 1) with
                      | Some b' => (Returned (Some TheJsonOutBuffer, None), set_out b' st)
                      | None => (Panicked "bytes.Buffer: truncation out of range", st)
                      end
                    else (Returned (Some TheJsonOutBuffer, None), st)
                end
            end
        end
  end.

(** The process around the adapters: the world, and the shutdown-signal
    listeners registered so far, each with the callbacks it was given (the
    oldest listener first). *)
Record Process : Type := mkProcess {
  p_world : World;
  listeners : list (list (World -> World))
}.

(** Modelled from the spec: [enableSIGTERM] (declared outside the two
    source files) registers the listener for the shutdown signal, which
    holds the callbacks it is given; upon receiving a shutdown signal the
    listener synchronously runs all registered callbacks in registration
    order. *)
Definition enableSIGTERM_ (callbacks : list (World -> World)) (p : Process)
  : Process :=
  mkProcess (p_world p) (listeners p ++ [callbacks]).

(** Running callbacks one after the other, the first registered first. *)
Definition run_callbacks (callbacks : list (World -> World)) (w : World) : World :=
  fold_left (fun w callback => callback w) callbacks w.

(** Modelled from the spec: the shutdown signal fires; every registered
    listener runs its callbacks. *)
Definition deliver_SIGTERM (p : Process) : Process :=
  mkProcess (fold_left (fun w callbacks => run_callbacks callbacks w)
                       (listeners p) (p_world p))
            (listeners p).

Definition default_options : handlerOptions :=
  mkOptions None Background false "" "" false [].

Definition apply_options (options : list Option) (h : handlerOptions)
  : handlerOptions :=
  fold_left (fun h option => option h) options h.

(** [newHandler(handlerFunc, options...)] *)
Definition newHandler (f : option HandlerFunc) (options : list Option)
                      (p : Process) : handlerOptions * Process :=
  let h := apply_options options default_options in
  let p := if enableSIGTERM h then enableSIGTERM_ (sigtermCallbacks h) p else p in
  (mkOptions (Some (reflectHandler f h)) (baseContext h)
             (jsonResponseEscapeHTML h) (jsonResponseIndentPrefix h)
             (jsonResponseIndentValue h) (enableSIGTERM h) (sigtermCallbacks h),
   p).

(** The invoker of a constructed adapter: [h.Invoke], through the embedded
    [handlerFunc]. *)
Definition invoker (h : handlerOptions) (ctx : Context) (payload : list byte)
                   (st : State)
  : result (option (list byte) * option error) * State :=
  match handlerFunc_ h with
  | Some hf => Invoke hf ctx payload st
  | None => (Panicked "nil pointer dereference", st)
  end.

(** A fresh adapter: an empty buffer, nothing called yet. *)
Definition fresh (w : World) : State := mkState [] w [].

(** The encoder an invocation sets up (lines 169 to 171). *)
Definition encoder_of (h : handlerOptions) : json.Encoder :=
  json.SetIndent (jsonResponseIndentPrefix h) (jsonResponseIndentValue h)
    (json.SetEscapeHTML (jsonResponseEscapeHTML h) json.NewEncoder).

(** Whether [WithSetIndent] configured an indentation. *)
Definition indent_configured (h : handlerOptions) : bool :=
  negb (json.is_empty (jsonResponseIndentPrefix h))
  || negb (json.is_empty (jsonResponseIndentValue h)).

(** The world after the request-trace callback, if one is registered. *)
Definition after_request_trace (ctx : Context) (event : TIn) (w : World) : World :=
  match RequestEvent (FromContext ctx) with
  | Some callback => callback ctx event w
  | None => w
  end.

Definition after_response_trace (ctx : Context) (response : TOut) (w : World)
  : World :=
  match ResponseEvent (FromContext ctx) with
  | Some callback => callback ctx response w
  | None => w
  end.

(** The record of the request-trace call, if a callback is registered. *)
Definition request_trace_calls (ctx : Context) (event : TIn) : list call :=
  match RequestEvent (FromContext ctx) with
  | Some _ => [CallRequestEvent ctx event]
  | None => []
  end.

Definition response_trace_calls (ctx : Context) (response : TOut) : list call :=
  match ResponseEvent (FromContext ctx) with
  | Some _ => [CallResponseEvent ctx response]
  | None => []
  end.

(** The arguments of the calls of the user function among [l]. *)
Fixpoint user_calls (l : list call) : list (Context * TIn) :=
  match l with
  | [] => []
  | CallUserFunction ctx event :: l' => (ctx, event) :: user_calls l'
  | _ :: l' => user_calls l'
  end.

(** The values handed to the encoder among [l]. *)
Fixpoint encode_calls (l : list call) : list TOut :=
  match l with
  | [] => []
  | CallEncode response :: l' => response :: encode_calls l'
  | _ :: l' => encode_calls l'
  end.

(** The adapter contract in the words of the specification (section 4.1,
    steps 2 to 9), as a function from the context, the payload and the
    world to the invocation result and the world after it: decode or fail;
    run the request trace; call the user function with the context and
    the input; pass its error on; run the response trace; encode with the
    configured flags or fail; without indentation the result is the
    encoded text with no trailing newline, with indentation it is the
    indented text as the encoder leaves it. *)
Definition adapter_contract (f : HandlerFunc) (h : handlerOptions)
    (ctx : Context) (payload : list byte) (w : World)
  : (option (list byte) * option error) * World :=
  match json.Decode unmarshal payload with
  | inl err => ((None, Some err), w)
  | inr event =>
      let w := after_request_trace ctx event w in
      match f ctx event w with
      | ((_, Some err), w) => ((None, Some err), w)
      | ((response, None), w) =>
          let w := after_response_trace ctx response w in
          match marshal response (jsonResponseEscapeHTML h) with
          | inl err => ((None, Some err), w)
          | inr text =>
              if indent_configured h then
                match json.appendIndent (text ++ [newline])
                        (jsonResponseIndentPrefix h) (jsonResponseIndentValue h) with
                | (_, Some err) => ((None, Some err), w)
                | (indented, None) => ((Some indented, None), w)
                end
              else ((Some text, None), w)
          end
      end
  end.

End Adapter.

Arguments HandlerTrace : clear implicits.
Arguments mkTrace {Context World TIn TOut} RequestEvent ResponseEvent.
Arguments RequestEvent {Context World TIn TOut} h.
Arguments ResponseEvent {Context World TIn TOut} h.
Arguments CallRequestEvent {Context TIn TOut} ctx event.
Arguments CallUserFunction {Context TIn TOut} ctx event.
Arguments CallResponseEvent {Context TIn TOut} ctx response.
Arguments CallEncode {Context TIn TOut} response.
Arguments CallClose {Context TIn TOut}.
Arguments mkState {Context World TIn TOut} out world calls.
Arguments out {Context World TIn TOut} s.
Arguments world {Context World TIn TOut} s.
Arguments calls {Context World TIn TOut} s.
Arguments fresh {Context World TIn TOut} w.
Arguments mkOptions {Context World TIn TOut}.
Arguments handlerFunc_ {Context World TIn TOut} h.
Arguments baseContext {Context World TIn TOut} h.
Arguments jsonResponseEscapeHTML {Context World TIn TOut} h.
Arguments jsonResponseIndentPrefix {Context World TIn TOut} h.
Arguments jsonResponseIndentValue {Context World TIn TOut} h.
Arguments enableSIGTERM {Context World TIn TOut} h.
Arguments sigtermCallbacks {Context World TIn TOut} h.
Arguments WithContext {Context World TIn TOut} ctx.
Arguments WithSetEscapeHTML {Context World TIn TOut} escapeHTML.
Arguments WithSetIndent {Context World TIn TOut} prefix indent.
Arguments WithEnableSIGTERM {Context World TIn TOut} callbacks.
Arguments Invoke {Context World TIn TOut} h ctx payload st.
Arguments errorHandler {Context World TIn TOut} err.
Arguments reflectHandler {Context World TIn TOut} unmarshal marshal FromContext f h.
Arguments encoder_of {Context World TIn TOut} h.
Arguments indent_configured {Context World TIn TOut} h.
Arguments after_request_trace {Context World TIn TOut} FromContext ctx event w.
Arguments after_response_trace {Context World TIn TOut} FromContext ctx response w.
Arguments request_trace_calls {Context World TIn TOut} FromContext ctx event.
Arguments response_trace_calls {Context World TIn TOut} FromContext ctx response.
Arguments user_calls {Context TIn TOut} l.
Arguments encode_calls {Context TIn TOut} l.
Arguments adapter_contract {Context World TIn TOut} unmarshal marshal FromContext f h ctx payload w.
Arguments mkProcess {World} p_world listeners.
Arguments p_world {World} p.
Arguments listeners {World} p.
Arguments enableSIGTERM_ {World} callbacks p.
Arguments run_callbacks {World} callbacks w.
Arguments deliver_SIGTERM {World} p.
Arguments default_options {Context} Background {World TIn TOut}.
Arguments apply_options {Context World TIn TOut} options h.
Arguments newHandler {Context} Background {World TIn TOut} unmarshal marshal FromContext f options p.
Arguments invoker {Context World TIn TOut} h ctx payload st.

(* ================================================================== *)
(** * [lambda/entry.go] *)

Section Entry.

(** The constructed handler, passed through to the loop function. *)
Variable Handler : Type.

(** A loop function returns an error (or nil) if it returns at all;
    [None] is a call that never returns. *)
Definition loopFn : Type := string -> Handler -> option (option error).

Record startFunction : Type := mkStartFunction {
  env : string;
  f : loopFn
}.

(** [startRuntimeAPILoop] is declared outside the two source files. *)
Variable startRuntimeAPILoop : loopFn.

Definition runtimeAPIStartFunction : startFunction :=
  mkStartFunction "AWS_LAMBDA_RUNTIME_API" startRuntimeAPILoop.

Definition startFunctions : list startFunction := [runtimeAPIStartFunction].

(** The arguments of the two calls of [logFatalf]. *)
Inductive fatal_arg : Type :=
| ErrorArg (err : option error)      (* "%v" of an error *)
| KeysArg (keys : list string).      (* "%s" of a []string *)

(** What [start] does that can be seen from outside. *)
Inductive start_event : Type :=
| HandedControl (env value : string)
| Fatalf (format : string) (arg : fatal_arg).

(** How a call of [start] ends: it returns (only when the fatal hook
    returns, as a test's hook does), the fatal hook ends the process (as
    [log.Fatalf] does), or a loop function keeps control for good. *)
Inductive start_end : Type := StartReturned | ProcessExited | LoopRunning.

(** The loop of [start] over the start functions left, [keys] being the
    names checked so far.  [getenv] is [os.Getenv]; [fatal_returns] tells
    whether the function installed in [logFatalf] returns to its caller. *)
Fixpoint start_from (getenv : string -> string) (fatal_returns : bool)
    (handler : Handler) (fns : list startFunction) (keys : list string)
  : list start_event * start_end :=
  match fns with
  | [] =>
      ([Fatalf "expected AWS Lambda environment variables %s are not defined"
               (KeysArg keys)],
       if fatal_returns then StartReturned else ProcessExited)
  | start :: fns' =>
      let config := getenv (env start) in
      if negb (json.is_empty config) then
        match f start config handler with
        | None => ([HandedControl (env start) config], LoopRunning)
        | Some err =>
            if fatal_returns then
              let (events, e) :=
                start_from getenv fatal_returns handler fns' (keys ++ [env start]) in
              (HandedControl (env start) config :: Fatalf "%v" (ErrorArg err) :: events, e)
            else
              ([HandedControl (env start) config; Fatalf "%v" (ErrorArg err)],
               ProcessExited)
        end
      else start_from getenv fatal_returns handler fns' (keys ++ [env start])
  end.

Definition start_with (getenv : string -> string) (fatal_returns : bool)
    (fns : list startFunction) (handler : Handler)
  : list start_event * start_end :=
  start_from getenv fatal_returns handler fns [].

(** [start(handler)] *)
Definition start (getenv : string -> string) (fatal_returns : bool)
                 (handler : Handler) : list start_event * start_end :=
  start_with getenv fatal_returns startFunctions handler.

(** [fmt]'s rendering of a [[]string] under the verb [%s]: the elements
    separated by spaces, in square brackets. *)
Definition Sprint_strings (l : list string) : string :=
  "[" ++ String.concat " " l ++ "]".

(** The text [logFatalf] is given for the missing-variables report. *)
Definition missing_variables_message (keys : list string) : string :=
  "expected AWS Lambda environment variables " ++ Sprint_strings keys
    ++ " are not defined".

(** The formatted message of a call of [logFatalf], where the format is one
    of the two that [start] uses and the error's text is known. *)
Definition fatal_message (format : string) (arg : fatal_arg) : option string :=
  match arg with
  | KeysArg keys =>
      if String.eqb format "expected AWS Lambda environment variables %s are not defined"
      then Some (missing_variables_message keys) else None
  | ErrorArg None => if String.eqb format "%v" then Some "<nil>" else None
  | ErrorArg (Some e) => if String.eqb format "%v" then Error e else None
  end.

End Entry.

Arguments mkStartFunction {Handler} env f.
Arguments env {Handler} s.
Arguments f {Handler} s.
Arguments runtimeAPIStartFunction {Handler} startRuntimeAPILoop.
Arguments startFunctions {Handler} startRuntimeAPILoop.
Arguments start_from {Handler} getenv fatal_returns handler fns keys.
Arguments start_with {Handler} getenv fatal_returns fns handler.
Arguments start {Handler} startRuntimeAPILoop getenv fatal_returns handler.

(* ------------------------------------------------------------------ *)
(** ** The shapes of user function *)












End lambda.

(* ================================================================== *)
(** * A concrete adapter

    The handler of the README, for the worked examples: requests are kept
    as raw JSON ([json.RawMessage]), responses are the README's
    [Response] structure with its one string field. *)

Module example.

(** [type Response struct { Message string }] *)
Record Response : Type := mkResponse { Message : list byte }.

(** [e.marshal] at the type [Response]: the field name, a colon, the
    string, in braces. *)
Definition marshal_Response (v : Response) (escapeHTML : bool)
  : error + list byte :=
  inr (js "{'Message':" ++ json.appendString (Message v) escapeHTML ++ js "}").

(** A context either carries the two trace callbacks or none. *)
Definition Context : Type := bool.

(** The world is a log of what user code did, the latest entry first. *)
Definition World : Type := list string.

Definition FromContext {TOut : Type} (ctx : Context)
  : lambda.HandlerTrace Context World (list byte) TOut :=
  if ctx
  then lambda.mkTrace (Some (fun _ _ w => "request traced" :: w))
                      (Some (fun _ _ w => "response traced" :: w))
  else lambda.mkTrace None None.

Definition Background : Context := false.

Definition State (TOut : Type) : Type :=
  lambda.State Context World (list byte) TOut.

(** A new adapter, and one whose buffer holds an earlier response. *)
Definition fresh {TOut : Type} : State TOut := lambda.fresh [].
Definition used {TOut : Type} : State TOut := lambda.mkState (js "old") [] [].

(** The options of an adapter made with [WithSetIndent] for a prefix and an
    indent, and of one made with no option. *)
Definition indented (prefix indent : string)
  : lambda.handlerOptions Context World (list byte) Response :=
  lambda.apply_options [lambda.WithSetIndent prefix indent]
                       (lambda.default_options Background).

Definition defaults {TOut : Type}
  : lambda.handlerOptions Context World (list byte) TOut :=
  lambda.apply_options [] (lambda.default_options Background).

(** A process with no listener registered. *)
Definition process : lambda.Process World := lambda.mkProcess [] [].

(** [func hello(ctx, event) (Response, error)] answering with a fixed
    message. *)
Definition hello (message : string)
  : lambda.HandlerFunc Context World (list byte) Response :=
  fun _ _ w => ((mkResponse (bytes_of_string message), None), "hello ran" :: w).

(** A handler that fails. *)
Definition refuse : lambda.HandlerFunc Context World (list byte) Response :=
  fun _ _ w => ((mkResponse [], Some (UserError 7 "refused")), "refuse ran" :: w).


(** A handler that returns the string of claim C8. *)
Definition html : lambda.HandlerFunc Context World (list byte) (list byte) :=
  fun _ _ w => ((bytes_of_string "<html>", None), w).

End example.

(* ================================================================== *)
(** * One invocation after the other *)

Module serving.

Import lambda.

Section Serving.

Context {Context World TIn TOut : Type}.
Variable unmarshal : list byte -> error + TIn.
Variable marshal : TOut -> bool -> error + list byte.
Variable FromContext : Context -> HandlerTrace Context World TIn TOut.

(** [type Handler interface { Invoke(ctx, payload) ([]byte, error) }],
    as the method. *)
Definition Handler : Type :=
  Context -> list byte -> State Context World TIn TOut ->
  result (option (list byte) * option error) * State Context World TIn TOut.



End Serving.

End serving.

(* ================================================================== *)
(** * The four options, as data *)

Module options.

Import lambda.

Section Options.

Context {Context World TIn TOut : Type}.

(** A call of one of the four option constructors of [handler.go]. *)
Inductive option_call : Type :=
| CallWithContext (ctx : Context)
| CallWithSetEscapeHTML (escapeHTML : bool)
| CallWithSetIndent (prefix indent : string)
| CallWithEnableSIGTERM (callbacks : list (World -> World)).

(** The option the call returns. *)
Definition option_of (c : option_call) : Option Context World TIn TOut :=
  match c with
  | CallWithContext ctx => WithContext ctx
  | CallWithSetEscapeHTML escapeHTML => WithSetEscapeHTML escapeHTML
  | CallWithSetIndent prefix indent => WithSetIndent prefix indent
  | CallWithEnableSIGTERM callbacks => WithEnableSIGTERM callbacks
  end.

(** The options that configure the JSON encoder. *)
Definition sets_encoding (c : option_call) : bool :=
  match c with
  | CallWithSetEscapeHTML _ | CallWithSetIndent _ _ => true
  | _ => false
  end.

(** The options that set the field [c] sets: none for [WithEnableSIGTERM],
    which adds to its field. *)
Definition same_field (c c' : option_call) : bool :=
  match c, c' with
  | CallWithContext _, CallWithContext _ => true
  | CallWithSetEscapeHTML _, CallWithSetEscapeHTML _ => true
  | CallWithSetIndent _ _, CallWithSetIndent _ _ => true
  | _, _ => false
  end.

(** Two option records with the same encoder settings. *)
Definition same_encoding (h h' : handlerOptions Context World TIn TOut) : Prop :=
  jsonResponseEscapeHTML h' = jsonResponseEscapeHTML h
  /\ jsonResponseIndentPrefix h' = jsonResponseIndentPrefix h
  /\ jsonResponseIndentValue h' = jsonResponseIndentValue h.

End Options.

Arguments option_call : clear implicits.

End options.

(* ================================================================== *)
(** * Strings as sequences of runes *)

Module codec.

Import json.

(** A sequence of bytes proper: every element is between 0 and 255. *)
Definition is_bytes (s : list byte) : Prop := Forall (fun b => 0 <= b < 256) s.

(** [pre] is the UTF-8 encoding of the rune [c], of two to four bytes:
    [DecodeRune] reads [c] from it, whatever follows, and [EncodeRune]
    writes it. *)
Definition encoded_rune (c : Z) (pre : list byte) : Prop :=
  (2 <= List.length pre)%nat
  /\ (forall t, DecodeRune (pre ++ t) = (c, List.length pre))
  /\ EncodeRune c = pre
  /\ 128 <= c
  /\ Forall (fun b => 128 <= b) pre.





(** The bytes that HTML gives a meaning to and [appendString] writes as
    escapes when asked to. *)
Definition is_html (c : byte) : bool :=
  (c =? ch "<") || (c =? ch ">") || (c =? ch "&").

End codec.

(* ================================================================== *)
(** * Inside a top-level literal *)

Module indent.

Import json.

(** The scanner is inside a string, a number or a literal that is the
    top-level value, or right after it: no array or object is open and no
    value is about to start. *)
Definition inside_scalar (s : scanner) : Prop :=
  parseState s = []
  /\ step s <> S_BeginValue /\ step s <> S_BeginValueOrEmpty
  /\ step s <> S_BeginString /\ step s <> S_BeginStringOrEmpty.

End indent.

(* ================================================================== *)
(** * What the scanner has read so far

    To say what the scanner accepts: the bytes read so far are the open
    arrays and objects, each up to the item being read, and that item. *)

Module partial.

Import json.















End partial.

(* ================================================================== *)
(** * The model of [encoding/json] on sample inputs *)

Example readValue_object_then_text :
  json.readValue (js "{'a':[1,2,{'b':null}],'c':true}  x") = (31%nat, None).
Proof. reflexivity. Qed.

Example readValue_string_then_text :
  json.readValue (js "  'abc'xyz") = (7%nat, None).
Proof. reflexivity. Qed.

Example readValue_number_then_letters :
  json.readValue (js "123abc") = (3%nat, None).
Proof. reflexivity. Qed.

Example readValue_number_with_exponent :
  json.readValue (js "-0.5e+10,") = (8%nat, None).
Proof. reflexivity. Qed.

Example readValue_leading_zero :
  json.readValue (js "01") = (1%nat, None).
Proof. reflexivity. Qed.

Example readValue_empty : json.readValue [] = (0%nat, Some EOF).
Proof. reflexivity. Qed.

Example readValue_open_array :
  json.readValue (js "[1,") = (0%nat, Some ErrUnexpectedEOF).
Proof. reflexivity. Qed.

Example readValue_trailing_comma :
  json.readValue (js "[1,]")
  = (0%nat, Some (SyntaxError 93 "looking for beginning of value" 4)).
Proof. reflexivity. Qed.

Example readValue_missing_colon :
  json.readValue (js "{'a' 1}")
  = (0%nat, Some (SyntaxError 49 "after object key" 6)).
Proof. reflexivity. Qed.

Example appendIndent_object :
  json.appendIndent (js "{'Message':'x','b':[1,{}],'c':[]}" ++ [newline]) "" " "
  = ([123; 10;
      32; 34; 77; 101; 115; 115; 97; 103; 101; 34; 58; 32; 34; 120; 34; 44; 10;
      32; 34; 98; 34; 58; 32; 91; 10;
      32; 32; 49; 44; 10;
      32; 32; 123; 125; 10;
      32; 93; 44; 10;
      32; 34; 99; 34; 58; 32; 91; 93; 10;
      125; 10], None).
Proof. reflexivity. Qed.

Example appendString_html_escaped :
  json.appendString (bytes_of_string "<a>&") true
  = dquote :: bytes_of_string "\u003ca\u003e\u0026" ++ [dquote].
Proof. reflexivity. Qed.

Example appendString_html_plain :
  json.appendString (bytes_of_string "<a>&") false
  = dquote :: bytes_of_string "<a>&" ++ [dquote].
Proof. reflexivity. Qed.

Example appendString_control_and_invalid :
  json.appendString [9; 1; 34; 255; 195; 169; 226; 128; 168] false
  = [dquote] ++ bytes_of_string "\t\u0001\" ++ [dquote]
      ++ bytes_of_string "\ufffd" ++ [195; 169] ++ bytes_of_string "\u2028"
      ++ [dquote].
Proof. reflexivity. Qed.

Example unmarshal_string_escapes :
  json.unmarshal_string (js "  'a\u00e9\n\ud83d\ude00\ud800'")
  = inr [97; 195; 169; 10; 240; 159; 152; 128; 239; 191; 189].
Proof. reflexivity. Qed.

Example unmarshal_string_number :
  json.unmarshal_string (js "12")
  = inl (UnmarshalTypeError "number into Go value of type string").
Proof. reflexivity. Qed.

(* ================================================================== *)
(** * Properties of the scanner *)

Section ScannerProperties.

Import json.

Ltac split_ifs :=
  repeat match goal with
         | |- context [if ?b then _ else _] => destruct b eqn:?
         | |- context [match ?l with [] => _ | _ :: _ => _ end] => destruct l eqn:?
         | |- context [match ?p with parseObjectKey => _ | _ => _ end] => destruct p eqn:?
         end.

Lemma scanner_ok_new : scanner_ok newScanner.
Proof. unfold scanner_ok; cbn; intuition congruence. Qed.

Lemma scanner_ok_bump (s : scanner) : scanner_ok s -> scanner_ok (bump s).
Proof. unfold scanner_ok, bump; cbn; tauto. Qed.

Lemma ok_scan_error (s : scanner) (c : byte) (context : string) :
  scanner_ok (snd (scan_error s c context)).
Proof. unfold scanner_ok, scan_error; cbn; intuition congruence. Qed.

Lemma ok_quiet (s : scanner) :
  endTop s = false -> err s = None -> step s <> S_Error -> scanner_ok s.
Proof. unfold scanner_ok; intuition congruence. Qed.

Lemma ok_set_step (s : scanner) (f : stepFn) :
  endTop s = false -> err s = None -> f <> S_Error -> scanner_ok (set_step f s).
Proof. intros; apply ok_quiet; cbn; assumption. Qed.

Lemma ok_push (s : scanner) (c : byte) (p : parse_state) (code : scan_code) :
  endTop s = false -> err s = None -> step s <> S_Error ->
  scanner_ok (snd (pushParseState s c p code)).
Proof.
  intros. unfold pushParseState.
  destruct (_ <=? _); [apply ok_quiet; cbn; assumption | apply ok_scan_error].
Qed.

Lemma ok_pop (s : scanner) :
  endTop s = false -> err s = None -> scanner_ok (popParseState s).
Proof.
  intros. unfold popParseState, scanner_ok.
  destruct (tl (parseState s)); cbn; repeat split; intros;
    try congruence; left; reflexivity.
Qed.

Lemma ok_stateEndTop (s : scanner) (c : byte) :
  endTop s = true -> step s = S_EndTop -> err s = None ->
  scanner_ok (snd (stateEndTop s c)).
Proof.
  intros. unfold stateEndTop. destruct (negb (isSpace c)); cbn [snd].
  - apply ok_scan_error.
  - unfold scanner_ok; repeat split; intros; try congruence; left; assumption.
Qed.

Lemma ok_stateEndValue (s : scanner) (c : byte) :
  endTop s = false -> err s = None -> scanner_ok (snd (stateEndValue s c)).
Proof.
  intros Ht He. unfold stateEndValue.
  destruct (parseState s) as [| ps rest].
  - apply ok_stateEndTop; cbn; auto.
  - destruct (isSpace c); [apply ok_set_step; auto; discriminate |].
    destruct ps; split_ifs; cbn [snd];
      try apply ok_scan_error; try apply ok_pop; auto;
      apply ok_quiet; cbn; auto; discriminate.
Qed.

Lemma scan_step_ok (s : scanner) (c : byte) :
  scanner_ok s -> scanner_ok (snd (scan_step s c)).
Proof.
  intros Hok.
  assert (Hq : step s <> S_EndTop -> step s <> S_Error ->
               endTop s = false /\ err s = None).
  { destruct Hok as (H1 & H2 & H3). intros.
    split.
    - destruct (endTop s); [destruct H1; auto; contradiction | reflexivity].
    - destruct (err s); [exfalso; apply H0, H3; discriminate | reflexivity]. }
  unfold scan_step.
  destruct (step s) eqn:Hs;
    try (destruct Hq as [Ht He]; [discriminate | discriminate |]).
  all: try (unfold stateBeginValueOrEmpty, stateBeginStringOrEmpty,
              stateBeginValue, stateBeginString,
              stateInString, stateInStringEsc, stateInStringEscHex, stateNeg,
              state1, state0, stateDot, stateDot0, stateE, stateESign, stateE0,
              stateLetter;
            split_ifs; cbn [snd];
            first [ assumption
                  | apply ok_scan_error
                  | apply ok_stateEndValue; cbn; assumption
                  | apply ok_push; cbn; [assumption | assumption | discriminate]
                  | apply ok_set_step; [assumption | assumption | discriminate] ]).
  - (* stateEndTop *)
    unfold stateEndTop. destruct (negb (isSpace c)); cbn [snd];
      [apply ok_scan_error | assumption].
Qed.


(** Decide the tests on the known byte [c]. *)
Ltac decide_test t :=
  let v := eval vm_compute in t in
  match v with
  | true => change t with true
  | false => change t with false
  end.

Ltac eval_tests c :=
  repeat match goal with
         | |- context [isSpace c] => decide_test (isSpace c)
         | |- context [isDigit c] => decide_test (isDigit c)
         | |- context [isDigit19 c] => decide_test (isDigit19 c)
         | |- context [isHex c] => decide_test (isHex c)
         | |- context [c =? ?b] => decide_test (c =? b)
         | |- context [c <? ?b] => decide_test (c <? b)
         end;
  cbn [orb andb negb].

Ltac unfold_state :=
  unfold stateBeginValueOrEmpty, stateBeginStringOrEmpty;
  unfold stateBeginValue, stateBeginString;
  unfold stateInString, stateInStringEsc, stateInStringEscHex, stateNeg,
         state1, stateDot0, stateE, stateE0, stateLetter, stateError;
  unfold state0, stateESign, stateDot.

(** A scanner that is well formed and neither in [stateEndTop] nor in
    [stateError] has not ended its top-level value and holds no error. *)
Lemma ok_quiet_inv (s : scanner) :
  scanner_ok s -> step s <> S_EndTop -> step s <> S_Error ->
  endTop s = false /\ err s = None.
Proof.
  intros (H1 & H2 & H3) Ha Hb. split.
  - destruct (endTop s); [destruct H1; auto; contradiction | reflexivity].
  - destruct (err s); [exfalso; apply Hb, H3; discriminate | reflexivity].
Qed.

Lemma stateEndValue_newline (s : scanner) :
  endTop s = false ->
  let r := stateEndValue s newline in
  (fst r = scanSkipSpace
   /\ endTop (snd r) = false
   /\ endTop (snd (scan_step (snd r) (ch " "))) = false)
  \/ fst r = scanEnd.
Proof.
  intros Ht. unfold stateEndValue.
  destruct (parseState s) as [| p ps] eqn:Hps.
  - right. unfold stateEndTop. destruct (negb _); reflexivity.
  - left. eval_tests newline. cbn [fst snd]. repeat split; [exact Ht |].
    unfold scan_step; cbn [step set_step]. unfold stateEndValue.
    cbn [parseState set_step]. rewrite Hps. eval_tests (ch " "). exact Ht.
Qed.

Lemma scan_step_newline (s : scanner) :
  scanner_ok s ->
  (scan_step s newline = (scanSkipSpace, s)
   /\ scan_step s (ch " ") = (scanSkipSpace, s) /\ endTop s = false)
  \/ (scan_step s newline = stateEndValue s newline /\ endTop s = false)
  \/ fst (scan_step s newline) = scanEnd
  \/ (fst (scan_step s newline) = scanError /\ err (snd (scan_step s newline)) <> None).
Proof.
  intros Hok. pose proof (ok_quiet_inv s Hok) as Hq.
  unfold scan_step.
  destruct (step s) eqn:Hs;
    try (destruct Hq as [Ht He]; [discriminate | discriminate |]).
  all: try (left; split; [| split; [| exact Ht]];
            unfold_state; [eval_tests newline | eval_tests (ch " ")]; reflexivity).
  all: try (right; left; split; [| exact Ht];
            unfold_state; eval_tests newline; reflexivity).
  all: try (right; right; right;
            unfold_state; eval_tests newline; split; [reflexivity | discriminate]).
  - (* stateEndTop *)
    right; right; left. unfold stateEndTop. destruct (negb _); reflexivity.
  - (* stateError *)
    right; right; right. split; [reflexivity |]. apply Hok. exact Hs.
Qed.

(** A newline met by the scanner is skipped, ends the top-level value, or
    is an error; where it is skipped, so is a space after it, and the
    top-level value has not ended. *)
Lemma newline_step (s : scanner) :
  scanner_ok s ->
  let r := scan_step s newline in
  (fst r = scanSkipSpace
   /\ endTop (snd r) = false
   /\ endTop (snd (scan_step (snd r) (ch " "))) = false)
  \/ fst r = scanEnd
  \/ (fst r = scanError /\ err (snd r) <> None).
Proof.
  intros Hok. cbv zeta.
  destruct (scan_step_newline s Hok) as [(E1 & E2 & Ht) | [(E & Ht) | [H | H]]].
  - left. rewrite E1. cbn [fst snd]. rewrite E2. auto.
  - rewrite E. destruct (stateEndValue_newline s Ht) as [H | H]; auto.
  - auto.
  - auto.
Qed.


Lemma stateEndValue_error (s : scanner) (c : byte) :
  fst (stateEndValue s c) = scanError -> step (snd (stateEndValue s c)) = S_Error.
Proof.
  unfold stateEndValue, stateEndTop.
  destruct (parseState s) as [| p ps]; [destruct (negb _); discriminate |].
  destruct (isSpace c); [discriminate |].
  destruct p; split_ifs; cbn [fst snd scan_error]; try discriminate; reflexivity.
Qed.

Lemma pushParseState_error (s : scanner) (c : byte) (p : parse_state)
    (code : scan_code) :
  code <> scanError ->
  fst (pushParseState s c p code) = scanError ->
  step (snd (pushParseState s c p code)) = S_Error.
Proof.
  unfold pushParseState. destruct (_ <=? _); cbn [fst snd scan_error];
    [congruence | reflexivity].
Qed.

(** A step reports an error only by entering [stateError], or by being in
    it already. *)
Lemma scanError_step (s : scanner) (c : byte) :
  fst (scan_step s c) = scanError -> step (snd (scan_step s c)) = S_Error.
Proof.
  unfold scan_step.
  destruct (step s) eqn:Hs; unfold_state; split_ifs;
    cbn [fst snd scan_error set_step step];
    try discriminate; try reflexivity;
    try apply stateEndValue_error;
    try (apply pushParseState_error; discriminate).
  - unfold stateEndTop. destruct (negb _); discriminate.
  - intros _. exact Hs.
Qed.

Lemma scanError_sets_err (s : scanner) (c : byte) :
  scanner_ok s -> fst (scan_step s c) = scanError ->
  err (snd (scan_step s c)) <> None.
Proof.
  intros Hok H. apply (scan_step_ok s c Hok). now apply scanError_step.
Qed.

Lemma eof_of_error (s : scanner) : err s <> None -> fst (eof s) = scanError.
Proof. unfold eof. destruct (err s); [reflexivity | congruence]. Qed.

(** Indenting a text that ends with a newline keeps the newline at the
    end, when the indentation succeeds. *)
Lemma appendIndent_loop_newline (prefix indent : string) (text : list byte) :
  forall (scan : scanner) (needIndent : bool) (depth : Z) (dst : list byte),
    scanner_ok scan ->
    fst (eof (snd (appendIndent_loop prefix indent (text ++ [newline])
                     scan needIndent depth dst))) <> scanError ->
    exists body,
      fst (appendIndent_loop prefix indent (text ++ [newline])
             scan needIndent depth dst) = body ++ [newline].
Proof.
  induction text as [| c text IH]; intros scan needIndent depth dst Hok Heof.
  - cbn [app appendIndent_loop] in *.
    pose proof (scanner_ok_bump scan Hok) as Hok'.
    pose proof (scanError_sets_err (bump scan) newline Hok') as Herr.
    destruct (newline_step (bump scan) Hok') as [(Hc & Ht & Ht') | [Hc | (Hc & He)]];
      destruct (scan_step (bump scan) newline) as [v scan1];
      cbn [fst snd] in *; subst v.
    + exfalso. apply Heof. cbn [snd]. unfold eof.
      destruct (err scan1); [reflexivity |]. rewrite Ht, Ht'.
      destruct (err _); reflexivity.
    + cbn [is_end_code negb andb] in *. rewrite andb_true_r in *.
      destruct needIndent; eval_tests newline; cbn [fst]; eexists; reflexivity.
    + exfalso. apply Heof. cbn [snd]. now apply eof_of_error.
  - cbn [app appendIndent_loop] in *.
    pose proof (scanner_ok_bump scan Hok) as Hok'.
    pose proof (scan_step_ok (bump scan) c Hok') as Hok1.
    pose proof (scanError_sets_err (bump scan) c Hok') as Herr.
    destruct (scan_step (bump scan) c) as [v scan1]; cbn [fst snd] in *.
    destruct v;
      try (exfalso; apply Heof; cbn [snd]; apply eof_of_error; auto; fail);
      cbn [is_end_code negb andb] in *; rewrite ?andb_true_r, ?andb_false_r in *;
      try (destruct needIndent);
      repeat match goal with
             | |- context [if ?b then _ else _] => destruct b eqn:?
             end;
      apply IH; assumption.
Qed.


Lemma eof_error_has_err (s : scanner) :
  fst (eof s) = scanError -> err (snd (eof s)) <> None.
Proof.
  unfold eof. destruct (err s) eqn:E.
  { cbn [fst snd]. intros _. rewrite E. discriminate. }
  destruct (endTop s); [discriminate |].
  destruct (endTop _); [discriminate |].
  destruct (err (snd _)) eqn:E'; cbn [fst snd err]; intros _.
  - rewrite E'. discriminate.
  - discriminate.
Qed.

Lemma appendIndent_keeps_newline (prefix indent : string) (text b : list byte) :
  appendIndent (text ++ [newline]) prefix indent = (b, None) ->
  exists body, b = body ++ [newline].
Proof.
  unfold appendIndent. intros H.
  pose proof (appendIndent_loop_newline prefix indent text newScanner false 0 []
                scanner_ok_new) as Hl.
  destruct (appendIndent_loop prefix indent (text ++ [newline]) newScanner false 0 [])
    as [dst scan]; cbn [fst snd] in Hl.
  pose proof (eof_error_has_err scan) as He.
  destruct (eof scan) as [code scan']; cbn [fst snd] in *.
  destruct code;
    try (injection H as <-; apply Hl; discriminate).
  injection H as _ H. exfalso. now apply He.
Qed.


(* ------------------------------------------------------------------ *)
(** ** Where the decoder stops *)

Lemma isDigit19_isDigit (c : byte) : isDigit19 c = true -> isDigit c = true.
Proof.
  unfold isDigit19, isDigit. change (ch "1") with 49. change (ch "0") with 48.
  change (ch "9") with 57. intros H. apply andb_true_iff in H as [H1 H2].
  apply andb_true_iff. split; [apply Z.leb_le in H1; apply Z.leb_le; lia | exact H2].
Qed.

Lemma zero_isDigit (c : byte) : (c =? ch "0") = true -> isDigit c = true.
Proof.
  intros H. apply Z.eqb_eq in H. subst c. reflexivity.
Qed.

Lemma stateEndValue_not_number (s : scanner) (c : byte) :
  number_state (step (snd (stateEndValue s c))) = false.
Proof.
  unfold stateEndValue, stateEndTop.
  destruct (parseState s) as [| p ps]; [destruct (negb _); reflexivity |].
  destruct (isSpace c); [reflexivity |].
  unfold popParseState. destruct p; split_ifs; reflexivity.
Qed.

Lemma pushParseState_not_number (s : scanner) (c : byte) (p : parse_state)
    (code : scan_code) :
  number_state (step s) = false ->
  number_state (step (snd (pushParseState s c p code))) = false.
Proof.
  intros H. unfold pushParseState. destruct (_ <=? _); [exact H | reflexivity].
Qed.

Lemma stateEndTop_not_number (s : scanner) (c : byte) :
  number_state (step s) = false ->
  number_state (step (snd (stateEndTop s c))) = false.
Proof.
  intros H. unfold stateEndTop. destruct (negb _); [reflexivity | exact H].
Qed.

(** The scanner stands in a number state only after a digit. *)
Lemma number_state_after_digit (s : scanner) (c : byte) :
  number_state (step (snd (scan_step s c))) = true -> isDigit c = true.
Proof.
  unfold scan_step.
  destruct (step s) eqn:Hs; unfold_state; split_ifs;
    cbn [snd scan_error set_step step number_state];
    rewrite ?stateEndValue_not_number, ?Hs;
    try (rewrite pushParseState_not_number by (cbn; reflexivity));
    try (rewrite stateEndTop_not_number by (rewrite Hs; reflexivity));
    cbn [number_state];
    intros H; try discriminate H;
    try assumption;
    try (apply isDigit19_isDigit; assumption);
    try (apply zero_isDigit; assumption).
Qed.

Lemma stateEndValue_end (s : scanner) :
  fst (stateEndValue s (ch " ")) = scanEnd ->
  forall c, fst (stateEndValue (bump s) c) = scanEnd.
Proof.
  unfold stateEndValue. cbn [parseState bump].
  destruct (parseState s) as [| p ps].
  - intros _ c. unfold stateEndTop. destruct (negb _); reflexivity.
  - eval_tests (ch " "). discriminate.
Qed.

Lemma continues_number_false (c : byte) :
  continues_number c = false ->
  isDigit c = false /\ (c =? ch ".") = false
  /\ (c =? ch "e") || (c =? ch "E") = false.
Proof.
  unfold continues_number. intros H.
  repeat (apply orb_false_iff in H; destruct H as [H ?]).
  repeat split; try assumption. apply orb_false_iff. now split.
Qed.

(** Where a space would end the top-level value, so does any byte that
    does not continue a number the scanner stands in. *)
Lemma ends_on_any_byte (s : scanner) (c : byte) :
  fst (scan_step s (ch " ")) = scanEnd ->
  (number_state (step s) = true -> continues_number c = false) ->
  fst (scan_step (bump s) c) = scanEnd.
Proof.
  unfold scan_step. cbn [step bump].
  destruct (step s) eqn:Hs; unfold_state; eval_tests (ch " ");
    cbn [fst number_state]; try discriminate;
    intros Hend Hnum;
    try (destruct (continues_number_false c (Hnum eq_refl)) as (Hd & Hdot & He);
         rewrite ?Hd, ?Hdot, ?He);
    try (apply stateEndValue_end; exact Hend).
  - (* stateEndTop *) unfold stateEndTop. destruct (negb _); reflexivity.
Qed.

Lemma ends_with_digit_snoc (v : list byte) (c : byte) :
  ends_with_digit (v ++ [c]) = isDigit c.
Proof.
  unfold ends_with_digit. rewrite last_last.
  destruct v; reflexivity.
Qed.

(** The scan of a value that ends exactly where the bytes [a] end gives
    the same result when bytes that do not continue the value follow. *)
Lemma readValue_scan_extend (g buf buf' : list byte) :
  forall (a v : list byte) (s : scanner),
    (number_state (step s) = true -> ends_with_digit v = true) ->
    readValue_scan buf s a (List.length v) = (List.length (v ++ a), None) ->
    delimited (v ++ a) g = true ->
    readValue_scan buf' s (a ++ g) (List.length v) = (List.length (v ++ a), None).
Proof.
  induction a as [| c a IH]; intros v s Hnum Hscan Hdel.
  - rewrite app_nil_r in *. cbn [app readValue_scan] in *.
    assert (Hend : fst (scan_step s (ch " ")) = scanEnd).
    { destruct (fst (scan_step s (ch " "))); try reflexivity;
        destruct (nonSpace buf); discriminate. }
    destruct g as [| c g].
    + cbn [readValue_scan]. rewrite Hend. reflexivity.
    + cbn [readValue_scan].
      assert (Hc : fst (scan_step (bump s) c) = scanEnd).
      { apply ends_on_any_byte; [exact Hend |].
        intros Hn. specialize (Hnum Hn). cbn [delimited] in Hdel.
        rewrite Hnum in Hdel. cbn [andb] in Hdel.
        now apply negb_true_iff in Hdel. }
      destruct (scan_step (bump s) c) as [code s1]. cbn [fst] in Hc. subst code.
      reflexivity.
  - cbn [app readValue_scan] in *.
    pose proof (number_state_after_digit (bump s) c) as Hdig.
    destruct (scan_step (bump s) c) as [code s1]. cbn [snd] in Hdig.
    assert (Hlen : List.length (v ++ c :: a) = S (List.length (v ++ a))).
    { rewrite !length_app. cbn [List.length]. lia. }
    assert (Hlen' : (List.length v <= List.length (v ++ a))%nat).
    { rewrite length_app. lia. }
    assert (Hnext : forall s',
               (number_state (step s') = true -> isDigit c = true) ->
               readValue_scan buf s' a (S (List.length v))
                 = (List.length (v ++ c :: a), None) ->
               readValue_scan buf' s' (a ++ g) (S (List.length v))
                 = (List.length (v ++ c :: a), None)).
    { intros s' Hs' H.
      replace (v ++ c :: a) with ((v ++ [c]) ++ a) in * by (now rewrite <- app_assoc).
      replace (S (List.length v)) with (List.length (v ++ [c])) in *
        by (rewrite length_app; cbn; lia).
      apply IH; [| exact H | exact Hdel].
      rewrite ends_with_digit_snoc. exact Hs'. }
    destruct code;
      try (apply Hnext; [exact Hdig | exact Hscan]);
      try (injection Hscan as Hscan; lia).
    + (* scanEndObject *)
      pose proof (stateEndValue_not_number s1 (ch " ")) as Hnn.
      destruct (stateEndValue s1 (ch " ")) as [code2 s2]. cbn [snd] in Hnn.
      destruct code2;
        try (apply Hnext; [rewrite Hnn; discriminate | exact Hscan]).
      exact Hscan.
    + (* scanEndArray *)
      pose proof (stateEndValue_not_number s1 (ch " ")) as Hnn.
      destruct (stateEndValue s1 (ch " ")) as [code2 s2]. cbn [snd] in Hnn.
      destruct code2;
        try (apply Hnext; [rewrite Hnn; discriminate | exact Hscan]).
      exact Hscan.
Qed.

(** A payload that begins with one whole JSON value, followed by bytes
    that do not continue it, is read as that value. *)
Lemma readValue_ignores_rest (v g : list byte) :
  readValue v = (List.length v, None) ->
  delimited v g = true ->
  readValue (v ++ g) = (List.length v, None).
Proof.
  unfold readValue. intros H Hdel.
  apply (readValue_scan_extend g v (v ++ g) v [] (reset newScanner));
    [discriminate | exact H | exact Hdel].
Qed.

(** A payload of white space only holds no value: the decoder reports
    [io.EOF]. *)
Lemma readValue_scan_all_space (buf : list byte) :
  forall (a : list byte) (s : scanner) (scanp : nat),
    step s = S_BeginValue -> nonSpace a = false ->
    readValue_scan buf s a scanp
    = (O, Some (if nonSpace buf then ErrUnexpectedEOF else EOF)).
Proof.
  induction a as [| c a IH]; intros s scanp Hs Ha.
  - cbn [readValue_scan]. unfold scan_step. rewrite Hs. unfold stateBeginValue.
    eval_tests (ch " "). cbn [fst]. destruct (nonSpace buf); reflexivity.
  - cbn [nonSpace existsb] in Ha. apply orb_false_iff in Ha as [Hc Ha].
    apply negb_false_iff in Hc.
    cbn [readValue_scan]. unfold scan_step. cbn [step bump]. rewrite Hs.
    unfold stateBeginValue. rewrite Hc. apply IH; [exact Hs | exact Ha].
Qed.

Lemma readValue_absent (p : list byte) :
  nonSpace p = false -> readValue p = (O, Some EOF).
Proof.
  intros H. unfold readValue.
  rewrite (readValue_scan_all_space p p (reset newScanner) O eq_refl H).
  now rewrite H.
Qed.

Lemma quiet_set_step (s : scanner) (f : stepFn) :
  scanner_quiet s -> f <> S_Error -> f <> S_EndTop -> scanner_quiet (set_step f s).
Proof. unfold scanner_quiet. cbn. tauto. Qed.

Lemma quiet_bump (s : scanner) : scanner_quiet s -> scanner_quiet (bump s).
Proof. unfold scanner_quiet. cbn. tauto. Qed.

Lemma stateEndValue_outcome (s : scanner) (c : byte) :
  scanner_quiet s ->
  step_outcome (fst (stateEndValue s c)) (snd (stateEndValue s c)).
Proof.
  intros Hq. unfold stateEndValue, stateEndTop.
  destruct (parseState s) as [| p ps] eqn:Hps; [destruct (negb _); exact I |].
  destruct (isSpace c).
  { cbn [fst snd step_outcome]. apply quiet_set_step; [exact Hq | discriminate | discriminate]. }
  unfold popParseState. rewrite Hps. cbn [tl].
  destruct Hq as (Ht & He & Hs1 & Hs2).
  destruct p; split_ifs;
    cbn [fst snd step_outcome scan_error err set_step set_parseState set_endTop
         parseState step endTop];
    try (do 3 eexists; reflexivity);
    try (left; reflexivity);
    try (right; split; [discriminate | split; [| reflexivity]]);
    unfold scanner_quiet; cbn; repeat split; try assumption; discriminate.
Qed.

Lemma pushParseState_outcome (s : scanner) (c : byte) (p : parse_state)
    (code : scan_code) :
  scanner_quiet s ->
  (code = scanBeginObject \/ code = scanBeginArray) ->
  step_outcome (fst (pushParseState s c p code)) (snd (pushParseState s c p code)).
Proof.
  intros Hq Hc. unfold pushParseState.
  destruct (_ <=? _); cbn [fst snd scan_error].
  - destruct Hc; subst code; exact Hq.
  - cbn. do 3 eexists; reflexivity.
Qed.

(** A step from a quiet scanner. *)
Lemma scan_step_outcome (s : scanner) (c : byte) :
  scanner_quiet s ->
  step_outcome (fst (scan_step s c)) (snd (scan_step s c)).
Proof.
  intros Hq. pose proof Hq as (Ht & He & Hs1 & Hs2).
  unfold scan_step.
  destruct (step s) eqn:Hs; try congruence; unfold_state; split_ifs;
    lazymatch goal with
    | |- step_outcome (fst (stateEndValue ?s' _)) _ =>
        apply stateEndValue_outcome;
        first [ exact Hq
              | unfold scanner_quiet; cbn; rewrite Hs; repeat split;
                first [assumption | discriminate] ]
    | |- step_outcome (fst (pushParseState _ _ _ _)) _ =>
        apply pushParseState_outcome;
        [ apply quiet_set_step; [exact Hq | discriminate | discriminate]
        | auto ]
    | |- step_outcome (fst (scan_error _ _ _)) _ =>
        cbn [fst snd step_outcome scan_error err]; do 3 eexists; reflexivity
    | |- step_outcome (fst (_, set_step _ _)) _ =>
        cbn [fst snd step_outcome];
        apply quiet_set_step; [exact Hq | discriminate | discriminate]
    | |- _ => cbn [fst snd step_outcome]; exact Hq
    end.
Qed.



(* ------------------------------------------------------------------ *)
(** ** The scanner accepts the JSON grammar *)

Lemma run_app (a b : list byte) :
  forall s, run s (a ++ b)
            = match run s a with Some s' => run s' b | None => None end.
Proof.
  induction a as [| c a IH]; intros s; cbn [app run]; [reflexivity |].
  destruct (advance s c); [apply IH | reflexivity].
Qed.

Lemma run_cons (s s' : scanner) (c : byte) (l : list byte) :
  advance s c = Some s' -> run s (c :: l) = run s' l.
Proof. intros H. cbn [run]. now rewrite H. Qed.

(** While the loop goes on, [readValue] is where [run] is. *)
Lemma readValue_scan_run (buf rest : list byte) :
  forall (a : list byte) (s s' : scanner) (scanp : nat),
    run s a = Some s' ->
    readValue_scan buf s (a ++ rest) scanp
    = readValue_scan buf s' rest (scanp + List.length a).
Proof.
  induction a as [| c a IH]; intros s s' scanp H.
  - cbn in *. injection H as <-. now rewrite Nat.add_0_r.
  - cbn [run] in H. cbn [app readValue_scan List.length].
    unfold advance in H.
    destruct (scan_step (bump s) c) as [code s1].
    replace (scanp + S (List.length a))%nat with (S scanp + List.length a)%nat by lia.
    destruct code; try discriminate H; try (apply IH; exact H).
    + destruct (stateEndValue s1 (ch " ")) as [code2 s2].
      destruct code2; try discriminate H; apply IH; exact H.
    + destruct (stateEndValue s1 (ch " ")) as [code2 s2].
      destruct code2; try discriminate H; apply IH; exact H.
Qed.

Lemma isDigit_range (c : byte) : isDigit c = true <-> 48 <= c <= 57.
Proof.
  unfold isDigit. change (ch "0") with 48. change (ch "9") with 57.
  rewrite andb_true_iff, !Z.leb_le. tauto.
Qed.

Lemma isDigit19_range (c : byte) : isDigit19 c = true <-> 49 <= c <= 57.
Proof.
  unfold isDigit19. change (ch "1") with 49. change (ch "9") with 57.
  rewrite andb_true_iff, !Z.leb_le. tauto.
Qed.

Lemma isSpace_cases (c : byte) :
  isSpace c = true <-> c = 32 \/ c = 9 \/ c = 13 \/ c = 10.
Proof.
  unfold isSpace. change (ch " ") with 32.
  rewrite andb_true_iff, !orb_true_iff, Z.leb_le, !Z.eqb_eq. lia.
Qed.

(** Decide a test on a byte from what is known of the byte. *)
Ltac byte_facts :=
  repeat match goal with
         | H : isDigit _ = true |- _ => apply isDigit_range in H
         | H : isDigit19 _ = true |- _ => apply isDigit19_range in H
         | H : isSpace _ = true |- _ => apply isSpace_cases in H
         end.

Ltac test_is b v :=
  let E := fresh "E" in
  assert (E : b = v)
    by (unfold isSpace, isDigit, isDigit19, isHex, dquote, backslash;
        repeat match goal with
               | |- context [ch ?a] =>
                   let n := eval vm_compute in (ch a) in change (ch a) with n
               end;
        first [ apply Z.eqb_neq; lia | apply Z.eqb_eq; lia
              | apply Z.ltb_ge; lia | apply Z.ltb_lt; lia
              | rewrite ?andb_true_iff, ?orb_true_iff, ?andb_false_iff,
                  ?orb_false_iff, ?Z.leb_le, ?Z.leb_gt, ?Z.eqb_eq, ?Z.eqb_neq,
                  ?Z.ltb_lt, ?Z.ltb_ge; lia ]);
  rewrite E; clear E.

Ltac decide_tests c :=
  repeat match goal with
         | |- context [isSpace c] =>
             first [test_is (isSpace c) true | test_is (isSpace c) false]
         | |- context [isDigit19 c] =>
             first [test_is (isDigit19 c) true | test_is (isDigit19 c) false]
         | |- context [isDigit c] =>
             first [test_is (isDigit c) true | test_is (isDigit c) false]
         | |- context [c =? ?k] =>
             first [test_is (c =? k) true | test_is (c =? k) false]
         | |- context [c <? ?k] =>
             first [test_is (c <? k) true | test_is (c <? k) false]
         end;
  cbn [orb andb negb].

Ltac step_at Hs :=
  unfold advance, scan_step; cbn [step bump]; rewrite Hs; cbv beta iota.

Lemma quiet_of_fields (s s' : scanner) :
  scanner_quiet s -> endTop s' = endTop s -> err s' = err s ->
  step s' <> S_Error -> step s' <> S_EndTop -> scanner_quiet s'.
Proof.
  unfold scanner_quiet. intros (H1 & H2 & _ & _) -> ->. auto.
Qed.

(** White space before a value or a key is skipped. *)
Lemma advance_space_before (s : scanner) (c : byte) :
  step s = S_BeginValue \/ step s = S_BeginValueOrEmpty
  \/ step s = S_BeginString \/ step s = S_BeginStringOrEmpty ->
  isSpace c = true ->
  advance s c = Some (bump s).
Proof.
  intros Hs Hc.
  destruct Hs as [Hs | [Hs | [Hs | Hs]]]; step_at Hs; unfold_state;
    rewrite Hc; reflexivity.
Qed.

Lemma keeps_refl (s : scanner) : keeps s s.
Proof. unfold keeps. auto. Qed.

Lemma keeps_trans (s1 s2 s3 : scanner) : keeps s1 s2 -> keeps s2 s3 -> keeps s1 s3.
Proof. unfold keeps. intros (A & B & C) (D & E & F). repeat split; congruence. Qed.

Lemma keeps_goto (s : scanner) (f : stepFn) : keeps s (set_step f (bump s)).
Proof. unfold keeps. cbn. auto. Qed.

Lemma keeps_bump (s : scanner) : keeps s (bump s).
Proof. unfold keeps. cbn. auto. Qed.

Lemma keeps_quiet (s s' : scanner) :
  keeps s s' -> scanner_quiet s ->
  step s' <> S_Error -> step s' <> S_EndTop -> scanner_quiet s'.
Proof.
  intros (_ & A & B) Hq. apply (quiet_of_fields s s' Hq A B).
Qed.

(* ---- strings ---- *)

Lemma advance_open_string (s : scanner) :
  step s = S_BeginValue \/ step s = S_BeginValueOrEmpty
  \/ step s = S_BeginString \/ step s = S_BeginStringOrEmpty ->
  advance s dquote = Some (set_step S_InString (bump s)).
Proof.
  intros [Hs | [Hs | [Hs | Hs]]]; step_at Hs; unfold_state;
    eval_tests dquote; reflexivity.
Qed.

Lemma advance_close_string (s : scanner) :
  step s = S_InString -> advance s dquote = Some (set_step S_EndValue (bump s)).
Proof. intros Hs. step_at Hs; unfold_state; eval_tests dquote; reflexivity. Qed.

Lemma isHex_step (s : scanner) (c : byte) (f : stepFn) :
  isHex c = true ->
  stateInStringEscHex f (bump s) c = (scanContinue, set_step f (bump s)).
Proof. intros H. unfold stateInStringEscHex. now rewrite H. Qed.

Lemma run_string_chars (k : list byte) :
  string_chars k ->
  forall s, step s = S_InString ->
            exists s', run s k = Some s' /\ keeps s s' /\ step s' = S_InString.
Proof.
  induction 1 as [| c k Hc Hq Hb _ IH | e k He _ IH | h1 h2 h3 h4 k H1 H2 H3 H4 _ IH];
    intros s Hs.
  - exists s. split; [reflexivity |]. split; [apply keeps_refl | exact Hs].
  - assert (Ha : advance s c = Some (bump s)).
    { step_at Hs. unfold_state. unfold dquote, backslash in *.
      decide_tests c. reflexivity. }
    rewrite (run_cons _ _ _ _ Ha).
    destruct (IH (bump s) Hs) as (s' & Hrun & Hk & Hs').
    exists s'. split; [exact Hrun |]. split; [| exact Hs'].
    eapply keeps_trans; [apply keeps_bump | exact Hk].
  - assert (Ha : advance s backslash = Some (set_step S_InStringEsc (bump s))).
    { step_at Hs. unfold_state. eval_tests backslash. reflexivity. }
    rewrite (run_cons _ _ _ _ Ha).
    assert (Hb : advance (set_step S_InStringEsc (bump s)) e
                 = Some (set_step S_InString (bump (set_step S_InStringEsc (bump s))))).
    { unfold advance, scan_step. cbn [step bump set_step]. unfold_state.
      unfold simple_escape in He. rewrite He. reflexivity. }
    rewrite (run_cons _ _ _ _ Hb).
    destruct (IH (set_step S_InString (bump (set_step S_InStringEsc (bump s)))) eq_refl)
      as (s' & Hrun & Hk & Hs').
    exists s'. split; [exact Hrun |]. split; [| exact Hs'].
    eapply keeps_trans; [| exact Hk]. unfold keeps. cbn. auto.
  - assert (Ha : advance s backslash = Some (set_step S_InStringEsc (bump s))).
    { step_at Hs. unfold_state. eval_tests backslash. reflexivity. }
    rewrite (run_cons _ _ _ _ Ha).
    set (s1 := set_step S_InStringEsc (bump s)).
    assert (Hb : advance s1 (ch "u") = Some (set_step S_InStringEscU (bump s1))).
    { unfold advance, scan_step. cbn [step bump set_step s1]. unfold_state.
      eval_tests (ch "u"). reflexivity. }
    rewrite (run_cons _ _ _ _ Hb).
    set (s2 := set_step S_InStringEscU (bump s1)).
    assert (Hc1 : advance s2 h1 = Some (set_step S_InStringEscU1 (bump s2))).
    { unfold advance, scan_step. cbn [step bump set_step s2].
      now rewrite isHex_step. }
    rewrite (run_cons _ _ _ _ Hc1).
    set (s3 := set_step S_InStringEscU1 (bump s2)).
    assert (Hc2 : advance s3 h2 = Some (set_step S_InStringEscU12 (bump s3))).
    { unfold advance, scan_step. cbn [step bump set_step s3].
      now rewrite isHex_step. }
    rewrite (run_cons _ _ _ _ Hc2).
    set (s4 := set_step S_InStringEscU12 (bump s3)).
    assert (Hc3 : advance s4 h3 = Some (set_step S_InStringEscU123 (bump s4))).
    { unfold advance, scan_step. cbn [step bump set_step s4].
      now rewrite isHex_step. }
    rewrite (run_cons _ _ _ _ Hc3).
    set (s5 := set_step S_InStringEscU123 (bump s4)).
    assert (Hc4 : advance s5 h4 = Some (set_step S_InString (bump s5))).
    { unfold advance, scan_step. cbn [step bump set_step s5].
      now rewrite isHex_step. }
    rewrite (run_cons _ _ _ _ Hc4).
    destruct (IH (set_step S_InString (bump s5)) eq_refl) as (s' & Hrun & Hk & Hs').
    exists s'. split; [exact Hrun |]. split; [| exact Hs'].
    eapply keeps_trans; [| exact Hk]. unfold keeps. cbn. auto.
Qed.

(** A string literal, where a value or a key can start. *)
Lemma run_string_literal (k : list byte) (s : scanner) :
  string_chars k ->
  step s = S_BeginValue \/ step s = S_BeginValueOrEmpty
  \/ step s = S_BeginString \/ step s = S_BeginStringOrEmpty ->
  exists s', run s (dquote :: k ++ [dquote]) = Some s'
             /\ keeps s s' /\ step s' = S_EndValue.
Proof.
  intros Hk Hs.
  rewrite (run_cons _ _ _ _ (advance_open_string s Hs)).
  destruct (run_string_chars k Hk (set_step S_InString (bump s)) eq_refl)
    as (s1 & Hrun & Hkeep & Hs1).
  rewrite run_app, Hrun.
  rewrite (run_cons _ _ _ _ (advance_close_string s1 Hs1)).
  eexists. split; [reflexivity |]. split; [| reflexivity].
  eapply keeps_trans; [apply keeps_goto |].
  eapply keeps_trans; [exact Hkeep | apply keeps_goto].
Qed.

(* ---- literals ---- *)

(** Take the first byte of the list [run] is at, from the state the
    scanner is known to be in. *)
Ltac take_byte c :=
  lazymatch goal with
  | |- context [run ?s (c :: ?l)] =>
      let Ha := fresh "Ha" in
      eassert (Ha : advance s c = Some _);
      [ unfold advance, scan_step; cbn [step bump set_step];
        try match goal with H : step _ = _ |- _ => rewrite H end;
        cbv beta iota; unfold_state; eval_tests c; reflexivity
      | rewrite (run_cons _ _ _ _ Ha); clear Ha ]
  end.

Ltac kept := unfold keeps; cbn [parseState endTop err set_step bump]; auto.

Lemma run_literal (s : scanner) (l : list byte) :
  begins_value s ->
  l = bytes_of_string "null" \/ l = bytes_of_string "true"
  \/ l = bytes_of_string "false" ->
  exists s', run s l = Some s' /\ keeps s s' /\ step s' = S_EndValue.
Proof.
  intros Hb [-> | [-> | ->]].
  - change (bytes_of_string "null") with [110; 117; 108; 108].
    destruct Hb as [Hs | Hs];
      take_byte 110; take_byte 117; take_byte 108; take_byte 108;
      (eexists; split; [reflexivity | split; [kept | reflexivity]]).
  - change (bytes_of_string "true") with [116; 114; 117; 101].
    destruct Hb as [Hs | Hs];
      take_byte 116; take_byte 114; take_byte 117; take_byte 101;
      (eexists; split; [reflexivity | split; [kept | reflexivity]]).
  - change (bytes_of_string "false") with [102; 97; 108; 115; 101].
    destruct Hb as [Hs | Hs];
      take_byte 102; take_byte 97; take_byte 108; take_byte 115; take_byte 101;
      (eexists; split; [reflexivity | split; [kept | reflexivity]]).
Qed.

(* ---- numbers ---- *)

Lemma advance_digit (s : scanner) (c : byte) :
  isDigit c = true ->
  step s = S_1 \/ step s = S_Dot0 \/ step s = S_E0 ->
  exists s', advance s c = Some s' /\ keeps s s' /\ step s' = step s.
Proof.
  intros Hc [Hs | [Hs | Hs]]; step_at Hs; unfold_state; rewrite Hc;
    (eexists; split; [reflexivity | split; [kept | cbn; congruence]]).
Qed.

Lemma run_digits (ds : list byte) :
  all_digits ds ->
  forall s, step s = S_1 \/ step s = S_Dot0 \/ step s = S_E0 ->
            exists s', run s ds = Some s' /\ keeps s s' /\ step s' = step s.
Proof.
  induction 1 as [| c ds Hc _ IH]; intros s Hs.
  - exists s. split; [reflexivity | split; [apply keeps_refl | reflexivity]].
  - destruct (advance_digit s c Hc Hs) as (s1 & Ha & Hk1 & Hs1).
    rewrite (run_cons _ _ _ _ Ha).
    destruct (IH s1) as (s' & Hrun & Hk & Hs'); [rewrite Hs1; exact Hs |].
    exists s'. split; [exact Hrun |].
    split; [eapply keeps_trans; eassumption | congruence].
Qed.

(** After the first digit of a run of digits. *)
Lemma run_digits_from (s : scanner) (f g : stepFn) (d : byte) (ds : list byte) :
  (exists s1, advance s d = Some s1 /\ keeps s s1 /\ step s1 = g) ->
  g = S_1 \/ g = S_Dot0 \/ g = S_E0 ->
  all_digits ds ->
  exists s', run s (d :: ds) = Some s' /\ keeps s s' /\ step s' = g.
Proof.
  intros (s1 & Ha & Hk1 & Hs1) Hg Hds.
  rewrite (run_cons _ _ _ _ Ha).
  destruct (run_digits ds Hds s1) as (s' & Hrun & Hk & Hs');
    [rewrite Hs1; exact Hg |].
  exists s'. split; [exact Hrun |].
  split; [eapply keeps_trans; eassumption | congruence].
Qed.

Lemma run_int (i : list byte) (s : scanner) :
  int_part i ->
  step s = S_BeginValue \/ step s = S_BeginValueOrEmpty \/ step s = S_Neg ->
  exists s', run s i = Some s' /\ keeps s s'
             /\ (step s' = S_0 \/ step s' = S_1).
Proof.
  intros [-> | (d & ds & -> & Hd & Hds)] Hs.
  - change (ch "0") with 48.
    destruct Hs as [Hs | [Hs | Hs]]; take_byte 48;
      (eexists; split; [reflexivity | split; [kept | left; reflexivity]]).
  - destruct (run_digits_from s (step s) S_1 d ds) as (s' & Hrun & Hk & Hs');
      [| auto | exact Hds | exists s'; auto].
    pose proof (isDigit19_isDigit d Hd) as Hdd.
    apply isDigit19_range in Hd.
    destruct Hs as [Hs | [Hs | Hs]]; step_at Hs; unfold_state; decide_tests d;
      (eexists; split; [reflexivity | split; [kept | reflexivity]]).
Qed.

Lemma run_frac (f : list byte) (s : scanner) :
  frac_part f ->
  step s = S_0 \/ step s = S_1 ->
  exists s', run s f = Some s' /\ keeps s s'
             /\ (step s' = S_0 \/ step s' = S_1 \/ step s' = S_Dot0).
Proof.
  intros [-> | (d & ds & -> & Hds)] Hs.
  - exists s. split; [reflexivity | split; [apply keeps_refl | tauto]].
  - inversion Hds as [| d' ds' Hd Hds']; subst.
    change (ch ".") with 46.
    assert (Ha : exists s1, advance s 46 = Some s1 /\ keeps s s1 /\ step s1 = S_Dot).
    { destruct Hs as [Hs | Hs]; step_at Hs; unfold_state; eval_tests 46;
        (eexists; split; [reflexivity | split; [kept | reflexivity]]). }
    destruct Ha as (s1 & Ha & Hk1 & Hs1).
    rewrite (run_cons _ _ _ _ Ha).
    destruct (run_digits_from s1 S_Dot S_Dot0 d ds) as (s' & Hrun & Hk & Hs');
      [| auto | exact Hds' |].
    + step_at Hs1. unfold_state. rewrite Hd.
      eexists; split; [reflexivity | split; [kept | reflexivity]].
    + exists s'. split; [exact Hrun |].
      split; [eapply keeps_trans; eassumption | auto].
Qed.

Lemma run_exp (e : list byte) (s : scanner) :
  exp_part e ->
  step s = S_0 \/ step s = S_1 \/ step s = S_Dot0 ->
  exists s', run s e = Some s' /\ keeps s s' /\ number_state (step s') = true.
Proof.
  intros [-> | (m & sg & d & ds & -> & Hm & Hsg & Hds)] Hs.
  - exists s. split; [reflexivity | split; [apply keeps_refl |]].
    destruct Hs as [-> | [-> | ->]]; reflexivity.
  - inversion Hds as [| d' ds' Hd Hds']; subst.
    assert (Ha : exists s1, advance s m = Some s1 /\ keeps s s1 /\ step s1 = S_E).
    { pose proof (isDigit_range m) as Hr.
      assert (Hmd : isDigit m = false).
      { destruct (isDigit m); [| reflexivity].
        change (ch "e") with 101 in Hm. change (ch "E") with 69 in Hm.
        destruct Hr as [Hr _]. specialize (Hr eq_refl). lia. }
      assert (Hme : (m =? ch "e") || (m =? ch "E") = true).
      { destruct Hm as [-> | ->]; reflexivity. }
      assert (Hmp : (m =? ch ".") = false).
      { destruct Hm as [-> | ->]; reflexivity. }
      destruct Hs as [Hs | [Hs | Hs]]; step_at Hs; unfold_state;
        rewrite ?Hmd, ?Hmp, ?Hme;
        (eexists; split; [reflexivity | split; [kept | reflexivity]]). }
    destruct Ha as (s1 & Ha & Hk1 & Hs1).
    rewrite (run_cons _ _ _ _ Ha).
    assert (Hsign : exists s2, run s1 sg = Some s2 /\ keeps s1 s2
                               /\ (step s2 = S_E \/ step s2 = S_ESign)).
    { destruct Hsg as [-> | [-> | ->]].
      - exists s1. split; [reflexivity | split; [apply keeps_refl | auto]].
      - change (ch "+") with 43. take_byte 43.
        eexists; split; [reflexivity | split; [kept | right; reflexivity]].
      - change (ch "-") with 45. take_byte 45.
        eexists; split; [reflexivity | split; [kept | right; reflexivity]]. }
    destruct Hsign as (s2 & Hrun2 & Hk2 & Hs2).
    rewrite run_app, Hrun2.
    destruct (run_digits_from s2 (step s2) S_E0 d ds) as (s' & Hrun & Hk & Hs');
      [| auto | exact Hds' |].
    + pose proof Hd as Hd'. apply isDigit_range in Hd'.
      destruct Hs2 as [Hs2 | Hs2]; step_at Hs2; unfold_state; decide_tests d;
        (eexists; split; [reflexivity | split; [kept | reflexivity]]).
    + exists s'. split; [exact Hrun |]. split; [| now rewrite Hs'].
      eapply keeps_trans; [exact Hk1 |]. eapply keeps_trans; eassumption.
Qed.

Lemma run_number (n : list byte) (s : scanner) :
  number_text n -> begins_value s ->
  exists s', run s n = Some s' /\ keeps s s' /\ number_state (step s') = true.
Proof.
  intros [sg i f e Hsg Hi Hf He] Hb.
  assert (H0 : exists s0, run s sg = Some s0 /\ keeps s s0
                          /\ (step s0 = S_BeginValue \/ step s0 = S_BeginValueOrEmpty
                              \/ step s0 = S_Neg)).
  { destruct Hsg as [-> | ->].
    - exists s. split; [reflexivity | split; [apply keeps_refl |]].
      destruct Hb; auto.
    - change (ch "-") with 45.
      destruct Hb as [Hs | Hs]; take_byte 45;
        (eexists; split; [reflexivity | split; [kept | auto]]). }
  destruct H0 as (s0 & R0 & K0 & S0).
  rewrite run_app, R0.
  destruct (run_int i s0 Hi S0) as (s1 & R1 & K1 & S1).
  rewrite run_app, R1.
  destruct (run_frac f s1 Hf S1) as (s2 & R2 & K2 & S2).
  rewrite run_app, R2.
  destruct (run_exp e s2 He S2) as (s3 & R3 & K3 & S3).
  exists s3. split; [exact R3 |]. split; [| exact S3].
  eapply keeps_trans; [exact K0 |]. eapply keeps_trans; [exact K1 |].
  eapply keeps_trans; eassumption.
Qed.

(* ---- between values ---- *)

Lemma run_spaces_keep (ws : list byte) :
  all_space ws ->
  forall s,
    step s = S_BeginValue \/ step s = S_BeginValueOrEmpty
    \/ step s = S_BeginString \/ step s = S_BeginStringOrEmpty ->
    exists s', run s ws = Some s' /\ keeps s s' /\ step s' = step s.
Proof.
  unfold all_space.
  induction ws as [| c ws IH]; intros Hws s Hs.
  - exists s. split; [reflexivity | split; [apply keeps_refl | reflexivity]].
  - cbn [nonSpace existsb] in Hws. apply orb_false_iff in Hws as [Hc Hws].
    apply negb_false_iff in Hc.
    rewrite (run_cons s (bump s) c ws (advance_space_before s c Hs Hc)).
    destruct (IH Hws (bump s) Hs) as (s' & Hrun & Hk & Hs').
    exists s'. split; [exact Hrun |].
    split; [eapply keeps_trans; [apply keeps_bump | exact Hk] | exact Hs'].
Qed.

Lemma space_ends_number (c : byte) : isSpace c = true -> continues_number c = false.
Proof.
  intros Hc. apply isSpace_cases in Hc. unfold continues_number, isDigit.
  change (ch "0") with 48. change (ch "9") with 57. change (ch ".") with 46.
  change (ch "e") with 101. change (ch "E") with 69.
  rewrite !orb_false_iff, andb_false_iff, !Z.leb_gt, !Z.eqb_neq. lia.
Qed.

(** After a value every byte that does not continue a number is for
    [stateEndValue]. *)
Lemma ended_step (ps : list parse_state) (s : scanner) (c : byte) :
  value_ended ps s -> continues_number c = false ->
  scan_step (bump s) c = stateEndValue (bump s) c.
Proof.
  intros (_ & _ & [Hs | Hn]) Hc; unfold scan_step; cbn [step bump].
  - now rewrite Hs.
  - destruct (continues_number_false c Hc) as (Hd & Hdot & He).
    destruct (step s); try discriminate Hn; unfold_state;
      rewrite ?Hd, ?Hdot, ?He; reflexivity.
Qed.

Lemma ended_of_keeps (s s' : scanner) :
  scanner_quiet s -> keeps s s' ->
  step s' = S_EndValue \/ number_state (step s') = true ->
  value_ended (parseState s) s'.
Proof.
  intros Hq Hk Hs. split; [| split; [apply Hk | exact Hs]].
  apply (keeps_quiet s s' Hk Hq); intros E; rewrite E in Hs;
    destruct Hs; discriminate.
Qed.

Lemma advance_space_after (p : parse_state) (ps : list parse_state)
                          (s : scanner) (c : byte) :
  value_ended (p :: ps) s -> isSpace c = true ->
  exists s', advance s c = Some s' /\ value_ended (p :: ps) s'.
Proof.
  intros He Hc. unfold advance.
  rewrite (ended_step _ s c He (space_ends_number c Hc)).
  destruct He as (Hq & Hps & _).
  unfold stateEndValue. cbn [parseState bump]. rewrite Hps, Hc.
  eexists. split; [reflexivity |].
  split; [| split; [exact Hps | left; reflexivity]].
  apply quiet_set_step; [apply quiet_bump, Hq | discriminate | discriminate].
Qed.

Lemma run_spaces_after (p : parse_state) (ps : list parse_state) (ws : list byte) :
  all_space ws ->
  forall s, value_ended (p :: ps) s ->
            exists s', run s ws = Some s' /\ value_ended (p :: ps) s'.
Proof.
  unfold all_space.
  induction ws as [| c ws IH]; intros Hws s He.
  - exists s. split; [reflexivity | exact He].
  - cbn [nonSpace existsb] in Hws. apply orb_false_iff in Hws as [Hc Hws].
    apply negb_false_iff in Hc.
    destruct (advance_space_after p ps s c He Hc) as (s1 & Ha & He1).
    rewrite (run_cons _ _ _ _ Ha). apply (IH Hws s1 He1).
Qed.

(** The separators: a comma between elements, a colon after a key, a comma
    between members. *)
Lemma advance_separator (ps : list parse_state) (s : scanner) :
  (value_ended (parseArrayValue :: ps) s ->
   exists s', advance s (ch ",") = Some s' /\ scanner_quiet s'
              /\ step s' = S_BeginValue /\ parseState s' = parseArrayValue :: ps)
  /\ (value_ended (parseObjectKey :: ps) s ->
      exists s', advance s (ch ":") = Some s' /\ scanner_quiet s'
                 /\ step s' = S_BeginValue /\ parseState s' = parseObjectValue :: ps)
  /\ (value_ended (parseObjectValue :: ps) s ->
      exists s', advance s (ch ",") = Some s' /\ scanner_quiet s'
                 /\ step s' = S_BeginString /\ parseState s' = parseObjectKey :: ps).
Proof.
  repeat split; intros He; unfold advance;
    match goal with
    | |- context [scan_step (bump s) ?c] => rewrite (ended_step _ s c He eq_refl)
    end;
    destruct He as (Hq & Hps & _);
    unfold stateEndValue; cbn [parseState bump]; rewrite Hps;
    eval_tests (ch ","); eval_tests (ch ":");
    (eexists; split; [reflexivity |]);
    (split; [| split; [reflexivity | cbn; congruence]]);
    apply quiet_set_step; try discriminate;
    apply quiet_bump in Hq; unfold scanner_quiet in *; cbn; exact Hq.
Qed.

(** An opening bracket or brace, where a value can start and the nesting
    is not at its limit. *)
Lemma advance_open (s : scanner) :
  scanner_quiet s -> begins_value s -> fits (parseState s) 1 ->
  (exists s', advance s (ch "[") = Some s' /\ scanner_quiet s'
              /\ step s' = S_BeginValueOrEmpty
              /\ parseState s' = parseArrayValue :: parseState s)
  /\ (exists s', advance s (ch "{") = Some s' /\ scanner_quiet s'
                 /\ step s' = S_BeginStringOrEmpty
                 /\ parseState s' = parseObjectKey :: parseState s).
Proof.
  intros Hq Hb Hfit.
  assert (Hlen : (Z.of_nat (List.length (parseState s) + 1) <=? maxNestingDepth) = true)
    by (apply Z.leb_le; exact Hfit).
  assert (Hlen' : forall p : parse_state,
             (Z.of_nat (List.length (p :: parseState s)) <=? maxNestingDepth) = true).
  { intros p. cbn [List.length]. rewrite <- Hlen. f_equal. lia. }
  apply quiet_bump in Hq.
  split.
  - change (ch "[") with 91.
    destruct Hb as [Hs | Hs]; step_at Hs; unfold_state; eval_tests 91;
      unfold pushParseState; cbn [parseState set_parseState set_step bump];
      rewrite Hlen';
      (eexists; split; [reflexivity |]; split; [| split; reflexivity]);
      unfold scanner_quiet in *; cbn; repeat split; try apply Hq; discriminate.
  - change (ch "{") with 123.
    destruct Hb as [Hs | Hs]; step_at Hs; unfold_state; eval_tests 123;
      unfold pushParseState; cbn [parseState set_parseState set_step bump];
      rewrite Hlen';
      (eexists; split; [reflexivity |]; split; [| split; reflexivity]);
      unfold scanner_quiet in *; cbn; repeat split; try apply Hq; discriminate.
Qed.

(** The closing bracket or brace pops the stack of open values. *)
Lemma close_step (s : scanner) (c : byte) (q : list parse_state) :
  closable s c q ->
  exists code s0,
    scan_step (bump s) c = (code, popParseState s0)
    /\ (code = scanEndArray \/ code = scanEndObject)
    /\ tl (parseState s0) = q /\ endTop s0 = false /\ err s0 = None.
Proof.
  intros [(He & ->) | [(He & ->) | [(Hq & Hs & Hps & ->) | (Hq & Hs & Hps & ->)]]].
  - rewrite (ended_step _ s (ch "]") He eq_refl). destruct He as (Hq & Hps & _).
    unfold stateEndValue. cbn [parseState bump]. rewrite Hps.
    eval_tests (ch "]").
    eexists _, _. split; [reflexivity |]. split; [auto |].
    cbn [parseState endTop err bump set_parseState tl]; rewrite ?Hps;
      repeat split; apply Hq.
  - rewrite (ended_step _ s (ch "}") He eq_refl). destruct He as (Hq & Hps & _).
    unfold stateEndValue. cbn [parseState bump]. rewrite Hps.
    eval_tests (ch "}").
    eexists _, _. split; [reflexivity |]. split; [auto |].
    cbn [parseState endTop err bump set_parseState tl]; rewrite ?Hps;
      repeat split; apply Hq.
  - unfold scan_step. cbn [step bump]. rewrite Hs. cbv beta iota.
    unfold stateBeginValueOrEmpty. eval_tests (ch "]").
    unfold stateEndValue. cbn [parseState bump]. rewrite Hps.
    eval_tests (ch "]").
    eexists _, _. split; [reflexivity |]. split; [auto |].
    cbn [parseState endTop err bump set_parseState tl]; rewrite ?Hps;
      repeat split; apply Hq.
  - unfold scan_step. cbn [step bump]. rewrite Hs. cbv beta iota.
    unfold stateBeginStringOrEmpty. eval_tests (ch "}").
    unfold stateEndValue. cbn [parseState set_parseState bump].
    eval_tests (ch "}").
    eexists _, _. split; [reflexivity |]. split; [auto |].
    cbn [parseState endTop err bump set_parseState tl]; rewrite ?Hps;
      repeat split; apply Hq.
Qed.

(** Inside another value, the loop goes on after the closing byte. *)
Lemma advance_close (s : scanner) (c : byte) (q : list parse_state) :
  closable s c q -> q <> [] ->
  exists s', advance s c = Some s' /\ value_ended q s'.
Proof.
  intros Hc Hne.
  destruct (close_step s c q Hc) as (code & s0 & Hstep & Hcode & Htl & Het & Herr).
  destruct q as [| p q]; [congruence |].
  unfold advance. rewrite Hstep.
  assert (Hpop : popParseState s0 = set_step S_EndValue (set_parseState (p :: q) s0)).
  { unfold popParseState. now rewrite Htl. }
  assert (Hnext : stateEndValue (popParseState s0) (ch " ")
                  = (scanSkipSpace, set_step S_EndValue (popParseState s0))).
  { rewrite Hpop. unfold stateEndValue. cbn [parseState set_step set_parseState].
    eval_tests (ch " "). reflexivity. }
  exists (set_step S_EndValue (popParseState s0)).
  split.
  - destruct Hcode as [-> | ->]; now rewrite Hnext.
  - rewrite Hpop. unfold value_ended, scanner_quiet. cbn.
    repeat split; auto; discriminate.
Qed.

(** At the top level, the closing byte ends the value: [readValue] stops
    right after it. *)
Lemma readValue_scan_close (buf rest : list byte) (s : scanner) (c : byte)
                           (scanp : nat) :
  closable s c [] ->
  readValue_scan buf s (c :: rest) scanp = (S scanp, None).
Proof.
  intros Hc.
  destruct (close_step s c [] Hc) as (code & s0 & Hstep & Hcode & Htl & Het & Herr).
  cbn [readValue_scan]. rewrite Hstep.
  assert (Hnext : fst (stateEndValue (popParseState s0) (ch " ")) = scanEnd).
  { unfold popParseState. rewrite Htl. unfold stateEndValue.
    cbn [parseState set_step set_parseState set_endTop]. unfold stateEndTop.
    eval_tests (ch " "). reflexivity. }
  destruct (stateEndValue (popParseState s0) (ch " ")) as [code2 s2].
  cbn [fst] in Hnext. subst code2.
  destruct Hcode as [-> | ->]; reflexivity.
Qed.

(* ---- values inside values ---- *)

Lemma fits_same_length (q q' : list parse_state) (d : nat) :
  List.length q' = List.length q -> fits q d -> fits q' d.
Proof. unfold fits. now intros ->. Qed.

Lemma fits_open (p : parse_state) (q : list parse_state) (d : nat) :
  fits q (S d) -> fits q 1 /\ fits (p :: q) d.
Proof. unfold fits. cbn [List.length]. lia. Qed.

Lemma run_snoc (s s1 s2 : scanner) (l : list byte) (c : byte) :
  run s l = Some s1 -> advance s1 c = Some s2 -> run s (l ++ [c]) = Some s2.
Proof. intros H1 H2. rewrite run_app, H1. cbn [run]. now rewrite H2. Qed.

(** A string, a literal or a number, where a value can start. *)
Lemma run_scalar (v : list byte) (s : scanner) :
  scanner_quiet s -> begins_value s ->
  (exists k, string_chars k /\ v = dquote :: k ++ [dquote])
  \/ (v = bytes_of_string "null" \/ v = bytes_of_string "true"
      \/ v = bytes_of_string "false")
  \/ number_text v ->
  exists s', run s v = Some s' /\ value_ended (parseState s) s'.
Proof.
  intros Hq Hb [(k & Hk & ->) | [Hl | Hn]].
  - destruct (run_string_literal k s Hk) as (s' & Hrun & Hkeep & Hs').
    { destruct Hb; auto. }
    exists s'. split; [exact Hrun | apply ended_of_keeps; auto].
  - destruct (run_literal s v Hb Hl) as (s' & Hrun & Hkeep & Hs').
    exists s'. split; [exact Hrun | apply ended_of_keeps; auto].
  - destruct (run_number v s Hn Hb) as (s' & Hrun & Hkeep & Hs').
    exists s'. split; [exact Hrun | apply ended_of_keeps; auto].
Qed.

(** The scanner goes through every value, every list of elements and
    every list of members of the grammar, as long as the nesting stays
    within [maxNestingDepth]. *)
Lemma run_grammar :
  (forall d v, value d v ->
     forall s, scanner_quiet s -> begins_value s ->
               parseState s <> [] -> fits (parseState s) d ->
               exists s', run s v = Some s' /\ value_ended (parseState s) s')
  /\ (forall d l, elements d l ->
        forall s ps, scanner_quiet s -> begins_value s ->
                     parseState s = parseArrayValue :: ps -> fits (parseState s) d ->
                     exists s', run s l = Some s'
                                /\ value_ended (parseArrayValue :: ps) s')
  /\ (forall d l, members d l ->
        forall s ps, scanner_quiet s ->
                     step s = S_BeginString \/ step s = S_BeginStringOrEmpty ->
                     parseState s = parseObjectKey :: ps -> fits (parseState s) d ->
                     exists s', run s l = Some s'
                                /\ value_ended (parseObjectValue :: ps) s').
Proof.
  apply value_elements_members_ind.
  - (* null *) intros d s Hq Hb _ _. apply run_scalar; auto.
  - (* true *) intros d s Hq Hb _ _. apply run_scalar; auto.
  - (* false *) intros d s Hq Hb _ _. apply run_scalar; auto.
  - (* number *) intros d n Hn s Hq Hb _ _. apply run_scalar; auto.
  - (* string *) intros d k Hk s Hq Hb _ _. apply run_scalar; eauto.
  - (* [] *)
    intros d ws Hws s Hq Hb Hne Hfit.
    destruct (fits_open parseArrayValue _ _ Hfit) as [Hfit1 _].
    destruct (advance_open s Hq Hb Hfit1) as [(s1 & Ha & Hq1 & Hs1 & Hps1) _].
    rewrite (run_cons _ _ _ _ Ha).
    destruct (run_spaces_keep ws Hws s1) as (s2 & Hrun & Hk & Hs2); [auto |].
    assert (Hc : closable s2 (ch "]") (parseState s)).
    { right; right; left. split; [| split; [congruence | split; [| reflexivity]]].
      - apply (keeps_quiet s1 s2 Hk Hq1); rewrite Hs2, Hs1; discriminate.
      - destruct Hk as (-> & _). exact Hps1. }
    destruct (advance_close s2 _ _ Hc Hne) as (s3 & Ha3 & He3).
    exists s3. split; [apply (run_snoc _ _ _ _ _ Hrun Ha3) | exact He3].
  - (* [elements] *)
    intros d l _ IH s Hq Hb Hne Hfit.
    destruct (fits_open parseArrayValue _ _ Hfit) as [Hfit1 Hfit2].
    destruct (advance_open s Hq Hb Hfit1) as [(s1 & Ha & Hq1 & Hs1 & Hps1) _].
    rewrite (run_cons _ _ _ _ Ha).
    destruct (IH s1 (parseState s)) as (s2 & Hrun & He2);
      [exact Hq1 | right; exact Hs1 | exact Hps1 | now rewrite Hps1 |].
    assert (Hc : closable s2 (ch "]") (parseState s)) by (left; auto).
    destruct (advance_close s2 _ _ Hc Hne) as (s3 & Ha3 & He3).
    exists s3. split; [apply (run_snoc _ _ _ _ _ Hrun Ha3) | exact He3].
  - (* {} *)
    intros d ws Hws s Hq Hb Hne Hfit.
    destruct (fits_open parseObjectKey _ _ Hfit) as [Hfit1 _].
    destruct (advance_open s Hq Hb Hfit1) as [_ (s1 & Ha & Hq1 & Hs1 & Hps1)].
    rewrite (run_cons _ _ _ _ Ha).
    destruct (run_spaces_keep ws Hws s1) as (s2 & Hrun & Hk & Hs2); [auto |].
    assert (Hc : closable s2 (ch "}") (parseState s)).
    { right; right; right. split; [| split; [congruence | split; [| reflexivity]]].
      - apply (keeps_quiet s1 s2 Hk Hq1); rewrite Hs2, Hs1; discriminate.
      - destruct Hk as (-> & _). exact Hps1. }
    destruct (advance_close s2 _ _ Hc Hne) as (s3 & Ha3 & He3).
    exists s3. split; [apply (run_snoc _ _ _ _ _ Hrun Ha3) | exact He3].
  - (* {members} *)
    intros d l _ IH s Hq Hb Hne Hfit.
    destruct (fits_open parseObjectKey _ _ Hfit) as [Hfit1 Hfit2].
    destruct (advance_open s Hq Hb Hfit1) as [_ (s1 & Ha & Hq1 & Hs1 & Hps1)].
    rewrite (run_cons _ _ _ _ Ha).
    destruct (IH s1 (parseState s)) as (s2 & Hrun & He2);
      [exact Hq1 | right; exact Hs1 | exact Hps1 | now rewrite Hps1 |].
    assert (Hc : closable s2 (ch "}") (parseState s)) by (right; left; auto).
    destruct (advance_close s2 _ _ Hc Hne) as (s3 & Ha3 & He3).
    exists s3. split; [apply (run_snoc _ _ _ _ _ Hrun Ha3) | exact He3].
  - (* the last element *)
    intros d ws1 v ws2 Hws1 _ IHv Hws2 s ps Hq Hb Hps Hfit.
    destruct (run_spaces_keep ws1 Hws1 s) as (s1 & R1 & K1 & S1);
      [destruct Hb; auto |].
    assert (Hq1 : scanner_quiet s1).
    { apply (keeps_quiet s s1 K1 Hq); rewrite S1; destruct Hb as [-> | ->]; discriminate. }
    assert (Hps1 : parseState s1 = parseArrayValue :: ps)
      by (destruct K1 as (-> & _); exact Hps).
    destruct (IHv s1) as (s2 & R2 & E2);
      [exact Hq1 | unfold begins_value; now rewrite S1 | now rewrite Hps1
      | now rewrite Hps1, <- Hps |].
    rewrite Hps1 in E2.
    destruct (run_spaces_after _ _ ws2 Hws2 s2 E2) as (s3 & R3 & E3).
    exists s3. split; [| exact E3].
    now rewrite run_app, R1, run_app, R2.
  - (* an element and more *)
    intros d ws1 v ws2 l Hws1 _ IHv Hws2 _ IHl s ps Hq Hb Hps Hfit.
    destruct (run_spaces_keep ws1 Hws1 s) as (s1 & R1 & K1 & S1);
      [destruct Hb; auto |].
    assert (Hq1 : scanner_quiet s1).
    { apply (keeps_quiet s s1 K1 Hq); rewrite S1; destruct Hb as [-> | ->]; discriminate. }
    assert (Hps1 : parseState s1 = parseArrayValue :: ps)
      by (destruct K1 as (-> & _); exact Hps).
    destruct (IHv s1) as (s2 & R2 & E2);
      [exact Hq1 | unfold begins_value; now rewrite S1 | now rewrite Hps1
      | now rewrite Hps1, <- Hps |].
    rewrite Hps1 in E2.
    destruct (run_spaces_after _ _ ws2 Hws2 s2 E2) as (s3 & R3 & E3).
    destruct (advance_separator ps s3) as [Hsep _].
    destruct (Hsep E3) as (s4 & A4 & Hq4 & S4 & Hps4).
    destruct (IHl s4 ps) as (s5 & R5 & E5);
      [exact Hq4 | left; exact S4 | exact Hps4 | now rewrite Hps4, <- Hps |].
    exists s5. split; [| exact E5].
    rewrite run_app, R1, run_app, R2, run_app, R3.
    now rewrite (run_cons _ _ _ _ A4).
  - (* the last member *)
    intros d ws1 k ws2 ws3 v ws4 Hws1 Hk Hws2 Hws3 _ IHv Hws4 s ps Hq Hb Hps Hfit.
    destruct (run_spaces_keep ws1 Hws1 s) as (s1 & R1 & K1 & S1); [auto |].
    destruct (run_string_literal k s1 Hk) as (s2 & R2 & K2 & S2);
      [rewrite S1; auto |].
    pose proof (keeps_trans _ _ _ K1 K2) as K12.
    assert (E2 : value_ended (parseObjectKey :: ps) s2).
    { rewrite <- Hps. apply ended_of_keeps; auto. }
    destruct (run_spaces_after _ _ ws2 Hws2 s2 E2) as (s3 & R3 & E3).
    destruct (advance_separator ps s3) as (_ & Hsep & _).
    destruct (Hsep E3) as (s4 & A4 & Hq4 & S4 & Hps4).
    destruct (run_spaces_keep ws3 Hws3 s4) as (s5 & R5 & K5 & S5); [auto |].
    assert (Hq5 : scanner_quiet s5).
    { apply (keeps_quiet s4 s5 K5 Hq4); rewrite S5, S4; discriminate. }
    assert (Hps5 : parseState s5 = parseObjectValue :: ps)
      by (destruct K5 as (-> & _); exact Hps4).
    destruct (IHv s5) as (s6 & R6 & E6);
      [exact Hq5 | left; congruence | now rewrite Hps5
      | apply (fits_same_length (parseState s)); [now rewrite Hps5, Hps | exact Hfit] |].
    rewrite Hps5 in E6.
    destruct (run_spaces_after _ _ ws4 Hws4 s6 E6) as (s7 & R7 & E7).
    exists s7. split; [| exact E7].
    rewrite run_app, R1, run_app, R2, run_app, R3.
    rewrite (run_cons _ _ _ _ A4).
    now rewrite run_app, R5, run_app, R6.
  - (* a member and more *)
    intros d ws1 k ws2 ws3 v ws4 l Hws1 Hk Hws2 Hws3 _ IHv Hws4 _ IHl
           s ps Hq Hb Hps Hfit.
    destruct (run_spaces_keep ws1 Hws1 s) as (s1 & R1 & K1 & S1); [auto |].
    destruct (run_string_literal k s1 Hk) as (s2 & R2 & K2 & S2);
      [rewrite S1; auto |].
    pose proof (keeps_trans _ _ _ K1 K2) as K12.
    assert (E2 : value_ended (parseObjectKey :: ps) s2).
    { rewrite <- Hps. apply ended_of_keeps; auto. }
    destruct (run_spaces_after _ _ ws2 Hws2 s2 E2) as (s3 & R3 & E3).
    destruct (advance_separator ps s3) as (_ & Hsep & _).
    destruct (Hsep E3) as (s4 & A4 & Hq4 & S4 & Hps4).
    destruct (run_spaces_keep ws3 Hws3 s4) as (s5 & R5 & K5 & S5); [auto |].
    assert (Hq5 : scanner_quiet s5).
    { apply (keeps_quiet s4 s5 K5 Hq4); rewrite S5, S4; discriminate. }
    assert (Hps5 : parseState s5 = parseObjectValue :: ps)
      by (destruct K5 as (-> & _); exact Hps4).
    destruct (IHv s5) as (s6 & R6 & E6);
      [exact Hq5 | left; congruence | now rewrite Hps5
      | apply (fits_same_length (parseState s)); [now rewrite Hps5, Hps | exact Hfit] |].
    rewrite Hps5 in E6.
    destruct (run_spaces_after _ _ ws4 Hws4 s6 E6) as (s7 & R7 & E7).
    destruct (advance_separator ps s7) as (_ & _ & Hsep').
    destruct (Hsep' E7) as (s8 & A8 & Hq8 & S8 & Hps8).
    destruct (IHl s8 ps) as (s9 & R9 & E9);
      [exact Hq8 | left; exact S8 | exact Hps8 | now rewrite Hps8, <- Hps |].
    exists s9. split; [| exact E9].
    rewrite run_app, R1, run_app, R2, run_app, R3.
    rewrite (run_cons _ _ _ _ A4).
    rewrite run_app, R5, run_app, R6, run_app, R7.
    now rewrite (run_cons _ _ _ _ A8).
Qed.

(* ---- the top-level value ---- *)

(** After a top-level string, literal or number the end of the input ends
    the value. *)
Lemma ended_top_eof (s : scanner) :
  value_ended [] s -> fst (scan_step s (ch " ")) = scanEnd.
Proof.
  intros (_ & Hps & [Hs | Hn]); unfold scan_step.
  - rewrite Hs. unfold stateEndValue. rewrite Hps. reflexivity.
  - destruct (step s); try discriminate Hn; unfold_state; eval_tests (ch " ");
      unfold stateEndValue; rewrite Hps; reflexivity.
Qed.

Lemma value_not_empty (d : nat) (v : list byte) : value d v -> v <> [].
Proof.
  intros H. destruct H as [| | | d n Hn | | | | |]; try discriminate.
  destruct Hn as [sg i f e Hsg Hi Hf He].
  destruct Hi as [-> | (c & ds & -> & _)]; destruct sg; discriminate.
Qed.

Lemma delimited_after_space (ws v g : list byte) :
  v <> [] -> delimited (ws ++ v) g = delimited v g.
Proof.
  intros Hv. unfold delimited, ends_with_digit.
  destruct g as [| c g]; [reflexivity |].
  assert (Hlast : last (ws ++ v) 0 = last v 0).
  { destruct (exists_last Hv) as (v' & x & ->).
    now rewrite app_assoc, !last_last. }
  rewrite Hlast.
  destruct v as [| b v]; [congruence |].
  destruct ws; reflexivity.
Qed.

(** Every value of the grammar that nests at most [maxNestingDepth] deep,
    after any white space, is read whole. *)
Lemma readValue_value (d : nat) (ws v : list byte) :
  all_space ws -> value d v -> Z.of_nat d <= maxNestingDepth ->
  readValue (ws ++ v) = (List.length (ws ++ v), None).
Proof.
  intros Hws Hv Hd. unfold readValue.
  set (buf := ws ++ v). set (s0 := reset newScanner).
  assert (Hq0 : scanner_quiet s0) by (unfold scanner_quiet; cbn; repeat split; discriminate).
  destruct (run_spaces_keep ws Hws s0) as (s1 & R1 & K1 & S1); [left; reflexivity |].
  assert (Hq1 : scanner_quiet s1).
  { apply (keeps_quiet s0 s1 K1 Hq0); rewrite S1; discriminate. }
  assert (Hps1 : parseState s1 = []) by (destruct K1 as (-> & _); reflexivity).
  assert (Hb1 : begins_value s1) by (left; exact S1).
  subst buf. rewrite (readValue_scan_run _ v ws s0 s1 0 R1).
  rewrite length_app. cbn [Nat.add].
  assert (Hscalar : (exists s2, run s1 v = Some s2 /\ value_ended [] s2) ->
                    readValue_scan (ws ++ v) s1 v (List.length ws)
                    = (List.length ws + List.length v, None)%nat).
  { intros (s2 & R2 & E2).
    rewrite <- (app_nil_r v) at 2.
    rewrite (readValue_scan_run _ [] v s1 s2 _ R2).
    cbn [readValue_scan]. now rewrite (ended_top_eof s2 E2). }
  assert (Hclose : forall (o c : byte) (l : list byte),
             v = o :: l ++ [c] ->
             (exists s2, run s1 (o :: l) = Some s2 /\ closable s2 c []) ->
             readValue_scan (ws ++ v) s1 v (List.length ws)
             = (List.length ws + List.length v, None)%nat).
  { intros o c l -> (s2 & R2 & C2).
    change (o :: l ++ [c]) with ((o :: l) ++ [c]) at 2.
    rewrite (readValue_scan_run _ [c] (o :: l) s1 s2 _ R2).
    rewrite (readValue_scan_close _ [] s2 c _ C2).
    f_equal. cbn [List.length]. rewrite length_app. cbn [List.length]. lia. }
  assert (Hfit1 : fits (parseState s1) 1).
  { rewrite Hps1. unfold fits, maxNestingDepth. cbn. lia. }
  destruct Hv as [d | d | d | d n Hn | d k Hk | d ws' Hws' | d l Hl | d ws' Hws' | d l Hl].
  - apply Hscalar. rewrite <- Hps1. apply run_scalar; auto.
  - apply Hscalar. rewrite <- Hps1. apply run_scalar; auto.
  - apply Hscalar. rewrite <- Hps1. apply run_scalar; auto.
  - apply Hscalar. rewrite <- Hps1. apply run_scalar; auto.
  - apply Hscalar. rewrite <- Hps1. apply run_scalar; eauto.
  - apply (Hclose _ _ _ eq_refl).
    destruct (advance_open s1 Hq1 Hb1 Hfit1) as [(s2 & A2 & Hq2 & S2 & Hps2) _].
    destruct (run_spaces_keep ws' Hws' s2) as (s3 & R3 & K3 & S3); [auto |].
    exists s3. split; [now rewrite (run_cons _ _ _ _ A2) |].
    right; right; left. split; [| split; [congruence | split; [| reflexivity]]].
    + apply (keeps_quiet s2 s3 K3 Hq2); rewrite S3, S2; discriminate.
    + destruct K3 as (-> & _). now rewrite Hps2, Hps1.
  - apply (Hclose _ _ _ eq_refl).
    destruct (advance_open s1 Hq1 Hb1 Hfit1) as [(s2 & A2 & Hq2 & S2 & Hps2) _].
    destruct run_grammar as (_ & Helements & _).
    destruct (Helements d l Hl s2 []) as (s3 & R3 & E3);
      [exact Hq2 | right; exact S2 | now rewrite Hps2, Hps1 | |].
    { rewrite Hps2, Hps1. unfold fits in *. cbn [List.length] in *. lia. }
    exists s3. split; [now rewrite (run_cons _ _ _ _ A2) | left; auto].
  - apply (Hclose _ _ _ eq_refl).
    destruct (advance_open s1 Hq1 Hb1 Hfit1) as [_ (s2 & A2 & Hq2 & S2 & Hps2)].
    destruct (run_spaces_keep ws' Hws' s2) as (s3 & R3 & K3 & S3); [auto |].
    exists s3. split; [now rewrite (run_cons _ _ _ _ A2) |].
    right; right; right. split; [| split; [congruence | split; [| reflexivity]]].
    + apply (keeps_quiet s2 s3 K3 Hq2); rewrite S3, S2; discriminate.
    + destruct K3 as (-> & _). now rewrite Hps2, Hps1.
  - apply (Hclose _ _ _ eq_refl).
    destruct (advance_open s1 Hq1 Hb1 Hfit1) as [_ (s2 & A2 & Hq2 & S2 & Hps2)].
    destruct run_grammar as (_ & _ & Hmembers).
    destruct (Hmembers d l Hl s2 []) as (s3 & R3 & E3);
      [exact Hq2 | right; exact S2 | now rewrite Hps2, Hps1 | |].
    { rewrite Hps2, Hps1. unfold fits in *. cbn [List.length] in *. lia. }
    exists s3. split; [now rewrite (run_cons _ _ _ _ A2) | right; left; auto].
Qed.

(** ... and so is it when bytes follow that do not continue it. *)
Lemma readValue_value_then_rest (d : nat) (ws v g : list byte) :
  all_space ws -> value d v -> Z.of_nat d <= maxNestingDepth ->
  delimited v g = true ->
  readValue (ws ++ v ++ g) = (List.length (ws ++ v), None).
Proof.
  intros Hws Hv Hd Hdel. rewrite app_assoc.
  apply readValue_ignores_rest; [apply (readValue_value d); assumption |].
  now rewrite (delimited_after_space ws v g (value_not_empty d v Hv)).
Qed.

(* ------------------------------------------------------------------ *)
(** ** Indentation of a value of the grammar *)

(** A step of the scan loop that goes on, with the code the scanner
    returned. *)
Lemma advance_code (s s' : scanner) (c : byte) :
  scanner_quiet s -> advance s c = Some s' ->
  scanner_quiet s'
  /\ exists code, scan_step (bump s) c = (code, s')
                  /\ code <> scanEnd /\ code <> scanError.
Proof.
  intros Hq Ha. unfold advance in Ha.
  pose proof (scan_step_outcome (bump s) c (quiet_bump s Hq)) as Ho.
  destruct (scan_step (bump s) c) as [code s1]. cbn [fst snd] in Ho.
  assert (Hend : (code = scanEndObject \/ code = scanEndArray) ->
                 (let (code2, s2) := stateEndValue s1 (ch " ") in
                  match code2 with scanEnd => None | _ => Some s2 end) = Some s' ->
                 parseState s1 = []
                 \/ (parseState s1 <> [] /\ scanner_quiet s1 /\ step s1 = S_EndValue) ->
                 s' = s1 /\ scanner_quiet s1).
  { intros _ Hsome [Hnil | (Hne & Hq1 & Hs1)].
    - exfalso. unfold stateEndValue in Hsome. rewrite Hnil in Hsome.
      unfold stateEndTop in Hsome. destruct (negb _); discriminate Hsome.
    - unfold stateEndValue in Hsome.
      destruct (parseState s1) as [| p ps] eqn:Hps; [congruence |].
      change (isSpace (ch " ")) with true in Hsome. cbv beta iota in Hsome.
      injection Hsome as <-. split; [| exact Hq1].
      destruct s1; cbn in *; subst; reflexivity. }
  destruct code; try discriminate Ha;
    try (injection Ha as <-; split; [exact Ho |];
         eexists; split; [reflexivity | split; discriminate]).
  - destruct (Hend (or_introl eq_refl) Ha Ho) as [-> Hq1].
    split; [exact Hq1 |]. eexists; split; [reflexivity | split; discriminate].
  - destruct (Hend (or_intror eq_refl) Ha Ho) as [-> Hq1].
    split; [exact Hq1 |]. eexists; split; [reflexivity | split; discriminate].
Qed.

(** One byte through the loop of [appendIndent], the scanner not
    complaining: the loop goes on with the rest. *)
Lemma appendIndent_loop_step (prefix indent : string) (c : byte) (rest : list byte)
    (s s' : scanner) (code : scan_code) (needIndent : bool) (depth : Z)
    (dst : list byte) :
  scan_step (bump s) c = (code, s') -> code <> scanError ->
  exists needIndent' depth' dst',
    appendIndent_loop prefix indent (c :: rest) s needIndent depth dst
    = appendIndent_loop prefix indent rest s' needIndent' depth' dst'.
Proof.
  intros Hstep Hcode. cbn [appendIndent_loop]. rewrite Hstep.
  destruct code; try congruence;
    destruct needIndent; cbn [is_end_code negb andb]; cbv beta iota;
    repeat match goal with
           | |- context [if ?b then _ else _] => destruct b
           end;
    do 3 eexists; reflexivity.
Qed.

Lemma appendIndent_loop_run (prefix indent : string) :
  forall (l rest : list byte) (s s' : scanner) (needIndent : bool) (depth : Z)
         (dst : list byte),
    scanner_quiet s -> run s l = Some s' ->
    scanner_quiet s'
    /\ exists needIndent' depth' dst',
         appendIndent_loop prefix indent (l ++ rest) s needIndent depth dst
         = appendIndent_loop prefix indent rest s' needIndent' depth' dst'.
Proof.
  induction l as [| c l IH]; intros rest s s' needIndent depth dst Hq Hrun.
  - cbn in Hrun. injection Hrun as <-. split; [exact Hq |].
    do 3 eexists; reflexivity.
  - cbn [run] in Hrun. destruct (advance s c) as [s1 |] eqn:Ha; [| discriminate].
    destruct (advance_code s s1 c Hq Ha) as (Hq1 & code & Hstep & _ & Herr).
    destruct (appendIndent_loop_step prefix indent c (l ++ rest) s s1 code
                needIndent depth dst Hstep Herr) as (n1 & d1 & dst1 & E1).
    cbn [app]. rewrite E1. apply IH; assumption.
Qed.

(** The scanner over a top-level value: a string, a literal or a number is
    gone through, which leaves the scanner after a value; of an array or
    an object all is gone through but the closing byte. *)
Lemma run_top_value (d : nat) (v : list byte) (s1 : scanner) :
  value d v -> Z.of_nat d <= maxNestingDepth ->
  scanner_quiet s1 -> begins_value s1 -> parseState s1 = [] ->
  (exists s2, run s1 v = Some s2 /\ value_ended [] s2)
  \/ (exists o l c s2, v = o :: l ++ [c] /\ run s1 (o :: l) = Some s2
                       /\ closable s2 c []).
Proof.
  intros Hv Hd Hq1 Hb1 Hps1.
  assert (Hfit1 : fits (parseState s1) 1).
  { rewrite Hps1. unfold fits, maxNestingDepth. cbn. lia. }
  destruct Hv as [d | d | d | d n Hn | d k Hk | d ws' Hws' | d l Hl | d ws' Hws' | d l Hl].
  - left. rewrite <- Hps1. apply run_scalar; auto.
  - left. rewrite <- Hps1. apply run_scalar; auto.
  - left. rewrite <- Hps1. apply run_scalar; auto.
  - left. rewrite <- Hps1. apply run_scalar; auto.
  - left. rewrite <- Hps1. apply run_scalar; eauto.
  - right. eexists _, _, _. 
    destruct (advance_open s1 Hq1 Hb1 Hfit1) as [(s2 & A2 & Hq2 & S2 & Hps2) _].
    destruct (run_spaces_keep ws' Hws' s2) as (s3 & R3 & K3 & S3); [auto |].
    exists s3. split; [reflexivity |].
    split; [now rewrite (run_cons _ _ _ _ A2) |].
    right; right; left. split; [| split; [congruence | split; [| reflexivity]]].
    + apply (keeps_quiet s2 s3 K3 Hq2); rewrite S3, S2; discriminate.
    + destruct K3 as (-> & _). now rewrite Hps2, Hps1.
  - right. eexists _, _, _.
    destruct (advance_open s1 Hq1 Hb1 Hfit1) as [(s2 & A2 & Hq2 & S2 & Hps2) _].
    destruct run_grammar as (_ & Helements & _).
    destruct (Helements d l Hl s2 []) as (s3 & R3 & E3);
      [exact Hq2 | right; exact S2 | now rewrite Hps2, Hps1 | |].
    { rewrite Hps2, Hps1. unfold fits in *. cbn [List.length] in *. lia. }
    exists s3. split; [reflexivity |].
    split; [now rewrite (run_cons _ _ _ _ A2) | left; auto].
  - right. eexists _, _, _.
    destruct (advance_open s1 Hq1 Hb1 Hfit1) as [_ (s2 & A2 & Hq2 & S2 & Hps2)].
    destruct (run_spaces_keep ws' Hws' s2) as (s3 & R3 & K3 & S3); [auto |].
    exists s3. split; [reflexivity |].
    split; [now rewrite (run_cons _ _ _ _ A2) |].
    right; right; right. split; [| split; [congruence | split; [| reflexivity]]].
    + apply (keeps_quiet s2 s3 K3 Hq2); rewrite S3, S2; discriminate.
    + destruct K3 as (-> & _). now rewrite Hps2, Hps1.
  - right. eexists _, _, _.
    destruct (advance_open s1 Hq1 Hb1 Hfit1) as [_ (s2 & A2 & Hq2 & S2 & Hps2)].
    destruct run_grammar as (_ & _ & Hmembers).
    destruct (Hmembers d l Hl s2 []) as (s3 & R3 & E3);
      [exact Hq2 | right; exact S2 | now rewrite Hps2, Hps1 | |].
    { rewrite Hps2, Hps1. unfold fits in *. cbn [List.length] in *. lia. }
    exists s3. split; [reflexivity |].
    split; [now rewrite (run_cons _ _ _ _ A2) | right; left; auto].
Qed.

(** The newline that the encoder puts after the value, through the loop of
    [appendIndent]: it is written, and the scanner is at the end of the
    top-level value. *)
Lemma appendIndent_loop_final_newline (prefix indent : string) (s : scanner)
    (needIndent : bool) (depth : Z) (dst : list byte) :
  err s = None ->
  (value_ended [] s \/ (step s = S_EndTop /\ endTop s = true)) ->
  exists dst' s',
    appendIndent_loop prefix indent [newline] s needIndent depth dst
    = (dst', s')
    /\ err s' = None /\ endTop s' = true
    /\ (needIndent = false -> dst' = dst ++ [newline]).
Proof.
  intros Herr Hs.
  assert (Hstep : exists s', scan_step (bump s) newline = (scanEnd, s')
                             /\ err s' = None /\ endTop s' = true).
  { destruct Hs as [He | [Hs Ht]].
    - rewrite (ended_step [] s newline He eq_refl).
      destruct He as (_ & Hps & _).
      unfold stateEndValue. cbn [parseState bump]. rewrite Hps.
      unfold stateEndTop. change (negb (isSpace newline)) with false.
      cbv beta iota. eexists. split; [reflexivity |]. cbn. auto.
    - unfold scan_step. cbn [step bump]. rewrite Hs. unfold stateEndTop.
      change (negb (isSpace newline)) with false. cbv beta iota.
      eexists. split; [reflexivity |]. cbn. auto. }
  destruct Hstep as (s' & Hstep & He' & Ht').
  cbn [appendIndent_loop]. rewrite Hstep.
  change (is_end_code scanEnd) with false. cbn [negb].
  rewrite andb_true_r.
  destruct needIndent; cbv beta iota;
    change (newline =? ch "{") with false; change (newline =? ch "[") with false;
    change (newline =? ch ",") with false; change (newline =? ch ":") with false;
    change (newline =? ch "}") with false; change (newline =? ch "]") with false;
    cbn [orb]; do 2 eexists; (split; [reflexivity |]);
    (split; [exact He' |]); (split; [exact Ht' |]);
    intros H; try discriminate H; reflexivity.
Qed.

Lemma eof_at_end (s : scanner) :
  err s = None -> endTop s = true -> eof s = (scanEnd, s).
Proof. intros He Ht. unfold eof. now rewrite He, Ht. Qed.

(** Indentation does not fail on a value of the grammar. *)
Lemma appendIndent_value (d : nat) (v : list byte) (prefix indent : string) :
  value d v -> Z.of_nat d <= maxNestingDepth ->
  exists b, appendIndent (v ++ [newline]) prefix indent = (b, None).
Proof.
  intros Hv Hd. unfold appendIndent.
  assert (Hq0 : scanner_quiet newScanner)
    by (unfold scanner_quiet; cbn; repeat split; discriminate).
  assert (Hfinish : forall s needIndent depth dst,
             err s = None ->
             (value_ended [] s \/ (step s = S_EndTop /\ endTop s = true)) ->
             exists b,
               (let (dst0, scan) :=
                  appendIndent_loop prefix indent [newline] s needIndent depth dst in
                let (code, scan0) := eof scan in
                match code with
                | scanError => ([], err scan0)
                | _ => (dst0, None)
                end) = (b, None)).
  { intros s ni depth dst He Hs.
    destruct (appendIndent_loop_final_newline prefix indent s ni depth dst He Hs)
      as (dst' & s' & -> & He' & Ht' & _).
    rewrite (eof_at_end s' He' Ht'). eexists; reflexivity. }
  destruct (run_top_value d v newScanner Hv Hd Hq0 (or_introl eq_refl) eq_refl)
    as [(s2 & R2 & E2) | (o & l & c & s2 & -> & R2 & C2)].
  - destruct (appendIndent_loop_run prefix indent v [newline] newScanner s2
                false 0 [] Hq0 R2) as (Hq2 & n2 & d2 & dst2 & ->).
    apply Hfinish; [apply Hq2 | left; exact E2].
  - replace ((o :: l ++ [c]) ++ [newline]) with ((o :: l) ++ ([c] ++ [newline]))
      by (cbn [app]; now rewrite <- app_assoc).
    destruct (appendIndent_loop_run prefix indent (o :: l) ([c] ++ [newline])
                newScanner s2 false 0 [] Hq0 R2) as (Hq2 & n2 & d2 & dst2 & E).
    rewrite E.
    destruct (close_step s2 c [] C2) as (code & s0 & Hstep & Hcode & Htl & Het & Herr).
    destruct (appendIndent_loop_step prefix indent c [newline] s2 (popParseState s0)
                code n2 d2 dst2 Hstep) as (n3 & d3 & dst3 & E3).
    { destruct Hcode as [-> | ->]; discriminate. }
    cbn [app]. rewrite E3.
    apply Hfinish.
    + unfold popParseState. rewrite Htl. cbn. exact Herr.
    + right. unfold popParseState. rewrite Htl. cbn. auto.
Qed.

(* ------------------------------------------------------------------ *)
(** ** Indentation of a string, a number or a literal *)

(** Inside a top-level literal every byte the scanner takes is part of the
    literal. *)
Lemma inside_scalar_step (s s' : scanner) (c : byte) :
  scanner_quiet s -> indent.inside_scalar s -> advance s c = Some s' ->
  scan_step (bump s) c = (scanContinue, s') /\ indent.inside_scalar s'.
Proof.
  intros (Ht & He & Hs1 & Hs2) (Hps & Hb1 & Hb2 & Hb3 & Hb4).
  unfold advance, indent.inside_scalar, scan_step. cbn [step bump].
  destruct (step s) eqn:Hs; try congruence; cbv beta iota;
    unfold_state; unfold stateEndValue, stateEndTop, scan_error;
    cbn [parseState bump]; rewrite ?Hps; split_ifs;
    intros Ha; try discriminate Ha; injection Ha as <-;
    (split; [reflexivity |]);
    cbn [parseState step set_step bump]; rewrite ?Hs;
    repeat split; first [assumption | discriminate].
Qed.

Lemma appendIndent_loop_inside (prefix indent : string) :
  forall (l rest : list byte) (s s' : scanner) (depth : Z) (dst : list byte),
    scanner_quiet s -> indent.inside_scalar s -> run s l = Some s' ->
    appendIndent_loop prefix indent (l ++ rest) s false depth dst
    = appendIndent_loop prefix indent rest s' false depth (dst ++ l).
Proof.
  induction l as [| c l IH]; intros rest s s' depth dst Hq Hin Hrun.
  - cbn in Hrun. injection Hrun as <-. now rewrite app_nil_r.
  - cbn [run] in Hrun. destruct (advance s c) as [s1 |] eqn:Ha; [| discriminate].
    destruct (inside_scalar_step s s1 c Hq Hin Ha) as (Hstep & Hin1).
    destruct (advance_code s s1 c Hq Ha) as (Hq1 & _).
    cbn [app appendIndent_loop]. rewrite Hstep. cbn [andb].
    rewrite (IH rest s1 s' depth (dst ++ [c]) Hq1 Hin1 Hrun).
    now rewrite <- app_assoc.
Qed.

(** The first byte of a string, a number or a literal. *)
Lemma scalar_first (v : list byte) :
  value 0 v ->
  exists c v', v = c :: v'
               /\ (c = dquote \/ c = ch "n" \/ c = ch "t" \/ c = ch "f"
                   \/ c = ch "-" \/ isDigit c = true).
Proof.
  intros Hv. inversion Hv as [| | | d n Hn | d k Hk | | | |]; subst.
  - eexists _, _. split; [reflexivity | auto].
  - eexists _, _. split; [reflexivity | auto].
  - eexists _, _. split; [reflexivity | auto 6].
  - destruct Hn as [sg i f e Hsg Hi Hf He].
    destruct Hsg as [-> | ->].
    + destruct Hi as [-> | (d' & ds & -> & Hd' & _)].
      * eexists _, _. split; [reflexivity |]. do 5 right. reflexivity.
      * eexists _, _. split; [reflexivity |]. do 5 right.
        now apply isDigit19_isDigit.
    + eexists _, _. split; [reflexivity |]. auto 6.
  - eexists _, _. split; [reflexivity | auto].
Qed.

Lemma begin_literal_step (s s' : scanner) (c : byte) :
  scanner_quiet s -> parseState s = [] -> step s = S_BeginValue ->
  (c = dquote \/ c = ch "n" \/ c = ch "t" \/ c = ch "f"
   \/ c = ch "-" \/ isDigit c = true) ->
  advance s c = Some s' ->
  scan_step (bump s) c = (scanBeginLiteral, s') /\ indent.inside_scalar s'
  /\ (c =? ch "{") || (c =? ch "[") = false
  /\ (c =? ch ",") = false /\ (c =? ch ":") = false
  /\ (c =? ch "}") || (c =? ch "]") = false.
Proof.
  intros Hq Hps Hs Hc.
  assert (Hnot : isSpace c = false /\ (c =? ch "{") = false /\ (c =? ch "[") = false
                 /\ (c =? ch ",") = false /\ (c =? ch ":") = false
                 /\ (c =? ch "}") = false /\ (c =? ch "]") = false).
  { destruct Hc as [-> | [-> | [-> | [-> | [-> | Hd]]]]];
      try (repeat split; reflexivity).
    apply isDigit_range in Hd. unfold isSpace.
    repeat match goal with
           | |- context [ch ?a] =>
               let n := eval vm_compute in (ch a) in change (ch a) with n
           end.
    rewrite andb_false_iff, !Z.leb_gt, !Z.eqb_neq. lia. }
  destruct Hnot as (N0 & N1 & N2 & N3 & N4 & N5 & N6).
  unfold advance, indent.inside_scalar, scan_step. cbn [step bump]. rewrite Hs.
  cbv beta iota. unfold stateBeginValue, scan_error. rewrite N0, N1, N2.
  split_ifs; intros Ha; try discriminate Ha; injection Ha as <-;
    rewrite ?N1, ?N2, ?N3, ?N4, ?N5, ?N6;
    cbn [parseState step set_step bump orb];
    repeat split; first [assumption | discriminate].
Qed.

(** Indentation leaves a string, a number or a literal as it is. *)
Lemma appendIndent_scalar (v : list byte) (prefix indent : string) :
  value 0 v ->
  appendIndent (v ++ [newline]) prefix indent = (v ++ [newline], None).
Proof.
  intros Hv. unfold appendIndent.
  assert (Hq0 : scanner_quiet newScanner)
    by (unfold scanner_quiet; cbn; repeat split; discriminate).
  assert (Hrun : exists s2, run newScanner v = Some s2 /\ value_ended [] s2).
  { change [] with (parseState newScanner).
    apply run_scalar; [exact Hq0 | left; reflexivity |].
    inversion Hv as [| | | d n Hn | d k Hk | | | |]; subst; eauto 6. }
  destruct Hrun as (s2 & R2 & E2).
  destruct (scalar_first v Hv) as (c & v' & -> & Hc).
  cbn [run] in R2. destruct (advance newScanner c) as [s1 |] eqn:Ha; [| discriminate].
  destruct (begin_literal_step newScanner s1 c Hq0 eq_refl eq_refl Hc Ha)
    as (Hstep & Hin1 & N1 & N2 & N3 & N4).
  destruct (advance_code newScanner s1 c Hq0 Ha) as (Hq1 & _).
  cbn [app appendIndent_loop]. rewrite Hstep. cbn [andb].
  rewrite N1, N2, N3, N4.
  rewrite (appendIndent_loop_inside prefix indent v' [newline] s1 s2 0 ([] ++ [c])
             Hq1 Hin1 R2).
  destruct (appendIndent_loop_final_newline prefix indent s2 false 0 (([] ++ [c]) ++ v'))
    as (dst' & s' & -> & He' & Ht' & Hdst); [apply E2 | left; exact E2 |].
  rewrite (eof_at_end s' He' Ht'), (Hdst eq_refl). reflexivity.
Qed.

(* ------------------------------------------------------------------ *)
(** ** What the scanner accepts is of the grammar *)

Import partial.































End ScannerProperties.

(* ================================================================== *)
(** * Properties of the adapter *)

Section AdapterProperties.

Import lambda.

Context {Context World TIn TOut : Type}.
Variable Background : Context.
Variable unmarshal : list byte -> error + TIn.
Variable marshal : TOut -> bool -> error + list byte.
Variable FromContext : Context -> HandlerTrace Context World TIn TOut.

Local Notation "'reflect'" := (reflectHandler unmarshal marshal FromContext).
Local Notation "'construct'" := (newHandler Background unmarshal marshal FromContext).

(** Truncating a buffer that ends with one more byte than [text] leaves
    [text]; the call is in range. *)
Lemma Truncate_strips_last (text : list byte) (c : byte) :
  Buffer.Truncate (text ++ [c]) (Buffer.Len (text ++ [c]) - 1) = Some text.
Proof.
  unfold Buffer.Truncate, Buffer.Len, Buffer.Reset.
  rewrite length_app; cbn [List.length].
  replace (Z.of_nat (List.length text + 1) - 1) with (Z.of_nat (List.length text)) by lia.
  destruct text as [| b text'].
  - reflexivity.
  - destruct (Z.eqb_spec (Z.of_nat (List.length (b :: text'))) 0) as [E0 | _].
    { cbn [List.length] in E0; lia. }
    destruct (Z.ltb_spec (Z.of_nat (List.length (b :: text'))) 0) as [E1 | _]; [lia |].
    destruct (Z.ltb_spec (Z.of_nat (List.length (b :: text') + 1))
                         (Z.of_nat (List.length (b :: text')))) as [E2 | _]; [lia |].
    cbn [orb].
    now rewrite Nat2Z.id, firstn_app, Nat.sub_diag, firstn_all, app_nil_r.
Qed.

(** The invoker of a constructed adapter is [Invoke] on the handler that
    [reflectHandler] makes from the options applied to the defaults. *)
Lemma invoker_newHandler (f : option (HandlerFunc Context World TIn TOut))
    (options : list (Option Context World TIn TOut)) (p : Process World) :
  invoker (fst (construct f options p))
  = Invoke (reflect f (apply_options options (default_options Background))).
Proof. reflexivity. Qed.

(** C2. Construction with a nil user function succeeds, and every
    invocation of the constructed adapter, whatever the context, the payload
    and the state, returns nil bytes and one and the same error, made by
    [errors.New("handler is nil")]; nothing else happens. *)
Theorem nil_handler_always_fails
    (options : list (Option Context World TIn TOut)) (p : Process World)
    (ctx : Context) (payload : list byte) (st : State Context World TIn TOut) :
  (exists hf, handlerFunc_ (fst (construct None options p)) = Some hf)
  /\ invoker (fst (construct None options p)) ctx payload st
     = (Returned (None, Some (errors_New "handler is nil")), st)
  /\ Error (errors_New "handler is nil") = Some "handler is nil".
Proof.
  split; [eexists; reflexivity |]. split; reflexivity.
Qed.

(** C5. When the payload does not decode into the input type, the
    invocation returns nil bytes and the decode error at once: the world
    is as before (the user function did not run), no call is recorded
    (neither trace callback ran, nothing was encoded) and the output buffer
    is empty. *)
Theorem decode_failure_stops_invocation
    (f : HandlerFunc Context World TIn TOut)
    (options : list (Option Context World TIn TOut)) (p : Process World)
    (ctx : Context) (payload : list byte) (st : State Context World TIn TOut)
    (err : error) :
  json.Decode unmarshal payload = inl err ->
  invoker (fst (construct (Some f) options p)) ctx payload st
  = (Returned (None, Some err), mkState [] (world st) (calls st)).
Proof.
  intros Hdec. rewrite invoker_newHandler.
  unfold Invoke, reflectHandler. rewrite Hdec. reflexivity.
Qed.

(** C4. When the user function returns a non-nil error, the invocation
    returns nil bytes and that very error; the calls recorded are the
    request trace (if registered) and the user function, so the response
    trace and the encoder did not run; the output buffer is as the reset at
    the start of the invocation left it; the world is the one the user
    function left. *)
Theorem user_error_is_returned_verbatim
    (f : HandlerFunc Context World TIn TOut)
    (options : list (Option Context World TIn TOut)) (p : Process World)
    (ctx : Context) (payload : list byte) (st : State Context World TIn TOut)
    (event : TIn) (response : TOut) (err : error) (w' : World) :
  json.Decode unmarshal payload = inr event ->
  f ctx event (after_request_trace FromContext ctx event (world st))
    = ((response, Some err), w') ->
  exists st',
    invoker (fst (construct (Some f) options p)) ctx payload st
      = (Returned (None, Some err), st')
    /\ out st' = Buffer.Reset (out st)
    /\ world st' = w'
    /\ calls st' = CallUserFunction ctx event
                     :: request_trace_calls FromContext ctx event ++ calls st
    /\ encode_calls (calls st') = encode_calls (calls st).
Proof.
  intros Hdec Hf. rewrite invoker_newHandler.
  unfold Invoke, reflectHandler. rewrite Hdec.
  unfold after_request_trace in Hf. unfold request_trace_calls, run_trace.
  destruct (RequestEvent (FromContext ctx)) as [callback |];
    cbn [world set_out set_world record_call out calls] in *;
    rewrite Hf; eexists; repeat split.
Qed.


(** What the encoder writes into an empty buffer, in terms of the
    marshalled text. *)
Lemma Encode_cases (h : handlerOptions Context World TIn TOut) (v : TOut) :
  json.Encode marshal (encoder_of h) v []
  = match marshal v (jsonResponseEscapeHTML h) with
    | inl e => (Some e, [])
    | inr text =>
        if indent_configured h then
          match json.appendIndent (text ++ [newline])
                  (jsonResponseIndentPrefix h) (jsonResponseIndentValue h) with
          | (_, Some e) => (Some e, [])
          | (b, None) => (None, b)
          end
        else (None, text ++ [newline])
    end.
Proof.
  unfold json.Encode, encoder_of, indent_configured.
  cbn [json.escapeHTML json.indentPrefix json.indentValue
       json.SetIndent json.SetEscapeHTML json.NewEncoder].
  destruct (marshal v (jsonResponseEscapeHTML h)) as [e | text]; [reflexivity |].
  destruct (negb (json.is_empty (jsonResponseIndentPrefix h))
            || negb (json.is_empty (jsonResponseIndentValue h))); [| reflexivity].
  destruct (json.appendIndent _ _ _) as [b [e |]]; reflexivity.
Qed.

Lemma indent_configured_flags (h : handlerOptions Context World TIn TOut) :
  json.is_empty (jsonResponseIndentValue h)
  && json.is_empty (jsonResponseIndentPrefix h)
  = negb (indent_configured h).
Proof.
  unfold indent_configured.
  destruct (json.is_empty (jsonResponseIndentValue h)),
           (json.is_empty (jsonResponseIndentPrefix h)); reflexivity.
Qed.

(** The adapter built by [reflectHandler] around a non-nil function meets
    the contract of the specification: same result, same world; it never
    panics. *)
Lemma Invoke_reflectHandler_contract
    (f : HandlerFunc Context World TIn TOut)
    (h : handlerOptions Context World TIn TOut)
    (ctx : Context) (payload : list byte) (st : State Context World TIn TOut) :
  fst (Invoke (reflect (Some f) h) ctx payload st)
    = Returned (fst (adapter_contract unmarshal marshal FromContext f h ctx payload (world st)))
  /\ world (snd (Invoke (reflect (Some f) h) ctx payload st))
     = snd (adapter_contract unmarshal marshal FromContext f h ctx payload (world st)).
Proof.
  unfold Invoke, reflectHandler, adapter_contract.
  destruct (json.Decode unmarshal payload) as [err | event]; [split; reflexivity |].
  unfold after_request_trace, after_response_trace, run_trace.
  fold (encoder_of h).
  destruct (RequestEvent (FromContext ctx)) as [rq |];
    cbn [world set_out set_world record_call out calls fst snd];
    match goal with |- context [f ctx event ?w] => destruct (f ctx event w) as [[response [err |]] w'] end;
    try (split; reflexivity);
    destruct (ResponseEvent (FromContext ctx)) as [rs |];
    cbn [world set_out set_world record_call out calls fst snd];
    unfold Buffer.Reset; rewrite Encode_cases, indent_configured_flags;
    destruct (marshal response (jsonResponseEscapeHTML h)) as [e | text];
    try (split; reflexivity);
    destruct (indent_configured h); cbn [negb];
    try (destruct (json.appendIndent _ _ _) as [b [e |]]; split; reflexivity);
    cbn [out set_out]; rewrite Truncate_strips_last; split; reflexivity.
Qed.







(** C7. [WithEnableSIGTERM] appends its callbacks to those already
    registered and sets the flag, so two applications with [a] and then
    [b] leave the list [a; b].  Construction registers one listener, with
    the callbacks accumulated, when the flag is set, and none otherwise.
    When the signal is delivered to a process with that one listener the
    world is the one obtained by running the callbacks in registration
    order, each once: for [a] then [b], [b (a w)]. *)
Theorem sigterm_callbacks_accumulate_in_order :
  (forall (callbacks : list (World -> World))
          (h : handlerOptions Context World TIn TOut),
      sigtermCallbacks (WithEnableSIGTERM callbacks h) = sigtermCallbacks h ++ callbacks
      /\ enableSIGTERM (WithEnableSIGTERM callbacks h) = true)
  /\ (forall a b : World -> World,
        let h : handlerOptions Context World TIn TOut :=
          apply_options [WithEnableSIGTERM [a]; WithEnableSIGTERM [b]]
                        (default_options Background) in
        sigtermCallbacks h = [a; b] /\ enableSIGTERM h = true)
  /\ (forall (f : option (HandlerFunc Context World TIn TOut))
             (options : list (Option Context World TIn TOut)) (p : Process World),
        let h := apply_options options (default_options Background) in
        listeners (snd (construct f options p))
        = listeners p ++ (if enableSIGTERM h then [sigtermCallbacks h] else []))
  /\ (forall (f : option (HandlerFunc Context World TIn TOut))
             (options : list (Option Context World TIn TOut)) (w : World),
        let h := apply_options options (default_options Background) in
        p_world (deliver_SIGTERM (snd (construct f options (mkProcess w []))))
        = if enableSIGTERM h then run_callbacks (sigtermCallbacks h) w else w)
  /\ (forall (f : option (HandlerFunc Context World TIn TOut))
             (a b : World -> World) (w : World),
        p_world (deliver_SIGTERM
                   (snd (construct f [WithEnableSIGTERM [a]; WithEnableSIGTERM [b]]
                                   (mkProcess w []))))
        = b (a w)).
Proof.
  repeat split.
  - intros f options p. cbv zeta. unfold newHandler. cbn [snd].
    destruct (enableSIGTERM _); [reflexivity | now rewrite app_nil_r].
  - intros f options w. cbv zeta. unfold newHandler. cbn [snd].
    destruct (enableSIGTERM _); reflexivity.
Qed.



(** Options are applied in order and the last one to set a field wins:
    whatever options came before, the escaping flag, the indentation and
    the base context are those of the last option that sets them, and each
    of these options leaves the other fields alone. *)
Theorem last_option_wins
    (options : list (Option Context World TIn TOut))
    (h : handlerOptions Context World TIn TOut) :
  (forall b,
      let h' := apply_options (options ++ [WithSetEscapeHTML b]) h in
      jsonResponseEscapeHTML h' = b
      /\ jsonResponseIndentPrefix h' = jsonResponseIndentPrefix (apply_options options h)
      /\ jsonResponseIndentValue h' = jsonResponseIndentValue (apply_options options h)
      /\ baseContext h' = baseContext (apply_options options h)
      /\ sigtermCallbacks h' = sigtermCallbacks (apply_options options h)
      /\ enableSIGTERM h' = enableSIGTERM (apply_options options h))
  /\ (forall prefix indent,
        let h' := apply_options (options ++ [WithSetIndent prefix indent]) h in
        jsonResponseIndentPrefix h' = prefix
        /\ jsonResponseIndentValue h' = indent
        /\ jsonResponseEscapeHTML h' = jsonResponseEscapeHTML (apply_options options h)
        /\ baseContext h' = baseContext (apply_options options h)
        /\ sigtermCallbacks h' = sigtermCallbacks (apply_options options h)
        /\ enableSIGTERM h' = enableSIGTERM (apply_options options h))
  /\ (forall ctx,
        let h' := apply_options (options ++ [WithContext ctx]) h in
        baseContext h' = ctx
        /\ jsonResponseEscapeHTML h' = jsonResponseEscapeHTML (apply_options options h)
        /\ jsonResponseIndentPrefix h' = jsonResponseIndentPrefix (apply_options options h)
        /\ jsonResponseIndentValue h' = jsonResponseIndentValue (apply_options options h)
        /\ sigtermCallbacks h' = sigtermCallbacks (apply_options options h)
        /\ enableSIGTERM h' = enableSIGTERM (apply_options options h)).
Proof.
  unfold apply_options.
  repeat split; rewrite fold_left_app; reflexivity.
Qed.

(** Every invocation of a constructed adapter returns; it returns either
    bytes and a nil error or nil bytes and an error, never both and never
    neither. *)
Theorem invocation_returns_bytes_or_error
    (f : option (HandlerFunc Context World TIn TOut))
    (options : list (Option Context World TIn TOut)) (p : Process World)
    (ctx : Context) (payload : list byte) (st : State Context World TIn TOut) :
  (exists bytes,
      fst (invoker (fst (construct f options p)) ctx payload st)
      = Returned (Some bytes, None))
  \/ (exists err,
        fst (invoker (fst (construct f options p)) ctx payload st)
        = Returned (None, Some err)).
Proof.
  rewrite invoker_newHandler. destruct f as [f |].
  - rewrite (proj1 (Invoke_reflectHandler_contract _ _ _ _ _)).
    unfold adapter_contract.
    destruct (json.Decode unmarshal payload) as [err | event];
      [right; eexists; reflexivity |].
    cbv zeta.
    destruct (f ctx event _) as [[response [err |]] w'];
      [right; eexists; reflexivity |].
    destruct (marshal response _) as [err | text];
      [right; eexists; reflexivity |].
    destruct (indent_configured _); [| left; eexists; reflexivity].
    destruct (json.appendIndent _ _ _) as [b [err |]];
      [right | left]; eexists; reflexivity.
  - right. eexists. reflexivity.
Qed.

(** The output buffer is reused but carries nothing over: the result of
    an invocation and the state it leaves do not depend on what the buffer
    held before. *)
Theorem earlier_output_does_not_leak
    (f : HandlerFunc Context World TIn TOut)
    (h : handlerOptions Context World TIn TOut)
    (ctx : Context) (payload : list byte)
    (b1 b2 : Buffer.t) (w : World) (c : list (call Context TIn TOut)) :
  Invoke (reflect (Some f) h) ctx payload (mkState b1 w c)
  = Invoke (reflect (Some f) h) ctx payload (mkState b2 w c).
Proof. reflexivity. Qed.


End AdapterProperties.

(* ================================================================== *)
(** * Properties of the startup dispatcher *)

Section EntryProperties.

Import lambda.

Context {Handler : Type}.
Variable startRuntimeAPILoop : loopFn Handler.

Lemma start_from_none_set (getenv : string -> string) (fatal_returns : bool)
    (handler : Handler) (fns : list (startFunction Handler)) :
  (forall sf, In sf fns -> getenv (env sf) = "") ->
  forall keys,
    start_from getenv fatal_returns handler fns keys
    = ([Fatalf "expected AWS Lambda environment variables %s are not defined"
               (KeysArg (keys ++ map env fns))],
       if fatal_returns then StartReturned else ProcessExited).
Proof.
  induction fns as [| sf fns IH]; intros Hunset keys.
  - cbn. now rewrite app_nil_r.
  - cbn [start_from map]. rewrite (Hunset sf (or_introl eq_refl)). cbn [json.is_empty negb].
    rewrite IH by (intros; apply Hunset; now right).
    now rewrite <- app_assoc.
Qed.

(** C9. When every environment variable the dispatcher checks is unset or
    empty, [start] calls no loop function: all it does is one call of the
    fatal hook, with the format of the missing-variables report and the
    names of all the variables it checked, in order; the message is the
    report with these names in brackets.  For the start functions of
    [entry.go] the only name is AWS_LAMBDA_RUNTIME_API.  The call ends the
    process, or returns when a test has installed a hook that returns. *)
Theorem missing_environment_is_fatal (getenv : string -> string)
    (fatal_returns : bool) (handler : Handler) :
  getenv "AWS_LAMBDA_RUNTIME_API" = "" ->
  (forall fns : list (startFunction Handler),
      (forall sf, In sf fns -> getenv (env sf) = "") ->
      start_with getenv fatal_returns fns handler
      = ([Fatalf "expected AWS Lambda environment variables %s are not defined"
                 (KeysArg (map env fns))],
         if fatal_returns then StartReturned else ProcessExited)
      /\ fatal_message "expected AWS Lambda environment variables %s are not defined"
                       (KeysArg (map env fns))
         = Some ("expected AWS Lambda environment variables "
                 ++ Sprint_strings (map env fns) ++ " are not defined")%string)
  /\ start startRuntimeAPILoop getenv fatal_returns handler
     = ([Fatalf "expected AWS Lambda environment variables %s are not defined"
                (KeysArg ["AWS_LAMBDA_RUNTIME_API"])],
        if fatal_returns then StartReturned else ProcessExited)
  /\ fatal_message "expected AWS Lambda environment variables %s are not defined"
                   (KeysArg ["AWS_LAMBDA_RUNTIME_API"])
     = Some "expected AWS Lambda environment variables [AWS_LAMBDA_RUNTIME_API] are not defined".
Proof.
  intros Hunset. split; [| split].
  - intros fns Hfns. split.
    + unfold start_with. now rewrite start_from_none_set.
    + reflexivity.
  - unfold start, start_with. rewrite start_from_none_set; [reflexivity |].
    intros sf [<- | []]. exact Hunset.
  - reflexivity.
Qed.

(** When the variable is set to a value [V], [start] calls the loop
    function with exactly [V] and the handler.  If the loop keeps control,
    nothing else happens.  If it returns, with an error or with nil, the
    fatal hook is called with what it returned; the process ends there,
    unless the hook returns, in which case [start] goes on to the report of
    missing variables. *)
Theorem set_environment_hands_control_to_loop (getenv : string -> string)
    (fatal_returns : bool) (handler : Handler) (V : string) :
  getenv "AWS_LAMBDA_RUNTIME_API" = V ->
  V <> "" ->
  start startRuntimeAPILoop getenv fatal_returns handler
  = match startRuntimeAPILoop V handler with
    | None => ([HandedControl "AWS_LAMBDA_RUNTIME_API" V], LoopRunning)
    | Some err =>
        if fatal_returns then
          ([HandedControl "AWS_LAMBDA_RUNTIME_API" V;
            Fatalf "%v" (ErrorArg err);
            Fatalf "expected AWS Lambda environment variables %s are not defined"
                   (KeysArg ["AWS_LAMBDA_RUNTIME_API"])],
           StartReturned)
        else
          ([HandedControl "AWS_LAMBDA_RUNTIME_API" V; Fatalf "%v" (ErrorArg err)],
           ProcessExited)
    end.
Proof.
  intros Hget Hset. unfold start, start_with, startFunctions.
  cbn [start_from env f runtimeAPIStartFunction]. rewrite Hget.
  destruct V as [| a V']; [contradiction |]. cbn [json.is_empty negb].
  destruct (startRuntimeAPILoop _ handler) as [err |]; [| reflexivity].
  destruct fatal_returns; reflexivity.
Qed.


End EntryProperties.

(** C9 at an environment with no variable set, a hook that ends the
    process, and a loop function that would keep control. *)
Lemma missing_environment_is_fatal_witness :
  lambda.start (Handler := unit) (fun _ _ => None) (fun _ => "") false tt
  = ([lambda.Fatalf "expected AWS Lambda environment variables %s are not defined"
                    (lambda.KeysArg ["AWS_LAMBDA_RUNTIME_API"])],
     lambda.ProcessExited).
Proof.
  exact (proj1 (proj2 (missing_environment_is_fatal (Handler := unit)
                         (fun _ _ => None) (fun _ => "") false tt eq_refl))).
Defined.

(** The dispatcher at an environment where the variable names an
    endpoint, a loop that fails at once, and a hook that ends the process. *)
Lemma set_environment_hands_control_to_loop_witness :
  lambda.start (Handler := unit) (fun _ _ => Some (Some (errorString "no route")))
               (fun _ => "127.0.0.1:9001") false tt
  = ([lambda.HandedControl "AWS_LAMBDA_RUNTIME_API" "127.0.0.1:9001";
      lambda.Fatalf "%v" (lambda.ErrorArg (Some (errorString "no route")))],
     lambda.ProcessExited).
Proof.
  apply (set_environment_hands_control_to_loop (Handler := unit)
           (fun _ _ => Some (Some (errorString "no route")))
           (fun _ => "127.0.0.1:9001") false tt "127.0.0.1:9001" eq_refl).
  discriminate.
Defined.

(* ================================================================== *)
(** * String output *)

Section StringOutput.

Import lambda.

Context {Context World TIn : Type}.
Variable Background : Context.
Variable unmarshal : list byte -> error + TIn.
Variable FromContext : Context -> HandlerTrace Context World TIn (list byte).

(** C8. With HTML escaping off and no indentation, as the defaults have
    it, a successful invocation whose output value is the string [<html>]
    returns the eight bytes of the quoted string: the angle brackets as
    they are, no newline after the closing quote. *)
Theorem html_string_is_returned_unescaped
    (f : HandlerFunc Context World TIn (list byte))
    (options : list (Option Context World TIn (list byte))) (p : Process World)
    (ctx : Context) (payload : list byte)
    (st : State Context World TIn (list byte)) (event : TIn) (w' : World) :
  jsonResponseEscapeHTML (apply_options options (default_options Background)) = false ->
  indent_configured (apply_options options (default_options Background)) = false ->
  json.Decode unmarshal payload = inr event ->
  f ctx event (after_request_trace FromContext ctx event (world st))
    = ((bytes_of_string "<html>", None), w') ->
  fst (invoker (fst (newHandler Background unmarshal json.marshal_string
                                FromContext (Some f) options p))
               ctx payload st)
  = Returned (Some (dquote :: bytes_of_string "<html>" ++ [dquote]), None).
Proof.
  intros Hesc Hind Hdec Hf. rewrite invoker_newHandler.
  rewrite (proj1 (Invoke_reflectHandler_contract _ _ _ _ _ _ _ _)).
  unfold adapter_contract. rewrite Hdec, Hf, Hesc, Hind. reflexivity.
Qed.

End StringOutput.

(* ================================================================== *)
(** * The claims at the concrete adapter *)


(** C4 at a handler that refuses every request. *)
Lemma user_error_is_returned_verbatim_witness :
  exists st',
    lambda.invoker
      (fst (lambda.newHandler example.Background json.unmarshal_RawMessage
              example.marshal_Response example.FromContext
              (Some example.refuse) [] example.process))
      true (js "{'Message':'x'}") example.used
    = (lambda.Returned (None, Some (UserError 7 "refused")), st')
    /\ lambda.out st' = []
    /\ lambda.world st' = ["refuse ran"; "request traced"]
    /\ lambda.calls st'
       = [lambda.CallUserFunction true (js "{'Message':'x'}");
          lambda.CallRequestEvent true (js "{'Message':'x'}")]
    /\ lambda.encode_calls (lambda.calls st') = [].
Proof.
  exact (user_error_is_returned_verbatim example.Background json.unmarshal_RawMessage
           example.marshal_Response example.FromContext
           example.refuse [] example.process true (js "{'Message':'x'}")
           example.used (js "{'Message':'x'}")
           (example.mkResponse []) (UserError 7 "refused")
           ["refuse ran"; "request traced"] eq_refl eq_refl).
Defined.

(** C5 at a payload that stops in the middle of an object. *)
Lemma decode_failure_stops_invocation_witness :
  lambda.invoker
    (fst (lambda.newHandler example.Background json.unmarshal_RawMessage
            example.marshal_Response example.FromContext
            (Some (example.hello "x")) [] example.process))
    true (js "{'Message':") example.used
  = (lambda.Returned (None, Some ErrUnexpectedEOF), lambda.mkState [] [] []).
Proof.
  exact (decode_failure_stops_invocation example.Background json.unmarshal_RawMessage
           example.marshal_Response example.FromContext
           (example.hello "x") [] example.process true (js "{'Message':")
           example.used ErrUnexpectedEOF eq_refl).
Defined.

(** C8 at the default options. *)
Lemma html_string_is_returned_unescaped_witness :
  fst (lambda.invoker
         (fst (lambda.newHandler example.Background json.unmarshal_RawMessage
                 json.marshal_string example.FromContext
                 (Some example.html) [] example.process))
         false (js "{}") example.fresh)
  = lambda.Returned (Some [34; 60; 104; 116; 109; 108; 62; 34], None).
Proof.
  exact (html_string_is_returned_unescaped example.Background json.unmarshal_RawMessage
           example.FromContext example.html [] example.process
           false (js "{}") example.fresh (js "{}") []
           eq_refl eq_refl eq_refl eq_refl).
Defined.

(* ================================================================== *)
(** * The identity handler *)

Section IdentityHandler.

Import lambda.

Context {Context World T : Type}.
Variable Background : Context.
Variable unmarshal : list byte -> error + T.
Variable marshal : T -> bool -> error + list byte.
Variable FromContext : Context -> HandlerTrace Context World T T.


End IdentityHandler.





(* ================================================================== *)
(** * The scanner and the JSON grammar *)

Section JsonGrammar.

Import json.

(** The decoder's scanner accepts the JSON grammar: every value of the
    grammar whose arrays and objects nest at most [maxNestingDepth] deep,
    with any white space before it, is read whole and alone by
    [readValue], at the end of the payload as well as before bytes that do
    not continue it; [Decode] then hands exactly these bytes to
    [unmarshal], at every type. *)
Theorem scanner_reads_every_json_value (d : nat) (ws v g : list byte) :
  all_space ws -> value d v -> Z.of_nat d <= maxNestingDepth ->
  delimited v g = true ->
  readValue (ws ++ v) = (List.length (ws ++ v), None)
  /\ readValue (ws ++ v ++ g) = (List.length (ws ++ v), None)
  /\ forall (T : Type) (unmarshal : list byte -> error + T),
       Decode unmarshal (ws ++ v ++ g) = unmarshal (ws ++ v).
Proof.
  intros Hws Hv Hd Hdel.
  pose proof (readValue_value d ws v Hws Hv Hd) as H1.
  pose proof (readValue_value_then_rest d ws v g Hws Hv Hd Hdel) as H2.
  split; [exact H1 |]. split; [exact H2 |].
  intros T unmarshal. unfold Decode. rewrite H2, app_assoc.
  now rewrite firstn_app, Nat.sub_diag, firstn_all, app_nil_r.
Qed.

End JsonGrammar.

(** The array [[{"a":1}]] after a space and before text that is not JSON:
    its derivation in the grammar, two levels deep, and what the decoder
    reads. *)
Lemma scanner_reads_every_json_value_witness :
  json.value 2 (js "[{'a':1}]")
  /\ json.readValue (js " [{'a':1}]garbage") = (10%nat, None)
  /\ json.Decode json.unmarshal_RawMessage (js " [{'a':1}]garbage")
     = inr (js "[{'a':1}]").
Proof.
  assert (Hone : json.value 0 (js "1")).
  { apply json.value_number.
    apply (json.number_parts [] (js "1") [] []).
    - left; reflexivity.
    - right. exists (ch "1"), []. repeat split. constructor.
    - left; reflexivity.
    - left; reflexivity. }
  assert (Hobj : json.value 1 (js "{'a':1}")).
  { apply (json.value_object 0 (js "'a':1")).
    apply (json.members_last 0 [] (js "a") [] [] (js "1") []);
      try reflexivity; [| exact Hone].
    apply json.chars_plain; [vm_compute; discriminate | discriminate | discriminate |].
    apply json.chars_nil. }
  assert (Harr : json.value 2 (js "[{'a':1}]")).
  { apply (json.value_array 1 (js "{'a':1}")).
    apply (json.elements_last 1 [] (js "{'a':1}") []); try reflexivity.
    exact Hobj. }
  split; [exact Harr |].
  destruct (scanner_reads_every_json_value 2 (js " ") (js "[{'a':1}]")
              (js "garbage") eq_refl Harr) as (_ & H2 & H3).
  - vm_compute. discriminate.
  - reflexivity.
  - split; [exact H2 | exact (H3 _ json.unmarshal_RawMessage)].
Defined.

(* ================================================================== *)
(** * More on the adapter *)

Section AdapterSequences.

Import lambda serving.

Context {Context World TIn TOut : Type}.
Variable Background : Context.
Variable unmarshal : list byte -> error + TIn.
Variable marshal : TOut -> bool -> error + list byte.
Variable FromContext : Context -> HandlerTrace Context World TIn TOut.

Local Notation "'reflect'" := (reflectHandler unmarshal marshal FromContext).
Local Notation "'construct'" := (newHandler Background unmarshal marshal FromContext).



(** The trace callbacks run around the user function.  When the payload
    decodes and the user function returns no error, the calls of the
    invocation are, in order: the request callback (if registered) with the
    decoded input, the user function, the response callback (if registered)
    with the response, the encoder.  The user function runs on the world
    the request callback left and the response callback on the world the
    user function left, before anything is encoded: it has run also when
    the encoder then fails. *)
Theorem trace_callbacks_run_around_user_function
    (f : HandlerFunc Context World TIn TOut)
    (options : list (Option Context World TIn TOut)) (p : Process World)
    (ctx : Context) (payload : list byte) (st : State Context World TIn TOut)
    (event : TIn) (response : TOut) (w' : World) :
  json.Decode unmarshal payload = inr event ->
  f ctx event (after_request_trace FromContext ctx event (world st))
    = ((response, None), w') ->
  let st' := snd (invoker (fst (construct (Some f) options p)) ctx payload st) in
  calls st'
  = CallEncode response
      :: response_trace_calls FromContext ctx response
      ++ CallUserFunction ctx event
      :: request_trace_calls FromContext ctx event ++ calls st
  /\ world st' = after_response_trace FromContext ctx response w'.
Proof.
  intros Hdec Hf. cbv zeta. rewrite invoker_newHandler.
  unfold Invoke, reflectHandler. rewrite Hdec.
  unfold after_request_trace in Hf.
  unfold after_response_trace, request_trace_calls, response_trace_calls, run_trace.
  destruct (RequestEvent (FromContext ctx)) as [rq |];
    cbn [world set_out set_world record_call out calls] in *;
    rewrite Hf;
    destruct (ResponseEvent (FromContext ctx)) as [rs |];
    cbn [world set_out set_world record_call out calls];
    destruct (json.Encode _ _ _ _) as [[e |] b]; try (split; reflexivity);
    destruct (_ && _); try (split; reflexivity);
    cbn [out set_out]; destruct (Buffer.Truncate _ _); split; reflexivity.
Qed.

End AdapterSequences.

Section OptionCalls.

Import lambda options.

Context {Context World TIn TOut : Type}.
Variable Background : Context.
Variable unmarshal : list byte -> error + TIn.
Variable marshal : TOut -> bool -> error + list byte.
Variable FromContext : Context -> HandlerTrace Context World TIn TOut.

Local Notation "'reflect'" := (reflectHandler unmarshal marshal FromContext).
Local Notation "'construct'" := (newHandler Background unmarshal marshal FromContext).
Local Notation "'opts'" := (map (option_of (TIn := TIn) (TOut := TOut))).

Lemma same_encoding_filter (l : list (option_call Context World)) :
  forall h h' : handlerOptions Context World TIn TOut,
    same_encoding h h' ->
    same_encoding (apply_options (opts l) h)
                  (apply_options (opts (filter sets_encoding l)) h').
Proof.
  unfold apply_options.
  induction l as [| c l IH]; intros h h' Hs; [exact Hs |].
  cbn [map filter fold_left].
  destruct c as [ctx | b | prefix indent | callbacks];
    cbn [sets_encoding map fold_left option_of]; apply IH;
    destruct Hs as (H1 & H2 & H3); repeat split; assumption.
Qed.

Lemma reflect_same_encoding (f : option (HandlerFunc Context World TIn TOut))
    (h h' : handlerOptions Context World TIn TOut) :
  same_encoding h h' -> reflect f h' = reflect f h.
Proof.
  intros (He & Hp & Hv). unfold reflectHandler. destruct f as [f |]; [| reflexivity].
  now rewrite He, Hp, Hv.
Qed.

Lemma same_field_overwrites (c c' : option_call Context World)
    (h : handlerOptions Context World TIn TOut) :
  same_field c c' = true -> option_of c' (option_of c h) = option_of c' h.
Proof.
  destruct c, c'; try discriminate; reflexivity.
Qed.

Lemma different_fields_commute (c c' : option_call Context World)
    (h : handlerOptions Context World TIn TOut) :
  same_field c c' = false ->
  (forall a b, c = CallWithEnableSIGTERM a -> c' <> CallWithEnableSIGTERM b) ->
  option_of c' (option_of c h) = option_of c (option_of c' h).
Proof.
  destruct c, c'; try discriminate; try reflexivity.
  intros _ H. exfalso. eapply H; reflexivity.
Qed.

(** The options compose freely.  In any list of options, two neighbours
    that set different fields can change places; of two neighbours that set
    the same field the first can be dropped; two [WithEnableSIGTERM] in a
    row amount to one with the callbacks of the first followed by those of
    the second.  And what an invocation does depends on the escaping flag
    and the indentation strings alone: taking every [WithContext] and
    [WithEnableSIGTERM] out of the list leaves the adapter's invoker the
    same function. *)
Theorem options_compose
    (f : option (HandlerFunc Context World TIn TOut))
    (before after : list (option_call Context World)) (p : Process World) :
  (forall c c',
      same_field c c' = false ->
      (forall a b, c = CallWithEnableSIGTERM a -> c' <> CallWithEnableSIGTERM b) ->
      construct f (opts (before ++ c :: c' :: after)) p
      = construct f (opts (before ++ c' :: c :: after)) p)
  /\ (forall c c',
        same_field c c' = true ->
        construct f (opts (before ++ c :: c' :: after)) p
        = construct f (opts (before ++ c' :: after)) p)
  /\ (forall a b,
        construct f (opts (before ++ CallWithEnableSIGTERM a
                                  :: CallWithEnableSIGTERM b :: after)) p
        = construct f (opts (before ++ CallWithEnableSIGTERM (a ++ b) :: after)) p)
  /\ (forall p' : Process World,
        invoker (fst (construct f (opts (before ++ after)) p))
        = invoker (fst (construct f (opts (filter sets_encoding (before ++ after))) p'))).
Proof.
  assert (Hstep : forall l1 l2 : list (option_call Context World),
             (forall h : handlerOptions Context World TIn TOut,
                 apply_options (opts l1) h = apply_options (opts l2) h) ->
             construct f (opts (before ++ l1 ++ after)) p
             = construct f (opts (before ++ l2 ++ after)) p).
  { intros l1 l2 H.
    assert (Happ : forall (a b : list (Option Context World TIn TOut)) h,
               apply_options (a ++ b) h = apply_options b (apply_options a h))
      by (intros; unfold apply_options; apply fold_left_app).
    unfold newHandler. rewrite !map_app, !Happ, H. reflexivity. }
  split; [| split; [| split]].
  - intros c c' Hf Hs.
    apply (Hstep [c; c'] [c'; c]). intros h. unfold apply_options. cbn [map fold_left].
    apply different_fields_commute; assumption.
  - intros c c' Hf.
    apply (Hstep [c; c'] [c']). intros h. unfold apply_options. cbn [map fold_left].
    apply same_field_overwrites; assumption.
  - intros a b.
    apply (Hstep [CallWithEnableSIGTERM a; CallWithEnableSIGTERM b]
                 [CallWithEnableSIGTERM (a ++ b)]).
    intros h. unfold apply_options. cbn [map fold_left option_of].
    unfold WithEnableSIGTERM.
    cbn [handlerFunc_ baseContext jsonResponseEscapeHTML jsonResponseIndentPrefix
         jsonResponseIndentValue enableSIGTERM sigtermCallbacks].
    now rewrite app_assoc.
  - intros p'. rewrite !invoker_newHandler. f_equal.
    symmetry. apply reflect_same_encoding.
    apply same_encoding_filter. repeat split.
Qed.

End OptionCalls.

Section StartProperties.

Import lambda.

Context {Handler : Type}.



Lemma start_from_end (getenv : string -> string) (fatal_returns : bool)
    (handler : Handler) (fns : list (startFunction Handler)) :
  forall keys,
    let r := start_from getenv fatal_returns handler fns keys in
    (fatal_returns = false -> snd r <> StartReturned)
    /\ (snd r = StartReturned ->
        exists events,
          fst r = events
                  ++ [Fatalf "expected AWS Lambda environment variables %s are not defined"
                             (KeysArg (keys ++ map env fns))])
    /\ (snd r = ProcessExited -> exists events format arg,
          fst r = events ++ [Fatalf format arg])
    /\ (snd r = LoopRunning -> exists events e V,
          fst r = events ++ [HandedControl e V]).
Proof.
  induction fns as [| sf fns IH]; intros keys; cbv zeta.
  - cbn [start_from fst snd map]. rewrite app_nil_r.
    repeat split.
    + intros ->. discriminate.
    + intros _. exists []. reflexivity.
    + intros _. eexists [], _, _. reflexivity.
    + destruct fatal_returns; discriminate.
  - cbn [start_from map].
    specialize (IH (keys ++ [env sf])). cbv zeta in IH.
    replace (keys ++ env sf :: map env fns) with ((keys ++ [env sf]) ++ map env fns)
      by (now rewrite <- app_assoc).
    destruct (negb (json.is_empty (getenv (env sf)))); [| exact IH].
    destruct (f sf (getenv (env sf)) handler) as [err |].
    + destruct fatal_returns.
      * destruct (start_from getenv true handler fns (keys ++ [env sf])) as [events e].
        cbn [fst snd] in *. destruct IH as (I1 & I2 & I3 & I4).
        repeat split.
        -- discriminate.
        -- intros He. destruct (I2 He) as (ev & ->).
           exists (HandedControl (env sf) (getenv (env sf))
                     :: Fatalf "%v" (ErrorArg err) :: ev). reflexivity.
        -- intros He. destruct (I3 He) as (ev & fmt & arg & ->).
           exists (HandedControl (env sf) (getenv (env sf))
                     :: Fatalf "%v" (ErrorArg err) :: ev), fmt, arg. reflexivity.
        -- intros He. destruct (I4 He) as (ev & e' & V & ->).
           exists (HandedControl (env sf) (getenv (env sf))
                     :: Fatalf "%v" (ErrorArg err) :: ev), e', V. reflexivity.
      * cbn [fst snd]. repeat split; try discriminate.
        intros _. eexists [HandedControl (env sf) (getenv (env sf))], _, _. reflexivity.
    + cbn [fst snd]. repeat split; try discriminate.
      intros _. eexists [], _, _. reflexivity.
Qed.

(** [start] returns only when the fatal hook does.  With a hook that ends
    the process, as [log.Fatalf] does, a call of [start] never returns: it
    ends in a loop function that keeps control or in the hook.  Whatever the
    hook, the last thing a call does before the process ends is a call of
    the hook, and the last thing it does before it returns is the report of
    missing variables, which then names every variable checked, also those
    that were set. *)
Theorem start_returns_only_if_fatal_hook_does (getenv : string -> string)
    (fatal_returns : bool) (handler : Handler)
    (fns : list (startFunction Handler)) :
  let r := start_with getenv fatal_returns fns handler in
  (fatal_returns = false -> snd r <> StartReturned)
  /\ (snd r = StartReturned ->
      exists events,
        fst r = events
                ++ [Fatalf "expected AWS Lambda environment variables %s are not defined"
                           (KeysArg (map env fns))])
  /\ (snd r = ProcessExited -> exists events format arg,
        fst r = events ++ [Fatalf format arg])
  /\ (snd r = LoopRunning -> exists events e V,
        fst r = events ++ [HandedControl e V]).
Proof.
  unfold start_with. exact (start_from_end getenv fatal_returns handler fns []).
Qed.

End StartProperties.

(* ================================================================== *)
(** * Strings through the encoder and the decoder *)

Section StringCodec.

Import json codec.

Ltac arith := first [lia | Z.div_mod_to_equations; lia].

Lemma lor_add (a b n : Z) :
  0 <= n -> a mod 2 ^ n = 0 -> 0 <= b < 2 ^ n -> Z.lor a b = a + b.
Proof.
  intros Hn Ha Hb.
  assert (H0 : Z.land a b = 0).
  { apply Z.bits_inj'. intros i Hi. rewrite Z.land_spec, Z.bits_0.
    destruct (Z.lt_ge_cases i n) as [Hlt | Hge].
    - rewrite <- (Z.mod_pow2_bits_low a n i Hlt), Ha, Z.bits_0. reflexivity.
    - destruct (Z.eq_dec b 0) as [-> | Hb0]; [now rewrite Z.bits_0, andb_false_r |].
      rewrite (Z.bits_above_log2 b i), andb_false_r; [reflexivity | lia |].
      apply Z.log2_lt_pow2; [lia |].
      apply Z.lt_le_trans with (2 ^ n); [lia |].
      apply Z.pow_le_mono_r; lia. }
  pose proof (Z.add_lor_land a b). lia.
Qed.

Lemma lor_add_const (m a b : Z) (n : Z) :
  0 <= n -> m = 2 ^ n -> a mod m = 0 -> 0 <= b < m -> Z.lor a b = a + b.
Proof. intros Hn ->. now apply lor_add. Qed.

Lemma land_low (a n m : Z) : 0 <= n -> m = Z.ones n -> Z.land a m = a mod 2 ^ n.
Proof. intros Hn ->. now apply Z.land_ones. Qed.

Ltac to_arith :=
  repeat first
    [ rewrite (land_low _ 6 63) by (first [lia | reflexivity])
    | rewrite (land_low _ 5 31) by (first [lia | reflexivity])
    | rewrite (land_low _ 4 15) by (first [lia | reflexivity])
    | rewrite (land_low _ 3 7) by (first [lia | reflexivity])
    | rewrite Z.shiftl_mul_pow2 by lia
    | rewrite Z.shiftr_div_pow2 by lia ];
  change (2 ^ 6) with 64 in *; change (2 ^ 5) with 32 in *;
  change (2 ^ 4) with 16 in *; change (2 ^ 3) with 8 in *;
  change (2 ^ 12) with 4096 in *; change (2 ^ 18) with 262144 in *.

Lemma two_bytes (p0 b1 : byte) :
  194 <= p0 < 224 -> 128 <= b1 <= 191 ->
  let c := Z.lor (Z.shiftl (Z.land p0 31) 6) (Z.land b1 63) in
  128 <= c <= 2047 /\ EncodeRune c = [p0; b1].
Proof.
  intros H0 H1 c. subst c. to_arith.
  rewrite (lor_add_const 64 _ _ 6) by (first [reflexivity | arith]).
  split; [arith |].
  unfold EncodeRune.
  set (c := p0 mod 32 * 64 + b1 mod 64).
  assert (Hc : 128 <= c <= 2047) by (subst c; arith).
  destruct (Z.leb_spec 0 c); [| lia]. destruct (Z.leb_spec c 127); [lia |].
  destruct (Z.leb_spec c 2047); [| lia]. cbn [andb].
  to_arith.
  rewrite (lor_add_const 32 192 _ 5) by (first [reflexivity | subst c; arith]).
  rewrite (lor_add_const 64 128 _ 6) by (first [reflexivity | subst c; arith]).
  subst c. f_equal; [arith | f_equal; arith].
Qed.

Lemma three_bytes (p0 b1 b2 : byte) :
  224 <= p0 < 240 ->
  (if p0 =? 224 then 160 else 128) <= b1 <= (if p0 =? 237 then 159 else 191) ->
  128 <= b2 <= 191 ->
  let c := Z.lor (Z.lor (Z.shiftl (Z.land p0 15) 12) (Z.shiftl (Z.land b1 63) 6))
                 (Z.land b2 63) in
  2048 <= c <= 65535 /\ (c < 55296 \/ 57343 < c) /\ EncodeRune c = [p0; b1; b2].
Proof.
  intros H0 H1 H2 c. subst c.
  assert (H1' : 128 <= b1 <= 191 /\ (p0 = 224 -> 160 <= b1) /\ (p0 = 237 -> b1 <= 159)).
  { destruct (Z.eqb_spec p0 224), (Z.eqb_spec p0 237); lia. }
  clear H1. destruct H1' as (H1 & Hlo & Hhi).
  to_arith.
  rewrite (lor_add_const 4096 (p0 mod 16 * 4096) (b1 mod 64 * 64) 12)
    by (first [reflexivity | arith]).
  rewrite (lor_add_const 64 _ _ 6) by (first [reflexivity | arith]).
  set (c := p0 mod 16 * 4096 + b1 mod 64 * 64 + b2 mod 64).
  assert (Hc : 2048 <= c <= 65535 /\ (c < 55296 \/ 57343 < c)).
  { subst c. destruct (Z.eq_dec p0 224), (Z.eq_dec p0 237); arith. }
  split; [apply Hc |]. split; [apply Hc |].
  unfold EncodeRune.
  destruct (Z.leb_spec 0 c); [| lia]. destruct (Z.leb_spec c 127); [lia |].
  destruct (Z.leb_spec c 2047); [lia |]. cbn [andb].
  destruct (Z.ltb_spec c 0); [lia |]. destruct (Z.ltb_spec 1114111 c); [lia |].
  cbn [orb].
  assert (Hs : (55296 <=? c) && (c <=? 57343) = false).
  { destruct (Z.leb_spec 55296 c), (Z.leb_spec c 57343); try reflexivity. lia. }
  rewrite Hs. destruct (Z.leb_spec c 65535); [| lia].
  to_arith.
  rewrite (lor_add_const 16 224 _ 4) by (first [reflexivity | subst c; arith]).
  rewrite !(lor_add_const 64 128 _ 6) by (first [reflexivity | subst c; arith]).
  subst c. f_equal; [arith | f_equal; [arith | f_equal; arith]].
Qed.

Lemma four_bytes (p0 b1 b2 b3 : byte) :
  240 <= p0 <= 244 ->
  (if p0 =? 240 then 144 else 128) <= b1 <= (if p0 =? 244 then 143 else 191) ->
  128 <= b2 <= 191 -> 128 <= b3 <= 191 ->
  let c := Z.lor (Z.lor (Z.lor (Z.shiftl (Z.land p0 7) 18)
                               (Z.shiftl (Z.land b1 63) 12))
                        (Z.shiftl (Z.land b2 63) 6))
                 (Z.land b3 63) in
  65536 <= c <= 1114111 /\ EncodeRune c = [p0; b1; b2; b3].
Proof.
  intros H0 H1 H2 H3 c. subst c.
  assert (H1' : 128 <= b1 <= 191 /\ (p0 = 240 -> 144 <= b1) /\ (p0 = 244 -> b1 <= 143)).
  { destruct (Z.eqb_spec p0 240), (Z.eqb_spec p0 244); lia. }
  clear H1. destruct H1' as (H1 & Hlo & Hhi).
  to_arith.
  rewrite (lor_add_const 262144 (p0 mod 8 * 262144) (b1 mod 64 * 4096) 18)
    by (first [reflexivity | arith]).
  rewrite (lor_add_const 4096 _ (b2 mod 64 * 64) 12) by (first [reflexivity | arith]).
  rewrite (lor_add_const 64 _ _ 6) by (first [reflexivity | arith]).
  set (c := p0 mod 8 * 262144 + b1 mod 64 * 4096 + b2 mod 64 * 64 + b3 mod 64).
  assert (Hc : 65536 <= c <= 1114111).
  { subst c. destruct (Z.eq_dec p0 240), (Z.eq_dec p0 244); arith. }
  split; [exact Hc |].
  unfold EncodeRune.
  destruct (Z.leb_spec 0 c); [| lia]. destruct (Z.leb_spec c 127); [lia |].
  destruct (Z.leb_spec c 2047); [lia |]. cbn [andb].
  destruct (Z.ltb_spec c 0); [lia |]. destruct (Z.ltb_spec 1114111 c); [lia |].
  cbn [orb].
  assert (Hs : (55296 <=? c) && (c <=? 57343) = false).
  { destruct (Z.leb_spec 55296 c), (Z.leb_spec c 57343); try reflexivity. lia. }
  rewrite Hs. destruct (Z.leb_spec c 65535); [lia |].
  to_arith.
  rewrite (lor_add_const 8 240 _ 3) by (first [reflexivity | subst c; arith]).
  rewrite !(lor_add_const 64 128 _ 6) by (first [reflexivity | subst c; arith]).
  subst c. f_equal; [arith | f_equal; [arith | f_equal; [arith | f_equal; arith]]].
Qed.

Lemma cont_range (b : byte) : ((128 <=? b) && (b <=? 191)) = true <-> 128 <= b <= 191.
Proof. rewrite andb_true_iff, !Z.leb_le. tauto. Qed.

Lemma range_test (lo hi b : byte) :
  ((b <? lo) || (hi <? b)) = false <-> lo <= b <= hi.
Proof. rewrite orb_false_iff, !Z.ltb_ge. tauto. Qed.

(** What [DecodeRune] finds at a byte that is not ASCII: no rune, or the
    two to four bytes of a rune, which [EncodeRune] gives back. *)
Lemma DecodeRune_spec (p0 : byte) (t : list byte) :
  128 <= p0 ->
  DecodeRune (p0 :: t) = (RuneError, 1%nat)
  \/ exists pre post c,
       p0 :: t = pre ++ post
       /\ (2 <= List.length pre)%nat
       /\ (forall t', DecodeRune (pre ++ t') = (c, List.length pre))
       /\ EncodeRune c = pre
       /\ 128 <= c
       /\ Forall (fun b => 128 <= b) pre.
Proof.
  intros Hp. unfold DecodeRune.
  destruct (Z.ltb_spec p0 128) as [? | _]; [lia |].
  destruct ((p0 <? 194) || (244 <? p0)) eqn:Hr; [left; reflexivity |].
  apply orb_false_iff in Hr as [Hr1 Hr2]. apply Z.ltb_ge in Hr1, Hr2.
  destruct (Z.ltb_spec p0 224) as [H224 | H224].
  { (* two bytes *)
    destruct t as [| b1 t]; [left; reflexivity |].
    destruct ((128 <=? b1) && (b1 <=? 191)) eqn:Hc; [| left; reflexivity].
    pose proof (proj1 (cont_range b1) Hc) as Hb1.
    destruct (two_bytes p0 b1) as [Hrange Henc]; [lia | lia |].
    right. exists [p0; b1], t, (Z.lor (Z.shiftl (Z.land p0 31) 6) (Z.land b1 63)).
    split; [reflexivity |]. split; [cbn; lia |].
    split.
    { intros t'. cbn [app]. unfold DecodeRune.
      destruct (Z.ltb_spec p0 128); [lia |].
      destruct (Z.ltb_spec p0 194); [lia |]. destruct (Z.ltb_spec 244 p0); [lia |].
      cbn [orb]. destruct (Z.ltb_spec p0 224); [| lia]. now rewrite Hc. }
    split; [exact Henc |]. split; [lia |].
    repeat constructor; lia. }
  destruct (Z.ltb_spec p0 240) as [H240 | H240].
  { (* three bytes *)
    destruct t as [| b1 [| b2 t]]; [left; reflexivity | left; reflexivity |].
    cbv zeta.
    destruct ((b1 <? (if p0 =? 224 then 160 else 128))
              || ((if p0 =? 237 then 159 else 191) <? b1)) eqn:H1;
      [left; reflexivity |].
    destruct ((128 <=? b2) && (b2 <=? 191)) eqn:H2; [| left; reflexivity].
    cbn [negb].
    pose proof (proj1 (range_test _ _ _) H1) as Hb1.
    pose proof (proj1 (cont_range b2) H2) as Hb2.
    destruct (three_bytes p0 b1 b2) as (Hrange & Hsur & Henc); [lia | exact Hb1 | lia |].
    right. eexists [p0; b1; b2], t, _.
    split; [reflexivity |]. split; [cbn; lia |].
    split.
    { intros t'. cbn [app]. unfold DecodeRune.
      destruct (Z.ltb_spec p0 128); [lia |].
      destruct (Z.ltb_spec p0 194); [lia |]. destruct (Z.ltb_spec 244 p0); [lia |].
      cbn [orb]. destruct (Z.ltb_spec p0 224); [lia |].
      destruct (Z.ltb_spec p0 240); [| lia]. cbv zeta. rewrite H1, H2. reflexivity. }
    split; [exact Henc |]. split; [lia |].
    assert (128 <= b1) by (destruct (p0 =? 224); lia).
    repeat constructor; lia. }
  (* four bytes *)
  destruct t as [| b1 [| b2 [| b3 t]]]; try (left; reflexivity).
  cbv zeta.
  destruct ((b1 <? (if p0 =? 240 then 144 else 128))
            || ((if p0 =? 244 then 143 else 191) <? b1)) eqn:H1;
    [left; reflexivity |].
  destruct ((128 <=? b2) && (b2 <=? 191)) eqn:H2; [| left; reflexivity].
  destruct ((128 <=? b3) && (b3 <=? 191)) eqn:H3; [| left; reflexivity].
  cbn [negb].
  pose proof (proj1 (range_test _ _ _) H1) as Hb1.
  pose proof (proj1 (cont_range b2) H2) as Hb2.
  pose proof (proj1 (cont_range b3) H3) as Hb3.
  destruct (four_bytes p0 b1 b2 b3) as (Hrange & Henc); [lia | exact Hb1 | lia | lia |].
  right. eexists [p0; b1; b2; b3], t, _.
  split; [reflexivity |]. split; [cbn; lia |].
  split.
  { intros t'. cbn [app]. unfold DecodeRune.
    destruct (Z.ltb_spec p0 128); [lia |].
    destruct (Z.ltb_spec p0 194); [lia |]. destruct (Z.ltb_spec 244 p0); [lia |].
    cbn [orb]. destruct (Z.ltb_spec p0 224); [lia |].
    destruct (Z.ltb_spec p0 240); [lia |]. cbv zeta. rewrite H1, H2, H3. reflexivity. }
  split; [exact Henc |]. split; [lia |].
  assert (128 <= b1) by (destruct (p0 =? 240); lia).
  repeat constructor; lia.
Qed.

Lemma DecodeRune_rune (p0 : byte) (t : list byte) :
  128 <= p0 ->
  DecodeRune (p0 :: t) = (RuneError, 1%nat)
  \/ exists pre post c, p0 :: t = pre ++ post /\ encoded_rune c pre.
Proof.
  intros Hp. destruct (DecodeRune_spec p0 t Hp) as [H | (pre & post & c & H)];
    [left; exact H | right].
  exists pre, post, c. unfold encoded_rune. tauto.
Qed.

(** The bytes after the first of a rune are copied, or dropped, one by
    one. *)
Lemma appendString_loop_copy (esc : bool) (a post : list byte) :
  appendString_loop esc (a ++ post) (List.length a) true
  = a ++ appendString_loop esc post O true.
Proof.
  induction a as [| b a IH]; [reflexivity |].
  cbn [app List.length appendString_loop]. now rewrite IH.
Qed.

Lemma appendString_loop_drop (esc : bool) (a post : list byte) :
  appendString_loop esc (a ++ post) (List.length a) false
  = appendString_loop esc post O true.
Proof.
  induction a as [| b a IH]; [destruct post; reflexivity |].
  cbn [app List.length appendString_loop]. now rewrite IH.
Qed.

(** The text [appendString] writes for an ASCII byte. *)
Lemma appendString_loop_ascii (esc : bool) (b : byte) (rest : list byte) :
  b < 128 ->
  appendString_loop esc (b :: rest) O true
  = (if htmlSafeSet b || (negb esc && safeSet b) then [b] else escapeByte b)
      ++ appendString_loop esc rest O true.
Proof.
  intros Hb. cbn [appendString_loop].
  destruct (Z.ltb_spec b 128); [reflexivity | lia].
Qed.

Lemma appendString_loop_invalid (esc : bool) (b : byte) (rest : list byte) :
  128 <= b -> DecodeRune (b :: rest) = (RuneError, 1%nat) ->
  appendString_loop esc (b :: rest) O true
  = [backslash; ch "u"; ch "f"; ch "f"; ch "f"; ch "d"]
      ++ appendString_loop esc rest O true.
Proof.
  intros Hb Hd. cbn [appendString_loop].
  destruct (Z.ltb_spec b 128); [lia |]. rewrite Hd. reflexivity.
Qed.

Lemma appendString_loop_rune (esc : bool) (c : Z) (pre post : list byte) :
  encoded_rune c pre ->
  appendString_loop esc (pre ++ post) O true
  = (if (c =? 8232) || (c =? 8233)
     then [backslash; ch "u"; ch "2"; ch "0"; ch "2"; hex (Z.land c 15)]
     else pre)
      ++ appendString_loop esc post O true.
Proof.
  intros (Hlen & Hdec & _ & _ & Hhigh).
  destruct pre as [| p0 pre']; [cbn in Hlen; lia |].
  pose proof (Hdec post) as Hd. cbn [app] in Hd |- *.
  cbn [appendString_loop]. rewrite Hd.
  inversion Hhigh as [| ? ? Hp0 _]; subst.
  destruct (Z.ltb_spec p0 128); [lia |].
  replace (Nat.eqb (List.length (p0 :: pre')) 1) with false
    by (symmetry; apply Nat.eqb_neq; lia).
  rewrite andb_false_r.
  replace (List.length (p0 :: pre') - 1)%nat with (List.length pre')
    by (cbn [List.length]; lia).
  destruct ((c =? 8232) || (c =? 8233)).
  - now rewrite appendString_loop_drop.
  - now rewrite appendString_loop_copy.
Qed.

(** A string is read ASCII byte by ASCII byte, bad byte by bad byte, rune
    by rune. *)
Lemma rune_ind (P : list byte -> Prop) :
  P [] ->
  (forall b rest, b < 128 -> P rest -> P (b :: rest)) ->
  (forall b rest,
      128 <= b -> DecodeRune (b :: rest) = (RuneError, 1%nat) -> P rest ->
      P (b :: rest)) ->
  (forall c pre post, encoded_rune c pre -> P post -> P (pre ++ post)) ->
  forall s, P s.
Proof.
  intros Hnil Hascii Hbad Hrune s.
  remember (List.length s) as n eqn:Hn.
  revert s Hn. induction n as [n IH] using lt_wf_ind. intros s Hn.
  destruct s as [| b rest]; [exact Hnil |].
  destruct (Z.lt_ge_cases b 128) as [Hlow | Hhigh].
  - apply Hascii; [exact Hlow |].
    apply (IH (List.length rest)); [subst n; cbn; lia | reflexivity].
  - destruct (DecodeRune_rune b rest Hhigh) as [Hd | (pre & post & c & Hs & Hr)].
    + apply Hbad; [exact Hhigh | exact Hd |].
      apply (IH (List.length rest)); [subst n; cbn; lia | reflexivity].
    + rewrite Hs. apply Hrune with c; [exact Hr |].
      apply (IH (List.length post)); [| reflexivity].
      subst n. rewrite Hs, length_app. destruct Hr as (Hlen & _). lia.
Qed.

(** What [appendString] writes, piece by piece. *)
Lemma appendString_loop_ind (esc : bool) (P : list byte -> list byte -> Prop) :
  P [] [] ->
  (forall b rest out,
      b < 128 -> P rest out ->
      P (b :: rest)
        ((if htmlSafeSet b || (negb esc && safeSet b) then [b] else escapeByte b)
           ++ out)) ->
  (forall b rest out,
      128 <= b -> DecodeRune (b :: rest) = (RuneError, 1%nat) -> P rest out ->
      P (b :: rest) ([backslash; ch "u"; ch "f"; ch "f"; ch "f"; ch "d"] ++ out)) ->
  (forall c pre post out,
      encoded_rune c pre -> P post out ->
      P (pre ++ post)
        ((if (c =? 8232) || (c =? 8233)
          then [backslash; ch "u"; ch "2"; ch "0"; ch "2"; hex (Z.land c 15)]
          else pre) ++ out)) ->
  forall s, P s (appendString_loop esc s O true).
Proof.
  intros Hnil Hascii Hbad Hrune.
  apply (rune_ind (fun s => P s (appendString_loop esc s O true))).
  - exact Hnil.
  - intros b rest Hb IH. rewrite appendString_loop_ascii by exact Hb.
    now apply Hascii.
  - intros b rest Hb Hd IH. rewrite appendString_loop_invalid by assumption.
    now apply Hbad.
  - intros c pre post Hr IH. rewrite (appendString_loop_rune esc c pre post Hr).
    now apply Hrune.
Qed.

(* ---- the output is a string of the grammar ---- *)

Ltac numerals :=
  unfold dquote, backslash in *;
  repeat match goal with
         | |- context [ch ?a] =>
             let n := eval vm_compute in (ch a) in change (ch a) with n
         | H : context [ch ?a] |- _ =>
             let n := eval vm_compute in (ch a) in change (ch a) with n in H
         end.

Lemma hex_range (i : Z) :
  0 <= i < 16 -> (48 <= hex i <= 57 \/ 97 <= hex i <= 102).
Proof.
  intros Hi. unfold hex. numerals. destruct (Z.ltb_spec i 10); lia.
Qed.

Lemma hex_isHex (i : Z) : 0 <= i < 16 -> isHex (hex i) = true.
Proof.
  intros Hi. pose proof (hex_range i Hi) as Hr.
  unfold isHex, isDigit. numerals.
  rewrite !orb_true_iff, !andb_true_iff, !Z.leb_le. lia.
Qed.


Lemma nibbles (b : byte) :
  0 <= b < 256 ->
  0 <= Z.shiftr b 4 < 16 /\ 0 <= Z.land b 15 < 16
  /\ Z.shiftr b 4 * 16 + Z.land b 15 = b.
Proof.
  intros Hb. rewrite Z.shiftr_div_pow2 by lia.
  rewrite (land_low b 4 15) by (first [lia | reflexivity]).
  change (2 ^ 4) with 16. arith.
Qed.

Lemma safeSet_range (b : byte) :
  safeSet b = true <-> 32 <= b < 128 /\ b <> dquote /\ b <> backslash.
Proof.
  unfold safeSet.
  rewrite !andb_true_iff, !negb_true_iff, Z.leb_le, Z.ltb_lt, !Z.eqb_neq. tauto.
Qed.

Lemma htmlSafeSet_range (b : byte) :
  htmlSafeSet b = true <-> safeSet b = true /\ is_html b = false.
Proof.
  unfold htmlSafeSet, is_html.
  rewrite !andb_true_iff, !negb_true_iff, !orb_false_iff. tauto.
Qed.

Lemma written_as_is (esc : bool) (b : byte) :
  htmlSafeSet b || (negb esc && safeSet b) = true ->
  safeSet b = true /\ (esc = true -> is_html b = false).
Proof.
  rewrite orb_true_iff, andb_true_iff, negb_true_iff, htmlSafeSet_range.
  intros [[H1 H2] | [He H1]]; split; auto. intros ->. discriminate.
Qed.

(** The escape of an ASCII byte, by the kind of escape. *)
Lemma escapeByte_cases (b : byte) :
  0 <= b < 128 ->
  (exists e, escapeByte b = [backslash; e] /\ simple_escape e = true
             /\ is_html e = false
             /\ (forall out, unquote_loop (backslash :: e :: out) O
                             = option_map (cons b) (unquote_loop out O)))
  \/ escapeByte b
     = [backslash; ch "u"; ch "0"; ch "0"; hex (Z.shiftr b 4); hex (Z.land b 15)].
Proof.
  intros Hb. unfold escapeByte.
  destruct ((b =? backslash) || (b =? dquote)) eqn:H1.
  { left. exists b. split; [reflexivity |].
    apply orb_true_iff in H1. rewrite !Z.eqb_eq in H1.
    destruct H1 as [-> | ->]; repeat split; intros out; reflexivity. }
  destruct (Z.eqb_spec b 8) as [-> | _];
    [left; exists (ch "b"); repeat split; intros out; reflexivity |].
  destruct (Z.eqb_spec b 12) as [-> | _];
    [left; exists (ch "f"); repeat split; intros out; reflexivity |].
  destruct (Z.eqb_spec b 10) as [-> | _];
    [left; exists (ch "n"); repeat split; intros out; reflexivity |].
  destruct (Z.eqb_spec b 13) as [-> | _];
    [left; exists (ch "r"); repeat split; intros out; reflexivity |].
  destruct (Z.eqb_spec b 9) as [-> | _];
    [left; exists (ch "t"); repeat split; intros out; reflexivity |].
  right. reflexivity.
Qed.

Lemma string_chars_high (pre out : list byte) :
  Forall (fun b => 128 <= b) pre -> string_chars out -> string_chars (pre ++ out).
Proof.
  induction 1 as [| b pre Hb _ IH]; intros Hout; [exact Hout |].
  cbn [app]. apply chars_plain; [lia | unfold dquote; lia | unfold backslash; lia |].
  now apply IH.
Qed.

Lemma string_chars_unicode (h1 h2 h3 h4 : byte) (out : list byte) :
  isHex h1 = true -> isHex h2 = true -> isHex h3 = true -> isHex h4 = true ->
  string_chars out ->
  string_chars ([backslash; ch "u"; h1; h2; h3; h4] ++ out).
Proof. intros. cbn [app]. now apply chars_unicode. Qed.

(** What [appendString] writes between the quotes is the inside of a
    string literal of the grammar. *)
Lemma appendString_loop_chars (esc : bool) (s : list byte) :
  is_bytes s -> string_chars (appendString_loop esc s O true).
Proof.
  apply (appendString_loop_ind esc (fun s out => is_bytes s -> string_chars out)).
  - intros _. constructor.
  - intros b rest out Hb IH Hs. inversion Hs as [| ? ? Hb0 Hrest]; subst.
    specialize (IH Hrest).
    destruct (htmlSafeSet b || (negb esc && safeSet b)) eqn:Hsafe.
    + apply written_as_is in Hsafe as [Hsafe _].
      apply safeSet_range in Hsafe. cbn [app]. apply chars_plain; tauto.
    + destruct (escapeByte_cases b) as [(e & -> & He & _) | ->]; [lia | |].
      * cbn [app]. now apply chars_escape.
      * destruct (nibbles b) as (H1 & H2 & _); [lia |].
        apply string_chars_unicode; auto using hex_isHex.
  - intros b rest out Hb Hd IH Hs. inversion Hs; subst.
    apply string_chars_unicode; auto.
  - intros c pre post out Hr IH Hs. apply Forall_app in Hs as [_ Hpost].
    specialize (IH Hpost). destruct Hr as (_ & _ & _ & Hc & Hhigh).
    destruct ((c =? 8232) || (c =? 8233)).
    + apply string_chars_unicode; auto. apply hex_isHex.
      rewrite (land_low c 4 15) by (first [lia | reflexivity]).
      change (2 ^ 4) with 16. arith.
    + now apply string_chars_high.
Qed.

(** A string literal holds no control character. *)
Lemma string_chars_printable (k : list byte) :
  string_chars k -> Forall (fun c => 32 <= c) k.
Proof.
  induction 1 as [| c k Hc _ _ _ IH | e k He _ IH | h1 h2 h3 h4 k H1 H2 H3 H4 _ IH].
  - constructor.
  - constructor; assumption.
  - constructor; [unfold backslash; lia |]. constructor; [| exact IH].
    unfold simple_escape in He. numerals.
    rewrite !orb_true_iff, !Z.eqb_eq in He. lia.
  - assert (Hhex : forall h, isHex h = true -> 32 <= h).
    { intros h Hh. unfold isHex, isDigit in Hh. numerals.
      rewrite !orb_true_iff, !andb_true_iff, !Z.leb_le in Hh. lia. }
    repeat (constructor; [first [unfold backslash; lia | numerals; lia | auto] |]).
    exact IH.
Qed.

(* ---- HTML ---- *)





(* ---- the round trip ---- *)















Lemma appendString_value (esc : bool) (s : list byte) :
  is_bytes s -> value 0 (appendString s esc).
Proof.
  intros Hs. unfold appendString. cbn [app].
  apply value_string. now apply appendString_loop_chars.
Qed.



End StringCodec.

(* ================================================================== *)
(** * Responses through the encoder *)

Section EncodedResponses.

Import lambda.

Context {Context World TIn TOut : Type}.
Variable Background : Context.
Variable unmarshal : list byte -> error + TIn.
Variable marshal : TOut -> bool -> error + list byte.
Variable FromContext : Context -> HandlerTrace Context World TIn TOut.

Local Notation "'construct'" := (newHandler Background unmarshal marshal FromContext).

(** Indentation cannot make an invocation fail.  When the payload
    decodes, the user function returns no error and the response marshals
    to a JSON value of the grammar, nested no deeper than the scanner
    allows, the invocation returns bytes whatever the options: the text as
    it is when no indentation is configured, and a text that ends with the
    encoder's newline when one is.  A string, a number or a literal is not
    changed by the indentation: the bytes are the text and the newline. *)
Theorem indentation_never_fails
    (f : HandlerFunc Context World TIn TOut)
    (options : list (Option Context World TIn TOut)) (p : Process World)
    (ctx : Context) (payload : list byte) (st : State Context World TIn TOut)
    (event : TIn) (response : TOut) (w' : World) (text : list byte) (d : nat) :
  let h := apply_options options (default_options Background) in
  json.Decode unmarshal payload = inr event ->
  f ctx event (after_request_trace FromContext ctx event (world st))
    = ((response, None), w') ->
  marshal response (jsonResponseEscapeHTML h) = inr text ->
  json.value d text ->
  Z.of_nat d <= json.maxNestingDepth ->
  exists bytes,
    fst (invoker (fst (construct (Some f) options p)) ctx payload st)
    = Returned (Some bytes, None)
    /\ (indent_configured h = false -> bytes = text)
    /\ (indent_configured h = true -> exists body, bytes = body ++ [newline])
    /\ (indent_configured h = true -> d = O -> bytes = text ++ [newline]).
Proof.
  intros h Hdec Hf Hm Hv Hd. rewrite invoker_newHandler. fold h.
  rewrite (proj1 (Invoke_reflectHandler_contract _ _ _ _ _ _ _ _)).
  unfold adapter_contract. rewrite Hdec, Hf, Hm.
  destruct (indent_configured h) eqn:Hind.
  - destruct (appendIndent_value d text (jsonResponseIndentPrefix h)
                (jsonResponseIndentValue h) Hv Hd) as (b & Hb).
    rewrite Hb. exists b. split; [reflexivity |]. split; [discriminate |].
    split.
    + intros _. apply (appendIndent_keeps_newline _ _ _ _ Hb).
    + intros _ ->. rewrite (appendIndent_scalar text _ _ Hv) in Hb.
      now injection Hb as <-.
  - exists text. split; [reflexivity |]. split; [reflexivity |].
    split; discriminate.
Qed.

End EncodedResponses.

Section StringResponses.

Import lambda codec.

Context {Context World TIn TOut : Type}.
Variable Background : Context.
Variable unmarshal : list byte -> error + TIn.
Variable marshal : TOut -> bool -> error + list byte.
Variable FromContext : Context -> HandlerTrace Context World TIn (list byte).
Variable FromContext' : Context -> HandlerTrace Context World (list byte) TOut.

(** What an adapter whose user function returns the Go string [s]
    returns: the literal [appendString] writes, and the encoder's newline
    when an indentation is configured. *)
Lemma string_response
    (f : HandlerFunc Context World TIn (list byte))
    (options : list (Option Context World TIn (list byte))) (p : Process World)
    (ctx : Context) (payload : list byte)
    (st : State Context World TIn (list byte)) (event : TIn)
    (s : list byte) (w' : World) :
  let h := apply_options options (default_options Background) in
  json.Decode unmarshal payload = inr event ->
  f ctx event (after_request_trace FromContext ctx event (world st))
    = ((s, None), w') ->
  is_bytes s ->
  fst (invoker (fst (newHandler Background unmarshal json.marshal_string
                       FromContext (Some f) options p)) ctx payload st)
  = Returned (Some (json.appendString s (jsonResponseEscapeHTML h)
                      ++ (if indent_configured h then [newline] else [])),
              None).
Proof.
  intros h Hdec Hf Hs. rewrite invoker_newHandler. fold h.
  rewrite (proj1 (Invoke_reflectHandler_contract _ _ _ _ _ _ _ _)).
  unfold adapter_contract. rewrite Hdec, Hf. unfold json.marshal_string.
  destruct (indent_configured h).
  - now rewrite (appendIndent_scalar _ _ _ (appendString_value _ s Hs)).
  - now rewrite app_nil_r.
Qed.

(** A string response is returned as one JSON string.  Whatever the
    options, the bytes returned for the Go string [s] are a string literal
    of the JSON grammar, followed by the encoder's newline when an
    indentation is configured; the literal holds no control character, so
    no newline; the decoder of an adapter reads exactly the literal from
    these bytes. *)
Theorem string_response_is_one_json_string
    (f : HandlerFunc Context World TIn (list byte))
    (options : list (Option Context World TIn (list byte))) (p : Process World)
    (ctx : Context) (payload : list byte)
    (st : State Context World TIn (list byte)) (event : TIn)
    (s : list byte) (w' : World) :
  let h := apply_options options (default_options Background) in
  json.Decode unmarshal payload = inr event ->
  f ctx event (after_request_trace FromContext ctx event (world st))
    = ((s, None), w') ->
  is_bytes s ->
  exists literal,
    fst (invoker (fst (newHandler Background unmarshal json.marshal_string
                         FromContext (Some f) options p)) ctx payload st)
    = Returned (Some (literal ++ (if indent_configured h then [newline] else [])),
                None)
    /\ literal = json.appendString s (jsonResponseEscapeHTML h)
    /\ json.value 0 literal
    /\ Forall (fun c => 32 <= c) literal
    /\ json.readValue (literal ++ (if indent_configured h then [newline] else []))
       = (List.length literal, None).
Proof.
  intros h Hdec Hf Hs. exists (json.appendString s (jsonResponseEscapeHTML h)).
  split; [apply (string_response f options p ctx payload st event s w'); assumption |].
  split; [reflexivity |].
  pose proof (appendString_value (jsonResponseEscapeHTML h) s Hs) as Hv.
  split; [exact Hv |]. split.
  - unfold json.appendString. cbn [app].
    constructor; [unfold dquote; lia |]. apply Forall_app. split.
    + apply string_chars_printable. now apply appendString_loop_chars.
    + constructor; [unfold dquote; lia | constructor].
  - apply (readValue_value_then_rest 0 [] _ _ eq_refl Hv).
    + unfold json.maxNestingDepth. lia.
    + destruct (indent_configured h); [| reflexivity].
      unfold json.delimited. change (json.continues_number newline) with false.
      now rewrite andb_false_r.
Qed.



End StringResponses.

(* ================================================================== *)
(** * Any handler function through [Invoke] *)

Section AnyHandlerFunc.

Import lambda.

Context {Context World TIn TOut : Type}.


End AnyHandlerFunc.

(* ================================================================== *)
(** * The further properties at concrete adapters *)

(** The trace callbacks around the handler of the README, for a context
    that carries both callbacks. *)
Lemma trace_callbacks_run_around_user_function_witness :
  let st' :=
    snd (lambda.invoker
           (fst (lambda.newHandler example.Background json.unmarshal_RawMessage
                   example.marshal_Response example.FromContext
                   (Some (example.hello "x")) [] example.process))
           true (js "{'Message':'x'}") example.fresh) in
  lambda.calls st'
  = [lambda.CallEncode (example.mkResponse (js "x"));
     lambda.CallResponseEvent true (example.mkResponse (js "x"));
     lambda.CallUserFunction true (js "{'Message':'x'}");
     lambda.CallRequestEvent true (js "{'Message':'x'}")]
  /\ lambda.world st' = ["response traced"; "hello ran"; "request traced"].
Proof.
  exact (trace_callbacks_run_around_user_function example.Background
           json.unmarshal_RawMessage example.marshal_Response example.FromContext
           (example.hello "x") [] example.process true (js "{'Message':'x'}")
           example.fresh (js "{'Message':'x'}") (example.mkResponse (js "x"))
           ["hello ran"; "request traced"] eq_refl eq_refl).
Defined.


(** The response of the README's handler is an object of the grammar, one
    level deep; with [WithSetIndent(">", " ")] the invocation returns
    bytes, which end with the newline. *)
Lemma indentation_never_fails_witness :
  json.value 1 (js "{'Message':'x'}")
  /\ exists bytes body,
       fst (lambda.invoker
              (fst (lambda.newHandler example.Background json.unmarshal_RawMessage
                      example.marshal_Response example.FromContext
                      (Some (example.hello "x"))
                      [lambda.WithSetIndent ">" " "] example.process))
              false (js "{'Message':'x'}") example.fresh)
       = lambda.Returned (Some bytes, None)
       /\ bytes = body ++ [newline].
Proof.
  assert (Hobj : json.value 1 (js "{'Message':'x'}")).
  { apply (json.value_object 0 (js "'Message':'x'")).
    apply (json.members_last 0 [] (js "Message") [] [] (js "'x'") []);
      try reflexivity.
    - repeat (apply json.chars_plain;
              [vm_compute; discriminate | discriminate | discriminate |]).
      apply json.chars_nil.
    - apply (json.value_string 0 (js "x")).
      apply json.chars_plain; [vm_compute; discriminate | discriminate | discriminate |].
      apply json.chars_nil. }
  split; [exact Hobj |].
  destruct (indentation_never_fails example.Background json.unmarshal_RawMessage
              example.marshal_Response example.FromContext
              (example.hello "x") [lambda.WithSetIndent ">" " "] example.process
              false (js "{'Message':'x'}") example.fresh
              (js "{'Message':'x'}") (example.mkResponse (js "x")) ["hello ran"]
              (js "{'Message':'x'}") 1 eq_refl eq_refl eq_refl Hobj)
    as (bytes & H & _ & H2 & _).
  - vm_compute. discriminate.
  - destruct (H2 eq_refl) as (body & Hb).
    exists bytes, body. split; assumption.
Defined.

(** The string of claim C8 through an adapter with an indentation
    configured: the literal and the newline, the literal being a string of
    the grammar. *)
Lemma string_response_is_one_json_string_witness :
  exists literal,
    fst (lambda.invoker
           (fst (lambda.newHandler example.Background json.unmarshal_RawMessage
                   json.marshal_string example.FromContext
                   (Some example.html) [lambda.WithSetIndent ">" " "]
                   example.process))
           false (js "{}") example.fresh)
    = lambda.Returned (Some (literal ++ [newline]), None)
    /\ literal = js "'<html>'"
    /\ json.value 0 literal
    /\ json.readValue (literal ++ [newline]) = (8%nat, None).
Proof.
  destruct (string_response_is_one_json_string example.Background
              json.unmarshal_RawMessage example.FromContext
              example.html [lambda.WithSetIndent ">" " "] example.process
              false (js "{}") example.fresh (js "{}") (js "<html>") [])
    as (literal & H1 & H2 & H3 & _ & H5).
  - reflexivity.
  - reflexivity.
  - unfold codec.is_bytes.
    match goal with
    | |- Forall _ ?l => let l' := eval vm_compute in l in change l with l'
    end.
    repeat (apply Forall_cons; [lia |]). apply Forall_nil.
  - match type of H5 with
    | context [if ?b then _ else _] => change b with true in H1, H5
    end.
    exists literal. split; [exact H1 |]. split; [exact H2 |]. split; [exact H3 |].
    rewrite H5, H2. reflexivity.
Defined.



(* ================================================================== *)
(** * Failures, and the buffer *)

Section FailuresAndBuffer.

Import lambda.

Context {Context World TIn TOut : Type}.
Variable Background : Context.
Variable unmarshal : list byte -> error + TIn.
Variable marshal : TOut -> bool -> error + list byte.
Variable FromContext : Context -> HandlerTrace Context World TIn TOut.

Local Notation "'construct'" := (newHandler Background unmarshal marshal FromContext).

(** A response that cannot be encoded fails the invocation after the user
    code has run.  When marshalling the response fails, or the indentation
    of the marshalled text does, the invocation returns nil bytes and that
    error; the user function and the trace callbacks have run and what they
    did to the world stays; nothing was written to the buffer. *)
Theorem encode_failure_is_returned_after_user_code
    (f : HandlerFunc Context World TIn TOut)
    (options : list (Option Context World TIn TOut)) (p : Process World)
    (ctx : Context) (payload : list byte) (st : State Context World TIn TOut)
    (event : TIn) (response : TOut) (w' : World) (err : error) :
  let h := apply_options options (default_options Background) in
  json.Decode unmarshal payload = inr event ->
  f ctx event (after_request_trace FromContext ctx event (world st))
    = ((response, None), w') ->
  (marshal response (jsonResponseEscapeHTML h) = inl err
   \/ exists text b,
        marshal response (jsonResponseEscapeHTML h) = inr text
        /\ indent_configured h = true
        /\ json.appendIndent (text ++ [newline]) (jsonResponseIndentPrefix h)
             (jsonResponseIndentValue h) = (b, Some err)) ->
  exists st',
    invoker (fst (construct (Some f) options p)) ctx payload st
    = (Returned (None, Some err), st')
    /\ out st' = []
    /\ world st' = after_response_trace FromContext ctx response w'
    /\ user_calls (calls st') = (ctx, event) :: user_calls (calls st)
    /\ encode_calls (calls st') = response :: encode_calls (calls st).
Proof.
  intros h Hdec Hf Hfail. rewrite invoker_newHandler. fold h.
  unfold Invoke, reflectHandler. rewrite Hdec.
  unfold after_request_trace in Hf. unfold after_response_trace, run_trace.
  fold (encoder_of h).
  destruct (RequestEvent (FromContext ctx)) as [rq |];
    cbn [world set_out set_world record_call out calls] in *;
    rewrite Hf;
    destruct (ResponseEvent (FromContext ctx)) as [rs |];
    cbn [world set_out set_world record_call out calls];
    unfold Buffer.Reset; rewrite Encode_cases;
    destruct Hfail as [Hm | (text & b & Hm & Hind & Hap)];
    rewrite Hm, ?Hind, ?Hap;
    eexists; (split; [reflexivity |]); repeat split.
Qed.

(** After an invocation the adapter's buffer holds what was returned: the
    very bytes when the invocation returned bytes, and nothing when it
    returned an error; there is no partial output. *)
Theorem buffer_holds_what_was_returned
    (f : HandlerFunc Context World TIn TOut)
    (options : list (Option Context World TIn TOut)) (p : Process World)
    (ctx : Context) (payload : list byte) (st : State Context World TIn TOut) :
  let r := invoker (fst (construct (Some f) options p)) ctx payload st in
  (exists bytes, fst r = Returned (Some bytes, None) /\ out (snd r) = bytes)
  \/ (exists err, fst r = Returned (None, Some err) /\ out (snd r) = []).
Proof.
  cbv zeta. rewrite invoker_newHandler.
  set (h := apply_options options (default_options Background)).
  unfold Invoke, reflectHandler.
  destruct (json.Decode unmarshal payload) as [err | event];
    [right; eexists; split; reflexivity |].
  unfold run_trace. fold (encoder_of h).
  destruct (RequestEvent (FromContext ctx)) as [rq |];
    cbn [world set_out set_world record_call out calls];
    match goal with
    | |- context [f ctx event ?w] => destruct (f ctx event w) as [[response [err |]] w']
    end;
    try (right; eexists; split; reflexivity);
    destruct (ResponseEvent (FromContext ctx)) as [rs |];
    cbn [world set_out set_world record_call out calls];
    unfold Buffer.Reset; rewrite Encode_cases, indent_configured_flags;
    destruct (marshal response (jsonResponseEscapeHTML h)) as [e | text];
    try (right; eexists; split; reflexivity);
    destruct (indent_configured h); cbn [negb];
    try (destruct (json.appendIndent _ _ _) as [b [e |]];
         [right | left]; eexists; split; reflexivity);
    cbn [out set_out]; rewrite Truncate_strips_last;
    left; eexists; split; reflexivity.
Qed.

(** A payload with no value in it is refused before any user code runs.
    For an empty payload, and for one of white space only, every adapter
    around a non-nil function returns nil bytes and [io.EOF], whatever the
    input type; the user function and the trace callbacks are not called
    and the world is as it was. *)
Theorem payload_without_value_is_refused
    (f : HandlerFunc Context World TIn TOut)
    (options : list (Option Context World TIn TOut)) (p : Process World)
    (ctx : Context) (payload : list byte) (st : State Context World TIn TOut) :
  json.nonSpace payload = false ->
  invoker (fst (construct (Some f) options p)) ctx payload st
  = (Returned (None, Some EOF), mkState [] (world st) (calls st)).
Proof.
  intros Hs. rewrite invoker_newHandler. unfold Invoke, reflectHandler.
  unfold json.Decode. rewrite (readValue_absent payload Hs). reflexivity.
Qed.

End FailuresAndBuffer.

(** An adapter whose response cannot be marshalled: the invocation fails
    with the marshalling error, after the user function has run. *)
Lemma encode_failure_is_returned_after_user_code_witness :
  exists st',
    lambda.invoker
      (fst (lambda.newHandler example.Background json.unmarshal_RawMessage
              (fun (_ : example.Response) (_ : bool) =>
                 inl (MarshalError "unsupported value"))
              example.FromContext (Some (example.hello "x")) [] example.process))
      false (js "{}") example.used
    = (lambda.Returned (None, Some (MarshalError "unsupported value")), st')
    /\ lambda.out st' = []
    /\ lambda.world st' = ["hello ran"].
Proof.
  destruct (encode_failure_is_returned_after_user_code example.Background
              json.unmarshal_RawMessage
              (fun (_ : example.Response) (_ : bool) =>
                 inl (MarshalError "unsupported value"))
              example.FromContext (example.hello "x") [] example.process
              false (js "{}") example.used (js "{}") (example.mkResponse (js "x"))
              ["hello ran"] (MarshalError "unsupported value")
              eq_refl eq_refl (or_introl eq_refl))
    as (st' & H1 & H2 & H3 & _).
  exists st'. split; [exact H1 |]. split; [exact H2 | exact H3].
Defined.

(** A payload of two spaces. *)
Lemma payload_without_value_is_refused_witness :
  lambda.invoker
    (fst (lambda.newHandler example.Background json.unmarshal_RawMessage
            example.marshal_Response example.FromContext
            (Some (example.hello "x")) [] example.process))
    true (js "  ") example.used
  = (lambda.Returned (None, Some EOF), lambda.mkState [] [] []).
Proof.
  exact (payload_without_value_is_refused example.Background
           json.unmarshal_RawMessage example.marshal_Response example.FromContext
           (example.hello "x") [] example.process true (js "  ") example.used
           eq_refl).
Defined.

(* ================================================================== *)
(** * What an adapter accepts as a payload *)

Section AcceptedPayloads.

Import lambda.

Context {Context World TOut : Type}.
Variable marshal : TOut -> bool -> error + list byte.
Variable FromContext : Context -> HandlerTrace Context World (list byte) TOut.



End AcceptedPayloads.

